(** * psrcal.losses: calibration-aware evaluation metrics

    A shallow embedding of [psrcal/losses.py] and [psrcal/utils.py].

    Numbers.  A tensor element is a value of [fl]: a real number, one of the
    two infinities, or NaN.  Finite arithmetic is exact (no rounding, no
    overflow) and there is a single zero; the special values follow IEEE 754
    ([inf - inf], [0 * inf], [0 / 0] and [inf / inf] are NaN, a comparison
    with NaN is false).  The theorems of the claims do not depend on the sign
    of [x / 0].

    Errors.  A Python exception is a value [Err e] of [result]; the
    functions are written in the error monad, in the order of the source.

    Tensors.  A 0-dimensional tensor is an [fl], a 1-dimensional tensor a
    [list fl], a 2-dimensional tensor a [matrix] (its column count is kept
    beside the rows, as [shape[1]] is in the source even when there is no
    row).  Label tensors are [list nat] ([torch.bincount] refuses negative
    entries). *)

From Stdlib Require Import Reals Lra Lia List Bool Arith.
Import ListNotations.

Open Scope R_scope.

(** ** Numbers *)

Inductive fl : Type :=
| Fin (r : R)
| PInf
| NInf
| NaN.

Definition Rltb (a b : R) : bool := if Rlt_dec a b then true else false.
Definition Rleb (a b : R) : bool := if Rle_dec a b then true else false.
Definition Reqb (a b : R) : bool := if Req_dec_T a b then true else false.

Definition fneg (a : fl) : fl :=
  match a with
  | Fin r => Fin (- r)
  | PInf => NInf
  | NInf => PInf
  | NaN => NaN
  end.

Definition fadd (a b : fl) : fl :=
  match a, b with
  | NaN, _ | _, NaN => NaN
  | Fin x, Fin y => Fin (x + y)
  | PInf, NInf | NInf, PInf => NaN
  | PInf, _ | _, PInf => PInf
  | NInf, _ | _, NInf => NInf
  end.

Definition fsub (a b : fl) : fl := fadd a (fneg b).

(** The product of an infinity [inf] (and its opposite [ninf]) with the
    finite [r]. *)
Definition scale_inf (r : R) (inf ninf : fl) : fl :=
  if Rltb 0 r then inf else if Rltb r 0 then ninf else NaN.

Definition fmul (a b : fl) : fl :=
  match a, b with
  | NaN, _ | _, NaN => NaN
  | Fin x, Fin y => Fin (x * y)
  | Fin x, PInf | PInf, Fin x => scale_inf x PInf NInf
  | Fin x, NInf | NInf, Fin x => scale_inf x NInf PInf
  | PInf, PInf | NInf, NInf => PInf
  | PInf, NInf | NInf, PInf => NInf
  end.

Definition fdiv (a b : fl) : fl :=
  match a, b with
  | NaN, _ | _, NaN => NaN
  | Fin x, Fin y =>
      if Reqb y 0 then scale_inf x PInf NInf else Fin (x / y)
  | Fin _, (PInf | NInf) => Fin 0
  | PInf, Fin y => if Rltb y 0 then NInf else PInf
  | NInf, Fin y => if Rltb y 0 then PInf else NInf
  | (PInf | NInf), (PInf | NInf) => NaN
  end.

Definition fabs (a : fl) : fl :=
  match a with
  | Fin r => Fin (Rabs r)
  | PInf | NInf => PInf
  | NaN => NaN
  end.

Definition fexp (a : fl) : fl :=
  match a with
  | Fin r => Fin (exp r)
  | PInf => PInf
  | NInf => Fin 0
  | NaN => NaN
  end.

Definition flog (a : fl) : fl :=
  match a with
  | Fin r => if Rltb 0 r then Fin (ln r) else if Reqb r 0 then NInf else NaN
  | PInf => PInf
  | NInf | NaN => NaN
  end.

Definition fsqrt (a : fl) : fl :=
  match a with
  | Fin r => if Rleb 0 r then Fin (sqrt r) else NaN
  | PInf => PInf
  | NInf | NaN => NaN
  end.

Definition flt (a b : fl) : bool :=
  match a, b with
  | NaN, _ | _, NaN => false
  | Fin x, Fin y => Rltb x y
  | NInf, (Fin _ | PInf) => true
  | Fin _, PInf => true
  | _, _ => false
  end.

Definition fle (a b : fl) : bool :=
  match a, b with
  | NaN, _ | _, NaN => false
  | Fin x, Fin y => Rleb x y
  | NInf, _ => true
  | _, PInf => true
  | _, _ => false
  end.

Definition feq (a b : fl) : bool :=
  match a, b with
  | Fin x, Fin y => Reqb x y
  | PInf, PInf | NInf, NInf => true
  | _, _ => false
  end.

Definition is_nan (a : fl) : bool :=
  match a with NaN => true | _ => false end.

(** A Python [int] or a tensor's integer entry, as a tensor element. *)
Definition of_nat (n : nat) : fl := Fin (INR n).

(** ** Errors *)

Inductive error : Type :=
| IndexError
| RuntimeError
| ValueError
| ZeroDivisionError.

Inductive result (A : Type) : Type :=
| Ok (a : A)
| Err (e : error).

Arguments Ok {A} a.
Arguments Err {A} e.

Definition bind {A B : Type} (m : result A) (k : A -> result B) : result B :=
  match m with
  | Ok a => k a
  | Err e => Err e
  end.

Notation "x <- m ;; k" := (bind m (fun x => k))
  (at level 61, m at next level, right associativity).
Notation "' p <- m ;; k" := (bind m (fun x => match x with p => k end))
  (at level 61, p pattern, m at next level, right associativity).

Fixpoint mapM {A B : Type} (f : A -> result B) (l : list A) : result (list B) :=
  match l with
  | [] => Ok []
  | x :: l' => y <- f x ;; ys <- mapM f l' ;; Ok (y :: ys)
  end.

(** ** Tensors *)

Record matrix : Type := Mat { ncols : nat; rows : list (list fl) }.

Definition nrows (m : matrix) : nat := length (rows m).

Definition wf_matrix (m : matrix) : Prop :=
  Forall (fun r => length r = ncols m) (rows m).

Definition map_matrix (f : fl -> fl) (m : matrix) : matrix :=
  Mat (ncols m) (map (map f) (rows m)).

(** [torch.sum] and [torch.mean] of a 1-dimensional tensor. *)
Definition tsum (v : list fl) : fl := fold_right fadd (Fin 0) v.

Definition tmean (v : list fl) : fl := fdiv (tsum v) (of_nat (length v)).

(** [torch.mean] of a 2-dimensional tensor: over all of its entries. *)
Definition tmean2 (m : matrix) : fl := tmean (concat (rows m)).

(** [v[i]] for an index tensor entry [i]. *)
Definition index {A : Type} (v : list A) (i : nat) : result A :=
  match nth_error v i with
  | Some x => Ok x
  | None => Err IndexError
  end.

(** [v[labels]]: indexing by an integer tensor. *)
Definition gather {A : Type} (v : list A) (labels : list nat) : result (list A) :=
  mapM (index v) labels.

(** Elementwise operation on two 1-dimensional tensors, with broadcasting
    of a length-1 operand. *)
Fixpoint zip_with {A B C : Type} (f : A -> B -> C) (a : list A) (b : list B) : list C :=
  match a, b with
  | x :: a', y :: b' => f x y :: zip_with f a' b'
  | _, _ => []
  end.

Definition broadcast1 (f : fl -> fl -> fl) (a b : list fl) : result (list fl) :=
  if Nat.eqb (length a) (length b) then Ok (zip_with f a b)
  else match a, b with
       | [x], _ => Ok (map (f x) b)
       | _, [y] => Ok (map (fun x => f x y) a)
       | _, _ => Err RuntimeError
       end.

(** Elementwise operation on two 2-dimensional tensors of equal column
    count, with broadcasting of a one-row operand. *)
Definition broadcast2 (f : fl -> fl -> fl) (a b : matrix) : result matrix :=
  if negb (Nat.eqb (ncols a) (ncols b)) then Err RuntimeError
  else if Nat.eqb (nrows a) (nrows b)
       then Ok (Mat (ncols a) (zip_with (zip_with f) (rows a) (rows b)))
       else match rows a, rows b with
            | [r], _ => Ok (Mat (ncols a) (map (zip_with f r) (rows b)))
            | _, [r] => Ok (Mat (ncols a) (map (fun x => zip_with f x r) (rows a)))
            | _, _ => Err RuntimeError
            end.

(** [m[i, j]] *)
Definition index2 (m : matrix) (i j : nat) : result fl :=
  r <- index (rows m) i ;; index r j.

(** [v.expand(n, -1)] of a 1-dimensional tensor. *)
Definition expand (v : list fl) (n : nat) : matrix := Mat (length v) (repeat v n).

(** [torch.max(row)]: the maximum and the index of its first occurrence; a
    NaN, once met, is the maximum. *)
Fixpoint max_from (best : fl) (bi i : nat) (l : list fl) : fl * nat :=
  match l with
  | [] => (best, bi)
  | x :: l' =>
      if negb (is_nan best) && (is_nan x || flt best x)
      then max_from x i (S i) l'
      else max_from best bi (S i) l'
  end.

Definition torch_max (row : list fl) : result (fl * nat) :=
  match row with
  | [] => Err RuntimeError
  | x :: l => Ok (max_from x 0%nat 1%nat l)
  end.

(** [row.argmin()]: the index of the first minimum; a NaN, once met, is
    the minimum. *)
Fixpoint min_from (best : fl) (bi i : nat) (l : list fl) : fl * nat :=
  match l with
  | [] => (best, bi)
  | x :: l' =>
      if negb (is_nan best) && (is_nan x || flt x best)
      then min_from x i (S i) l'
      else min_from best bi (S i) l'
  end.

Definition argmin (row : list fl) : result nat :=
  match row with
  | [] => Err RuntimeError
  | x :: l => Ok (snd (min_from x 0%nat 1%nat l))
  end.

(** [torch.bincount(labels)]: the count of each value from 0 to the largest
    label. *)
Definition bincount (labels : list nat) : list nat :=
  match labels with
  | [] => []
  | _ => map (count_occ Nat.eq_dec labels) (seq 0 (S (list_max labels)))
  end.

(** ** psrcal.utils *)

Definition onehot_row (n_classes x : nat) : list fl :=
  map (fun k => if Nat.eqb k x then Fin 1 else Fin 0) (seq 0 n_classes).

(** [onehot[np.arange(N), X] = 1.] raises on a label beyond the columns. *)
Definition onehot_encode (X : list nat) (n_classes : option nat) : result matrix :=
  n <- match n_classes with
       | Some n => Ok n
       | None => match X with [] => Err ValueError | _ => Ok (S (list_max X)) end
       end ;;
  rs <- mapM (fun x => if Nat.ltb x n then Ok (onehot_row n x) else Err IndexError) X ;;
  Ok (Mat n rs).

(** [torch.softmax] along one row: the exponentials of the entries shifted
    by their maximum, over their sum. *)
Definition softmax_row (row : list fl) : list fl :=
  match row with
  | [] => []
  | x :: l =>
      let m := fst (max_from x 0%nat 1%nat l) in
      let e_x := map (fun x => fexp (fsub x m)) row in
      map (fun e => fdiv e (tsum e_x)) e_x
  end.

(** ** psrcal.losses: prior reweighting *)

(** The weights are a 0-dimensional tensor when no prior is given and a
    vector, one entry per sample, otherwise. *)
Inductive weights : Type :=
| Wscalar (w : fl)
| Wvec (ws : list fl).

Definition data_priors (labels : list nat) : list fl :=
  map (fun c => fdiv (of_nat c) (of_nat (length labels))) (bincount labels).

Definition _get_priors_and_weights (labels : list nat) (priors : option (list fl))
  : result (list fl * weights) :=
  let data_priors := data_priors labels in
  match priors with
  | None => Ok (data_priors, Wscalar (Fin 1))
  | Some priors =>
      num <- gather priors labels ;;
      den <- gather data_priors labels ;;
      ws <- broadcast1 fdiv num den ;;
      Ok (priors, Wvec ws)
  end.

(** ** psrcal.losses: LogLoss and Brier *)

(** A value passed for the [norm] parameter: the callers in this module
    pass a boolean, [None] or a tensor of priors. *)
Inductive pyarg : Type :=
| PyNone
| PyBool (b : bool)
| PyTensor (t : list fl).

(** Python's truth test: a tensor with other than one element has no truth
    value. *)
Definition truthy (a : pyarg) : result bool :=
  match a with
  | PyNone => Ok false
  | PyBool b => Ok b
  | PyTensor [x] => Ok (negb (feq x (Fin 0)))
  | PyTensor _ => Err RuntimeError
  end.

(** [weights*losses] *)
Definition weigh (w : weights) (losses : list fl) : result (list fl) :=
  match w with
  | Wscalar w0 => Ok (map (fmul w0) losses)
  | Wvec ws => broadcast1 fmul ws losses
  end.

(** [wlosses[weights==0] = 0] *)
Definition mask_zero_weight (w : weights) (wlosses : list fl) : result (list fl) :=
  match w with
  | Wscalar w0 => Ok (if feq w0 (Fin 0) then map (fun _ => Fin 0) wlosses else wlosses)
  | Wvec ws =>
      if Nat.eqb (length ws) (length wlosses)
      then Ok (zip_with (fun w x => if feq w (Fin 0) then Fin 0 else x) ws wlosses)
      else Err IndexError
  end.

(** [-log_probs[ii, labels]] with [ii = torch.arange(len(labels))] *)
Definition true_class_losses (log_probs : matrix) (labels : list nat) : result (list fl) :=
  mapM (fun '(i, l) => x <- index2 log_probs i l ;; Ok (fneg x))
       (combine (seq 0 (length labels)) labels).

(** The weighted per-sample losses that enter the mean (lines 42 to 46). *)
Definition LogLoss_wlosses (log_probs : matrix) (labels : list nat) (w : weights)
  : result (list fl) :=
  losses <- true_class_losses log_probs labels ;;
  wlosses <- weigh w losses ;;
  mask_zero_weight w wlosses.

(** [LogLoss] calls itself once, with [norm=False]; [depth] bounds the
    nesting of calls. *)
Fixpoint LogLoss_rec (depth : nat) (log_probs : matrix) (labels : list nat)
    (norm : pyarg) (priors : option (list fl)) : result fl :=
  match depth with
  | O => Err RuntimeError
  | S depth' =>
      '(priors, weights) <- _get_priors_and_weights labels priors ;;
      b <- truthy norm ;;
      norm_factor <-
        (if b
         then LogLoss_rec depth' (map_matrix flog (expand priors (nrows log_probs)))
                labels (PyBool false) (Some priors)
         else Ok (Fin 1)) ;;
      wlosses <- LogLoss_wlosses log_probs labels weights ;;
      let score := tmean wlosses in
      Ok (fdiv score norm_factor)
  end.

Definition LogLoss := LogLoss_rec 2.

(** [torch.atleast_2d(weights).T*losses] *)
Definition weigh_rows (w : weights) (losses : matrix) : result matrix :=
  match w with
  | Wscalar w0 => Ok (map_matrix (fmul w0) losses)
  | Wvec ws =>
      if Nat.eqb (length ws) (nrows losses)
      then Ok (Mat (ncols losses) (zip_with (fun w r => map (fmul w) r) ws (rows losses)))
      else match ws, rows losses with
           | [w0], _ => Ok (map_matrix (fmul w0) losses)
           | _, [r] => Ok (Mat (ncols losses) (map (fun w => map (fmul w) r) ws))
           | _, _ => Err RuntimeError
           end
  end.

(** The squared error [(a - b)**2] of an entry. *)
Definition sq_err (a b : fl) : fl := let d := fsub a b in fmul d d.

(** The weighted squared errors that enter the mean (lines 73 to 76). *)
Definition Brier_wlosses (log_probs : matrix) (labels : list nat) (w : weights)
  : result matrix :=
  let probs := map_matrix fexp log_probs in
  labels_onehot <- onehot_encode labels (Some (ncols probs)) ;;
  losses <- broadcast2 sq_err labels_onehot probs ;;
  weigh_rows w losses.

Fixpoint Brier_rec (depth : nat) (log_probs : matrix) (labels : list nat)
    (norm : pyarg) (priors : option (list fl)) : result fl :=
  match depth with
  | O => Err RuntimeError
  | S depth' =>
      '(priors, weights) <- _get_priors_and_weights labels priors ;;
      b <- truthy norm ;;
      norm_factor <-
        (if b
         then Brier_rec depth' (map_matrix flog (expand priors (nrows log_probs)))
                labels (PyBool false) (Some priors)
         else Ok (Fin 1)) ;;
      wl <- Brier_wlosses log_probs labels weights ;;
      let score := tmean2 wl in
      Ok (fdiv score norm_factor)
  end.

Definition Brier := Brier_rec 2.

(** The optional [priors] parameter, as it reaches the third positional
    parameter of [LogLoss] and [Brier]. *)
Definition as_arg (priors : option (list fl)) : pyarg :=
  match priors with
  | None => PyNone
  | Some p => PyTensor p
  end.

(** [LogLoss(log_probs, targets, priors)]: the third positional parameter
    of [LogLoss] is [norm], and [priors] keeps its default. *)
Definition CalLossLogLoss (log_probs cal_log_probs : matrix) (targets : list nat)
    (priors : option (list fl)) : result fl :=
  raw <- LogLoss log_probs targets (as_arg priors) None ;;
  cal <- LogLoss cal_log_probs targets (as_arg priors) None ;;
  Ok (fmul (fdiv (fsub raw cal) raw) (Fin 100)).

Definition CalLossBrier (log_probs cal_log_probs : matrix) (targets : list nat)
    (priors : option (list fl)) : result fl :=
  raw <- Brier log_probs targets (as_arg priors) None ;;
  cal <- Brier cal_log_probs targets (as_arg priors) None ;;
  Ok (fmul (fdiv (fsub raw cal) raw) (Fin 100)).

(** ** psrcal.losses: CostFunction *)

(** [1 - np.eye(K)] *)
Definition default_cost (K : nat) : matrix :=
  Mat K (map (fun i => map (fun j => fsub (Fin 1) (if Nat.eqb i j then Fin 1 else Fin 0))
                         (seq 0 K))
             (seq 0 K)).

(** numpy's minimum of two entries: a NaN wins. *)
Definition fmin (a b : fl) : fl :=
  if is_nan a || is_nan b then NaN else if flt b a then b else a.

(** [C.min(axis=0)]: the minimum of each column; numpy refuses an array
    without rows. *)
Definition col_min (C : matrix) : result (list fl) :=
  match rows C with
  | [] => Err ValueError
  | r :: rs => Ok (fold_left (zip_with fmin) rs r)
  end.

(** The array [C] holds after [C -= C.min(axis=0)]. *)
Definition normalize_cost (C : matrix) : result matrix :=
  mins <- col_min C ;;
  Ok (Mat (ncols C) (map (fun r => zip_with fsub r mins) (rows C))).

Definition dot (a b : list fl) : fl := tsum (zip_with fmul a b).

(** [(p @ C.T).argmin(axis=-1)] for one row [p] of probabilities. *)
Definition decide_row (C : matrix) (p : list fl) : result nat :=
  argmin (map (dot p) (rows C)).

(** [_decisions(p)] for a 2-dimensional [p]. *)
Definition _decisions (C : matrix) (p : matrix) : result (list nat) :=
  if Nat.eqb (ncols p) (ncols C) then mapM (decide_row C) (rows p)
  else Err RuntimeError.

(** [_decisions(priors)] for the 1-dimensional [priors]. *)
Definition _decisions1 (C : matrix) (p : list fl) : result nat :=
  if Nat.eqb (length p) (ncols C) then decide_row C p else Err RuntimeError.

(** Two index vectors, broadcast against each other. *)
Definition broadcast_index (a b : list nat) : result (list (nat * nat)) :=
  if Nat.eqb (length a) (length b) then Ok (combine a b)
  else match a, b with
       | [x], _ => Ok (map (pair x) b)
       | _, [y] => Ok (map (fun x => (x, y)) a)
       | _, _ => Err IndexError
       end.

(** [C[decisions, labels]] *)
Definition lookup_costs (C : matrix) (decisions labels : list nat) : result (list fl) :=
  ix <- broadcast_index decisions labels ;;
  mapM (fun '(d, l) => index2 C d l) ix.

(** The body of [CostFunction] from line 16 on, for the normalized [C]. *)
Definition CostFunction_score (log_probs : matrix) (labels : list nat) (C : matrix)
    (norm : bool) : result fl :=
  let probs := map_matrix fexp log_probs in
  ds <- _decisions C probs ;;
  costs <- lookup_costs C ds labels ;;
  prior_cost <-
    (if norm
     then let priors := data_priors labels in
          d <- _decisions1 C priors ;;
          naive_costs <- mapM (index2 C d) labels ;;
          Ok (tmean naive_costs)
     else Ok (Fin 1)) ;;
  Ok (fdiv (tmean costs) prior_cost).

(** [CostFunction] with the caller's array made explicit: the second
    component is what the array passed for [C] holds when the call ends
    ([None] when no array was passed).  [C -= ...] updates that array in
    place; an exception raised later leaves the update done. *)
Definition CostFunction_run (log_probs : matrix) (labels : list nat)
    (C : option matrix) (norm : bool) : result fl * option matrix :=
  let C0 := match C with
            | None => default_cost (ncols log_probs)
            | Some c => c
            end in
  match normalize_cost C0 with
  | Err e => (Err e, C)
  | Ok C1 =>
      (CostFunction_score log_probs labels C1 norm,
       match C with None => None | Some _ => Some C1 end)
  end.

Definition CostFunction (log_probs : matrix) (labels : list nat)
    (C : option matrix) (norm : bool) : result fl :=
  fst (CostFunction_run log_probs labels C norm).

(** ** psrcal.losses: ECE *)

(** The argument of [ECE]: a matrix of log-probabilities, or (the binary
    case of line 118) a vector. *)
Inductive scores : Type :=
| Scores2 (m : matrix)
| Scores1 (v : list fl).

Definition n_samples (s : scores) : nat :=
  match s with
  | Scores2 m => nrows m
  | Scores1 v => length v
  end.

(** [torch.max(m, axis=1)]: the two result tensors. *)
Definition max_rows (m : matrix) : result (list fl * list nat) :=
  ps <- mapM torch_max (rows m) ;;
  Ok (map fst ps, map snd ps).

(** [confs, preds] of lines 116 to 120. *)
Definition confs_preds (log_probs : scores) : result (list fl * list nat) :=
  match log_probs with
  | Scores2 m => max_rows (map_matrix fexp m)
  | Scores1 v =>
      let probs := map fexp v in
      Ok (probs, map (fun p => if fle (Fin (1/2)) p then 1%nat else 0%nat) probs)
  end.

(** [np.linspace(0, 1, num=M+1)] *)
Definition linspace01 (M : nat) : list R :=
  map (fun i => INR i / INR M) (seq 0 (S M)).

(** [zip(limits[:-1], limits[1:])] *)
Definition bins (M : nat) : list (R * R) :=
  let limits := linspace01 M in
  combine (removelast limits) (tl limits).

(** [ix = (low < confs) & (confs <= high)] *)
Definition in_bin (low high : R) (c : fl) : bool :=
  flt (Fin low) c && fle c (Fin high).

(** [t[ix]]: the entries of [t] selected by the mask [ix]. *)
Fixpoint select {A : Type} (ix : list bool) (t : list A) : list A :=
  match ix, t with
  | b :: ix', x :: t' => if b then x :: select ix' t' else select ix' t'
  | _, _ => []
  end.

(** Indexing by a mask of another length is an error. *)
Definition masked {A : Type} (ix : list bool) (t : list A) : result (list A) :=
  if Nat.eqb (length ix) (length t) then Ok (select ix t) else Err IndexError.

(** The variables the loop of [ECE] updates. *)
Record ece_state : Type := EceState {
  ece : fl;
  ave_accs : list fl;
  ave_confs : list fl;
  counts : list nat;
  limits_used : list (R * R)
}.

(** One iteration of the loop (lines 131 to 144). *)
Definition ece_step (confs : list fl) (preds target : list nat)
    (st : ece_state) (bin : R * R) : result ece_state :=
  let '(low, high) := bin in
  let ix := map (in_bin low high) confs in
  let n := count_occ bool_dec ix true in
  if Nat.eqb n 0 then Ok st
  else
    curr_preds <- masked ix preds ;;
    curr_confs <- masked ix confs ;;
    curr_target <- masked ix target ;;
    let ave_acc := tmean (zip_with (fun p t => if Nat.eqb p t then Fin 1 else Fin 0)
                                   curr_preds curr_target) in
    let ave_conf := tmean curr_confs in
    Ok (EceState (fadd (ece st) (fmul (of_nat n) (fabs (fsub ave_conf ave_acc))))
                 (ave_accs st ++ [ave_acc])
                 (ave_confs st ++ [ave_conf])
                 (counts st ++ [n])
                 (limits_used st ++ [(low, high)])).

Fixpoint ece_loop (confs : list fl) (preds target : list nat)
    (st : ece_state) (bs : list (R * R)) : result ece_state :=
  match bs with
  | [] => Ok st
  | b :: bs' => st' <- ece_step confs preds target st b ;; ece_loop confs preds target st' bs'
  end.

(** [ece * 100/N]: while no bin was used [ece] is the Python integer 0,
    and Python refuses to divide an integer by the integer 0. *)
Definition ece_percent (st : ece_state) (N : nat) : result fl :=
  match counts st, N with
  | [], O => Err ZeroDivisionError
  | _, _ => Ok (fdiv (fmul (ece st) (Fin 100)) (of_nat N))
  end.

(** [ECE(log_probs, target, M, return_values=True)] *)
Definition ECE_values (log_probs : scores) (target : list nat) (M : nat)
  : result (fl * ece_state) :=
  let N := n_samples log_probs in
  '(confs, preds) <- confs_preds log_probs ;;
  st <- ece_loop confs preds target (EceState (Fin 0) [] [] [] []) (bins M) ;;
  e <- ece_percent st N ;;
  Ok (e, st).

(** [ECE(log_probs, target, M)] *)
Definition ECE (log_probs : scores) (target : list nat) (M : nat) : result fl :=
  r <- ECE_values log_probs target M ;; Ok (fst r).

(** [preds == target] on two integer vectors: an elementwise comparison,
    with broadcasting of a length-1 operand. *)
Definition eq_tensor (a b : list nat) : result (list bool) :=
  if Nat.eqb (length a) (length b) then Ok (zip_with Nat.eqb a b)
  else match a, b with
       | [x], _ => Ok (map (Nat.eqb x) b)
       | _, [y] => Ok (map (fun x => Nat.eqb x y) a)
       | _, _ => Err RuntimeError
       end.

(** ** psrcal.losses: ECE_v2

    [psrcal.calibration] is not part of the sources at hand: its
    [calibrate], applied with [HistogramBinningCal], is a parameter.  It
    receives the training scores, the training targets and the test scores,
    and returns the calibrated log-probabilities and the list [params]. *)
Section ECE_v2.

Variable calibrate :
  list fl -> list bool -> list fl -> result (list fl * list (list fl)).

Definition ECE_v2 (log_probs : matrix) (target : list nat) (M : nat) : result fl :=
  '(log_confs, preds) <- max_rows log_probs ;;
  let log_probs2 := log_confs in
  target <- eq_tensor preds target ;;
  '(log_probs2_cal, params) <- calibrate log_probs2 target log_probs2 ;;
  let probs2_cal := map fexp log_probs2_cal in
  probs2_binned <- index params 0 ;;
  d <- broadcast1 fsub probs2_cal probs2_binned ;;
  Ok (fmul (tmean (map fabs d)) (Fin 100)).

End ECE_v2.

(** ** psrcal.losses: shift *)

(** What a wrapped loss may return: a tensor of dimension 0, 1 or 2. *)
Inductive tensor : Type :=
| T0 (x : fl)
| T1 (v : list fl)
| T2 (m : matrix).

(** [t @ col.reshape(-1, 1)]: [torch.matmul] refuses a 0-dimensional
    operand. *)
Definition matmul_col (t : tensor) (col : list fl) : result tensor :=
  match t with
  | T0 _ => Err RuntimeError
  | T1 v =>
      if Nat.eqb (length v) (length col) then Ok (T1 [dot v col]) else Err RuntimeError
  | T2 m =>
      if Nat.eqb (ncols m) (length col)
      then Ok (T2 (Mat 1 (map (fun r => [dot r col]) (rows m))))
      else Err RuntimeError
  end.

(** [log_probs + off] *)
Definition add_offset (m : matrix) (off : list fl) : result matrix :=
  if Nat.eqb (ncols m) (length off)
  then Ok (Mat (ncols m) (map (fun r => zip_with fadd r off) (rows m)))
  else match off with
       | [o] => Ok (map_matrix (fun x => fadd x o) m)
       | _ =>
           if Nat.eqb (ncols m) 1
           then Ok (Mat (length off)
                        (map (fun r => match r with
                                       | [x] => map (fadd x) off
                                       | _ => []
                                       end) (rows m)))
           else Err RuntimeError
       end.

(** [So = K**0.5 * eof/eof.norm()] *)
Definition shift_So (off : list fl) : list fl :=
  let K := length off in
  let eof := map fexp off in
  let norm := fsqrt (tsum (map (fun x => fmul x x) eof)) in
  map (fun e => fdiv (fmul (fsqrt (of_nat K)) e) norm) eof.

(** [check_label] is imported from [psrcal.utils], which does not define
    it: it is a parameter, with the type [Label] of what it returns. *)
Section Shift.

Variable Label : Type.
Variable check_label : list nat -> nat -> result Label.

Definition shift (loss : matrix -> Label -> result tensor) (off : list fl)
  : matrix -> list nat -> result tensor :=
  let So := shift_So off in
  fun log_probs labels =>
    label <- check_label labels (ncols log_probs) ;;
    shifted <- add_offset log_probs off ;;
    let qs := Mat (ncols shifted) (map softmax_row (rows shifted)) in
    l <- loss (map_matrix flog qs) label ;;
    matmul_col l So.

End Shift.

(** ** Reference definitions, written from the specification *)

(** The [i]-th of [M] equal-width bins of [0, 1]. *)
Definition equal_width_bin (M i : nat) : R * R := (INR i / INR M, INR (S i) / INR M).

(** A sample as the ECE sees it: its confidence, its prediction, its label. *)
Abbreviation sample := (fl * (nat * nat))%type.

Definition in_interval (b : R * R) (s : sample) : bool :=
  flt (Fin (fst b)) (fst s) && fle (fst s) (Fin (snd b)).

Definition correct (s : sample) : bool := Nat.eqb (fst (snd s)) (snd (snd s)).

(** [binCount * |average confidence - fraction correct|] for the samples
    [ss] of one bin. *)
Definition bin_gap (ss : list sample) : fl :=
  let binCount := of_nat (length ss) in
  let avgConfidence := fdiv (tsum (map fst ss)) binCount in
  let avgAccuracy := fdiv (of_nat (length (filter correct ss))) binCount in
  fmul binCount (fabs (fsub avgConfidence avgAccuracy)).




(** ** Properties of values *)

Definition finite (x : fl) : Prop :=
  match x with
  | Fin _ => True
  | _ => False
  end.

(** A log-probability: a real that is at most 0, or minus infinity. *)
Definition log_prob (x : fl) : Prop :=
  match x with
  | Fin r => r <= 0
  | NInf => True
  | PInf | NaN => False
  end.

(** A probability: a real between 0 and 1. *)
Definition probability (x : fl) : Prop :=
  match x with
  | Fin p => 0 <= p <= 1
  | _ => False
  end.

(** A cost or a weight: a non-negative real. *)
Definition fin_nonneg (x : fl) : Prop :=
  match x with
  | Fin r => 0 <= r
  | _ => False
  end.

(** A non-negative score: a non-negative real or plus infinity. *)
Definition nonneg (x : fl) : Prop :=
  match x with
  | Fin r => 0 <= r
  | PInf => True
  | NInf | NaN => False
  end.

(** [x <= y] for two tensor entries that are real numbers. *)
Definition le_fin (x y : fl) : Prop :=
  match x, y with
  | Fin a, Fin b => a <= b
  | _, _ => False
  end.

Definition log_prob_matrix (m : matrix) : Prop :=
  wf_matrix m /\ Forall (Forall log_prob) (rows m).

(** The probability [exp x] of a log-probability [x], as a real. *)
Definition prob (x : fl) : R :=
  match x with
  | Fin r => exp r
  | _ => 0
  end.

(** A row of log-probabilities whose probabilities sum to 1. *)
Definition normalized_row (r : list fl) : Prop :=
  Forall log_prob r /\ fold_right Rplus 0 (map prob r) = 1.

Definition normalized (m : matrix) : Prop :=
  wf_matrix m /\ Forall normalized_row (rows m).

(** An external prior, when there is one, holds a probability for each
    class of the labels. *)
Definition valid_priors (priors : option (list fl)) (labels : list nat) : Prop :=
  match priors with
  | Some p => Forall probability p /\ Forall (fun l => (l < length p)%nat) labels
  | None => True
  end.

(** A cost matrix for [K] classes: a row at least, [K] real entries per
    row. *)
Definition cost_ok (c : matrix) (K : nat) : Prop :=
  wf_matrix c /\ ncols c = K /\ (0 < nrows c)%nat /\ Forall (Forall finite) (rows c).

(** The cost matrix passed to [CostFunction], when there is one, is a cost
    matrix for [K] classes. *)
Definition valid_cost (C : option matrix) (K : nat) : Prop :=
  match C with
  | Some c => cost_ok c K
  | None => True
  end.

(** ** The scores in closed form *)

(** [m[i, j]], NaN standing for an entry that does not exist. *)
Definition entry (m : matrix) (i j : nat) : fl := nth j (nth i (rows m) []) NaN.

(** The list [l] with [x] at index [i]. *)
Fixpoint set_nth {A : Type} (l : list A) (i : nat) (x : A) : list A :=
  match l, i with
  | [], _ => []
  | _ :: t, O => x :: t
  | a :: t, S i' => a :: set_nth t i' x
  end.

(** The matrix [m] with the row [r] for sample [i]. *)
Definition set_row (m : matrix) (i : nat) (r : list fl) : matrix :=
  Mat (ncols m) (set_nth (rows m) i r).

(** The weight [priors[l] / data_priors[l]] of a sample of label [l]. *)
Definition sample_weight (priors : list fl) (labels : list nat) (l : nat) : fl :=
  fdiv (nth l priors NaN) (nth l (data_priors labels) NaN).

(** The prior [_get_priors_and_weights] returns: the external one, or the
    empirical one. *)
Definition the_prior (priors : option (list fl)) (labels : list nat) : list fl :=
  match priors with
  | Some p => p
  | None => data_priors labels
  end.

(** The weights [_get_priors_and_weights] returns. *)
Definition the_weights (priors : option (list fl)) (labels : list nat) : weights :=
  match priors with
  | Some p => Wvec (map (sample_weight p labels) labels)
  | None => Wscalar (Fin 1)
  end.

(** The weight of a sample by its label: 1 without an external prior. *)
Definition weight_of (priors : option (list fl)) (labels : list nat) : nat -> fl :=
  match priors with
  | Some p => sample_weight p labels
  | None => fun _ => Fin 1
  end.

(** The log-probabilities of a classifier that outputs the prior for each
    of [n] samples: [torch.log(priors.expand(n, -1))]. *)
Definition prior_log_probs (prior : list fl) (n : nat) : matrix :=
  map_matrix flog (expand prior n).

(** The term of the sample [p = (j, l)], of index [j] and label [l], in the
    mean of [LogLoss], when [g] gives the weight of a label. *)
Definition logloss_term (lp : matrix) (g : nat -> fl) (p : nat * nat) : fl :=
  if feq (g (snd p)) (Fin 0) then Fin 0
  else fmul (g (snd p)) (fneg (entry lp (fst p) (snd p))).

(** The terms of the mean of [LogLoss], one per sample. *)
Definition logloss_terms (lp : matrix) (labels : list nat) (priors : option (list fl))
  : list fl :=
  map (logloss_term lp (weight_of priors labels)) (combine (seq 0 (length labels)) labels).

(** The row of the sample of label [l] and log-probabilities [r] in the
    matrix whose mean [Brier] takes, when [g] gives the weight of a label. *)
Definition brier_row (K : nat) (g : nat -> fl) (l : nat) (r : list fl) : list fl :=
  map (fmul (g l)) (zip_with sq_err (onehot_row K l) (map fexp r)).

(** The rows of the matrix whose mean [Brier] takes, one per sample. *)
Definition brier_rows (lp : matrix) (labels : list nat) (priors : option (list fl))
  : list (list fl) :=
  zip_with (brier_row (ncols lp) (weight_of priors labels)) labels (rows lp).

(** The entry 1 or 0 of a tensor of booleans. *)
Definition ind (b : bool) : fl := if b then Fin 1 else Fin 0.

(** The 0/1 cost matrix: 1 off the diagonal, 0 on it. *)
Definition zero_one_cost (K : nat) : matrix :=
  Mat K (map (fun i => map (fun j => ind (negb (Nat.eqb i j))) (seq 0 K)) (seq 0 K)).

(** ** Losses for [shift] to wrap *)

(** [LogLoss] with its default arguments: it returns a 0-dimensional
    tensor. *)
Definition LogLoss_loss (log_probs : matrix) (labels : list nat) : result tensor :=
  r <- LogLoss log_probs labels (PyBool true) None ;; Ok (T0 r).

(** A loss that returns the per-class vector [[1, 2]]. *)
Definition loss_12 (log_probs : matrix) (labels : list nat) : result tensor :=
  Ok (T1 [Fin 1; Fin 2]).

(** ** Inputs of the examples *)

(** Three samples of two classes; the third, of class 1, gives its true
    class the probability 0. *)
Definition lp_zero_weight : matrix :=
  Mat 2 [[Fin 0; NInf]; [Fin 0; NInf]; [Fin 0; NInf]].

(** One sample of two classes, of probabilities [exp(-1)] and
    [1 - exp(-1)]. *)
Definition lp_one_sample : matrix := Mat 2 [[Fin (-1); Fin (ln (1 - exp (-1)))]].

(** One sample of two classes, of probabilities 1 and 0. *)
Definition lp_certain : matrix := Mat 2 [[Fin 0; NInf]].

(** One sample of two classes, of probabilities 0 and 1: with the label 1,
    a classifier that outputs the empirical prior. *)
Definition lp_last_certain : matrix := Mat 2 [[NInf; Fin 0]].

(** Two samples of two classes, each certain of a different class. *)
Definition lp_two_certain : matrix := Mat 2 [[Fin 0; NInf]; [NInf; Fin 0]].

(** Two samples of two classes: confidences 0.65 and 0.75, both predicting
    class 0. *)
Definition lp_two_bins : matrix :=
  Mat 2 [[Fin (ln (13/20)); Fin (ln (7/20))]; [Fin (ln (3/4)); Fin (ln (1/4))]].

(** A cost matrix whose columns have the minima 1 and 2. *)
Definition cost_1234 : matrix := Mat 2 [[Fin 1; Fin 2]; [Fin 3; Fin 4]].

(** * Further functions of the two modules *)

(** ** psrcal.utils: softmax *)

(** [np.max(x)]: numpy refuses an empty array; a NaN, once met, is the
    maximum. *)
Definition np_max (x : list fl) : result fl :=
  match x with
  | [] => Err ValueError
  | v :: l => Ok (fst (max_from v 0%nat 1%nat l))
  end.

(** [softmax(x)] for a 1-dimensional array [x] (and [axis=None]). *)
Definition softmax (x : list fl) : result (list fl) :=
  m <- np_max x ;;
  let e_x := map (fun v => fexp (fsub v m)) x in
  Ok (map (fun e => fdiv e (tsum e_x)) e_x).

(** ** psrcal.losses: LogLossSE *)

(** Two lengths of an axis that broadcast against each other, and the
    length of the result. *)
Definition compatible (n m : nat) : bool :=
  Nat.eqb n m || Nat.eqb n 1 || Nat.eqb m 1.

Definition broadcast_dim (n m : nat) : nat := if Nat.eqb n 1 then m else n.

(** The pairs of entries of two lists of compatible lengths. *)
Definition align {A : Type} (a b : list A) : list (A * A) :=
  if Nat.eqb (length a) (length b) then combine a b
  else match a, b with
       | [x], _ => map (pair x) b
       | _, [y] => map (fun x => (x, y)) a
       | _, _ => []
       end.

(** Elementwise operation on two 2-dimensional tensors, with
    broadcasting along both axes. *)
Definition broadcast2d (f : fl -> fl -> fl) (a b : matrix) : result matrix :=
  if compatible (nrows a) (nrows b) && compatible (ncols a) (ncols b)
  then Ok (Mat (broadcast_dim (ncols a) (ncols b))
               (map (fun rr => map (fun xy => f (fst xy) (snd xy)) (align (fst rr) (snd rr)))
                    (align (rows a) (rows b))))
  else Err RuntimeError.

(** [torch.mean(m, axis=0)]: the mean of each column. *)
Definition col_means (m : matrix) : list fl :=
  map (fun j => tmean (map (fun r => nth j r NaN) (rows m))) (seq 0 (ncols m)).

(** [-torch.sum(priors * torch.log(priors))] *)
Definition entropy (priors : list fl) : fl :=
  fneg (tsum (map (fun p => fmul p (flog p)) priors)).

Definition LogLossSE (log_probs ref_log_probs : matrix) (norm : bool) : result fl :=
  let prior_entropy :=
    if norm
    then let priors := col_means (map_matrix fexp ref_log_probs) in entropy priors
    else Fin 1 in
  prod <- broadcast2d fmul (map_matrix (fun x => fneg (fexp x)) ref_log_probs) log_probs ;;
  Ok (fdiv (tmean (map tsum (rows prod))) prior_entropy).

(** ** psrcal.losses: ECEbin *)

(** The outcome of a function that starts with an [assert]. *)
Inductive asserted (A : Type) : Type :=
| AssertionError
| Passed (a : A).

Arguments AssertionError {A}.
Arguments Passed {A} a.

(** [probs[:, 1]] for a matrix of two columns. *)
Definition column1 (m : matrix) : list fl := map (fun r => nth 1 r NaN) (rows m).

(** One iteration of the loop of [ECEbin] (lines 192 to 207); the state
    holds [prop2s] and [avep2s] where that of [ECE] holds the accuracies
    and the confidences. *)
Definition ecebin_step (post2 : list fl) (target : list nat) (l2norm : bool)
    (st : ece_state) (bin : R * R) : result ece_state :=
  let '(low, high) := bin in
  let ix := map (in_bin low high) post2 in
  let n := count_occ bool_dec ix true in
  if Nat.eqb n 0 then Ok st
  else
    curr_post <- masked ix post2 ;;
    curr_target <- masked ix (map of_nat target) ;;
    let avep2 := tmean curr_post in
    let prop2 := tmean curr_target in
    let d := fsub avep2 prop2 in
    Ok (EceState (fadd (ece st) (fmul (of_nat n) (if l2norm then fmul d d else fabs d)))
                 (ave_accs st ++ [prop2])
                 (ave_confs st ++ [avep2])
                 (counts st ++ [n])
                 (limits_used st ++ [(low, high)])).

Fixpoint ecebin_loop (post2 : list fl) (target : list nat) (l2norm : bool)
    (st : ece_state) (bs : list (R * R)) : result ece_state :=
  match bs with
  | [] => Ok st
  | b :: bs' =>
      st' <- ecebin_step post2 target l2norm st b ;;
      ecebin_loop post2 target l2norm st' bs'
  end.

(** [ECEbin(log_probs, target, M, return_values=True, l2norm)] *)
Definition ECEbin_values (log_probs : matrix) (target : list nat) (M : nat) (l2norm : bool)
  : asserted (result (fl * ece_state)) :=
  let probs := map_matrix fexp log_probs in
  let N := nrows probs in
  if negb (Nat.eqb (ncols probs) 2) then AssertionError
  else Passed (
    let post2 := column1 probs in
    st <- ecebin_loop post2 target l2norm (EceState (Fin 0) [] [] [] []) (bins M) ;;
    e <- ece_percent st N ;;
    Ok (e, st)).

(** [ECEbin(log_probs, target, M, l2norm=l2norm)] *)
Definition ECEbin (log_probs : matrix) (target : list nat) (M : nat) (l2norm : bool)
  : asserted (result fl) :=
  match ECEbin_values log_probs target M l2norm with
  | AssertionError => AssertionError
  | Passed r => Passed (x <- r ;; Ok (fst x))
  end.

(** ** psrcal.losses: ECEbin_v2, over the calibrator of [psrcal.calibration] *)
Section ECEbin_v2.

Variable calibrate :
  list fl -> list nat -> list fl -> result (list fl * list (list fl)).

Definition ECEbin_v2 (log_probs : matrix) (target : list nat) (M : nat)
  : asserted (result fl) :=
  if negb (Nat.eqb (ncols log_probs) 2) then AssertionError
  else Passed (
    let log_probs2 := column1 log_probs in
    '(log_probs2_cal, params) <- calibrate log_probs2 target log_probs2 ;;
    let probs2_cal := map fexp log_probs2_cal in
    probs2_binned <- index params 0 ;;
    d <- broadcast1 fsub probs2_cal probs2_binned ;;
    Ok (fmul (tmean (map fabs d)) (Fin 100))).

End ECEbin_v2.

(** ** Values, for the statements *)

(** The real number a finite entry holds. *)
Definition real_of (x : fl) : R :=
  match x with
  | Fin r => r
  | _ => 0
  end.

(** The entry of a one-hot row: 1 at the label [x], 0 elsewhere. *)
Definition hot (x k : nat) : fl := if Nat.eqb k x then Fin 1 else Fin 0.

(** The entry 1 or 0 of a tensor of booleans, as an integer. *)
Definition b2n (b : bool) : nat := if b then 1%nat else 0%nat.

(** ** The loop of ECE in closed form *)

(** The average confidence and the fraction of correct samples of the
    samples [ss] of one bin. *)
Definition bin_conf (ss : list sample) : fl := tmean (map fst ss).

Definition bin_acc (ss : list sample) : fl := tmean (map (fun s => ind (correct s)) ss).

(** The state of the loop after the bin [b], for the samples [S]. *)
Definition add_bin (S : list sample) (st : ece_state) (b : R * R) : ece_state :=
  let ss := filter (in_interval b) S in
  if Nat.eqb (length ss) 0 then st
  else EceState (fadd (ece st) (bin_gap ss))
                (ave_accs st ++ [bin_acc ss])
                (ave_confs st ++ [bin_conf ss])
                (counts st ++ [length ss])
                (limits_used st ++ [b]).

(** The samples of the loop: confidence, prediction and label. *)
Definition samples (confs : list fl) (preds target : list nat) : list sample :=
  combine confs (combine preds target).

(** A confidence that some bin can hold: above 0 and at most 1. *)
Definition binned (c : fl) : bool := in_bin 0 1 c.


(** Scores [ECE] accepts: a matrix with full rows and a column at least,
    or a vector. *)
Definition valid_scores (s : scores) : Prop :=
  match s with
  | Scores2 m => wf_matrix m /\ (0 < ncols m)%nat
  | Scores1 _ => True
  end.

(** A value that is at most the real [b]: a real up to [b], or minus
    infinity. *)
Definition at_most (x : fl) (b : R) : Prop :=
  match x with
  | Fin v => v <= b
  | NInf => True
  | PInf | NaN => False
  end.

(** * Properties *)

(** ** Comparisons of reals *)

Lemma Rltb_true a b : a < b -> Rltb a b = true.
Proof. intros; unfold Rltb; destruct (Rlt_dec a b); [reflexivity | contradiction]. Qed.

Lemma Rltb_false a b : b <= a -> Rltb a b = false.
Proof. intros; unfold Rltb; destruct (Rlt_dec a b); [lra | reflexivity]. Qed.

Lemma Rleb_true a b : a <= b -> Rleb a b = true.
Proof. intros; unfold Rleb; destruct (Rle_dec a b); [reflexivity | contradiction]. Qed.

Lemma Rleb_false a b : b < a -> Rleb a b = false.
Proof. intros; unfold Rleb; destruct (Rle_dec a b); [lra | reflexivity]. Qed.

Lemma Reqb_true a b : a = b -> Reqb a b = true.
Proof. intros; unfold Reqb; destruct (Req_dec_T a b); [reflexivity | contradiction]. Qed.

Lemma Reqb_false a b : a <> b -> Reqb a b = false.
Proof. intros; unfold Reqb; destruct (Req_dec_T a b); [contradiction | reflexivity]. Qed.

(** Decides every comparison of two real constants in the goal. *)
Ltac real_cmp :=
  repeat match goal with
  | |- context [Rltb ?a ?b] =>
      first [rewrite (Rltb_true a b) by lra | rewrite (Rltb_false a b) by lra]
  | |- context [Rleb ?a ?b] =>
      first [rewrite (Rleb_true a b) by lra | rewrite (Rleb_false a b) by lra]
  | |- context [Reqb ?a ?b] =>
      first [rewrite (Reqb_true a b) by lra | rewrite (Reqb_false a b) by lra]
  end.

(** Evaluates a closed term, down to sums and products of real constants. *)
Ltac fl_step :=
  cbv -[Rltb Rleb Reqb Rplus Rmult Rminus Rdiv Ropp Rinv Rabs exp ln sqrt IZR R1 R0].
Ltac fl_eval := fl_step; repeat (progress (real_cmp; fl_step)).

(** ** The error monad and lists *)

Lemma mapM_map {A B} (f : A -> result B) (g : A -> B) l :
  (forall x, In x l -> f x = Ok (g x)) -> mapM f l = Ok (map g l).
Proof.
  induction l as [|x l IH]; intros H; [reflexivity|].
  cbn. rewrite (H x) by (left; reflexivity). cbn.
  rewrite IH by (intros; apply H; right; assumption). reflexivity.
Qed.

Lemma index_nth {A} (v : list A) i d : (i < length v)%nat -> index v i = Ok (nth i v d).
Proof.
  intros H. unfold index. rewrite (nth_error_nth' v d H). reflexivity.
Qed.

Lemma gather_map {A} (v : list A) labels d :
  Forall (fun l => (l < length v)%nat) labels ->
  gather v labels = Ok (map (fun l => nth l v d) labels).
Proof.
  intros H. apply mapM_map. intros x Hx. apply index_nth.
  rewrite Forall_forall in H. auto.
Qed.

Lemma zip_with_map {A B C D} (f : B -> C -> D) (g : A -> B) (h : A -> C) l :
  zip_with f (map g l) (map h l) = map (fun x => f (g x) (h x)) l.
Proof. induction l; cbn; congruence. Qed.

Lemma broadcast1_same f a b :
  length a = length b -> broadcast1 f a b = Ok (zip_with f a b).
Proof. intros H. unfold broadcast1. rewrite H, Nat.eqb_refl. reflexivity. Qed.

Lemma list_max_ge l x : In x l -> (x <= list_max l)%nat.
Proof.
  intros H. pose proof (list_max_le l (list_max l)) as [Hl _].
  specialize (Hl (Nat.le_refl _)). rewrite Forall_forall in Hl. auto.
Qed.

(** ** Prior reweighting *)

Lemma bincount_length labels l : In l labels -> (l < length (bincount labels))%nat.
Proof.
  intros H. unfold bincount. destruct labels as [|a t]; [contradiction|].
  rewrite length_map, length_seq. apply list_max_ge in H. lia.
Qed.

Lemma bincount_nth labels l :
  In l labels -> nth l (bincount labels) 0%nat = count_occ Nat.eq_dec labels l.
Proof.
  intros H. unfold bincount. destruct labels as [|a t]; [contradiction|].
  set (ls := a :: t) in *.
  rewrite (nth_indep _ 0%nat (count_occ Nat.eq_dec ls 0%nat)).
  - rewrite map_nth. rewrite seq_nth; [reflexivity|].
    apply list_max_ge in H. lia.
  - rewrite length_map, length_seq. apply list_max_ge in H. lia.
Qed.

Lemma data_priors_length labels : length (data_priors labels) = length (bincount labels).
Proof. unfold data_priors. apply length_map. Qed.

Lemma length_pos_INR {A} (l : list A) x : In x l -> 0 < INR (length l).
Proof. intros H. apply lt_0_INR. destruct l; [contradiction | cbn; lia]. Qed.

Lemma data_priors_nth labels l :
  In l labels ->
  nth l (data_priors labels) NaN =
  Fin (INR (count_occ Nat.eq_dec labels l) / INR (length labels)).
Proof.
  intros H. unfold data_priors.
  rewrite (nth_indep _ NaN (fdiv (of_nat 0) (of_nat (length labels))))
    by (rewrite length_map; apply bincount_length; assumption).
  rewrite (map_nth (fun c => fdiv (of_nat c) (of_nat (length labels)))).
  rewrite bincount_nth by assumption.
  unfold fdiv, of_nat. rewrite Reqb_false; [reflexivity|].
  pose proof (length_pos_INR labels l H). lra.
Qed.

(** The empirical prior of a label that occurs is at least [1/N]. *)
Lemma data_prior_bounds labels l :
  In l labels ->
  1 / INR (length labels) <= INR (count_occ Nat.eq_dec labels l) / INR (length labels) <= 1.
Proof.
  intros H.
  pose proof (length_pos_INR labels l H) as HN.
  assert (Hc : 1 <= INR (count_occ Nat.eq_dec labels l)).
  { change 1 with (INR 1). apply le_INR. apply (count_occ_In Nat.eq_dec) in H. lia. }
  assert (Hb : INR (count_occ Nat.eq_dec labels l) <= INR (length labels)).
  { apply le_INR, count_occ_bound. }
  split.
  - unfold Rdiv. apply Rmult_le_compat_r; [|assumption].
    apply Rlt_le, Rinv_0_lt_compat; assumption.
  - replace 1 with (INR (length labels) / INR (length labels)) by (field; lra).
    unfold Rdiv. apply Rmult_le_compat_r; [|assumption].
    apply Rlt_le, Rinv_0_lt_compat; assumption.
Qed.

Lemma data_prior_pos labels l :
  In l labels -> 0 < INR (count_occ Nat.eq_dec labels l) / INR (length labels).
Proof.
  intros H. pose proof (data_prior_bounds labels l H) as [Hd _].
  pose proof (length_pos_INR labels l H) as HN.
  assert (0 < 1 / INR (length labels)) by (apply Rdiv_lt_0_compat; lra).
  lra.
Qed.

Lemma get_priors_and_weights_some labels priors :
  Forall (fun l => (l < length priors)%nat) labels ->
  _get_priors_and_weights labels (Some priors) =
  Ok (priors, Wvec (map (sample_weight priors labels) labels)).
Proof.
  intros H. unfold _get_priors_and_weights.
  rewrite (gather_map priors labels NaN H). cbn [bind].
  rewrite (gather_map (data_priors labels) labels NaN).
  2:{ rewrite Forall_forall. intros l Hl. rewrite data_priors_length.
      apply bincount_length; assumption. }
  cbn [bind]. rewrite broadcast1_same by (rewrite !length_map; reflexivity).
  cbn [bind]. rewrite zip_with_map. reflexivity.
Qed.

Lemma sample_weight_val priors labels l p :
  In l labels -> nth l priors NaN = Fin p ->
  sample_weight priors labels l =
  Fin (p / (INR (count_occ Nat.eq_dec labels l) / INR (length labels))).
Proof.
  intros Hl Hp. unfold sample_weight. rewrite Hp, data_priors_nth by assumption.
  unfold fdiv. rewrite Reqb_false; [reflexivity|].
  pose proof (data_prior_pos labels l Hl). lra.
Qed.

Lemma fin_nonneg_nth priors l :
  Forall fin_nonneg priors -> (l < length priors)%nat ->
  exists p, nth l priors NaN = Fin p /\ 0 <= p.
Proof.
  intros H Hl. rewrite Forall_forall in H.
  specialize (H (nth l priors NaN) (nth_In _ _ Hl)).
  destruct (nth l priors NaN); cbn in H; try contradiction. eauto.
Qed.

(** C10: with an external prior of non-negative reals that covers the
    labels, [_get_priors_and_weights] returns one weight per sample; the
    weight of sample [i] is the real [p / d] for [p] the external prior and
    [d] the empirical prior of its label, [d] is at least [1/N] (so the
    division is never by zero), and the weight is non-negative and is 0
    exactly when [p] is 0. *)
Theorem get_priors_and_weights_weights (labels : list nat) (priors : list fl) :
  Forall fin_nonneg priors ->
  Forall (fun l => (l < length priors)%nat) labels ->
  exists ws,
    _get_priors_and_weights labels (Some priors) = Ok (priors, Wvec ws) /\
    length ws = length labels /\
    forall i l, nth_error labels i = Some l ->
      exists w p d,
        nth_error ws i = Some (Fin w) /\
        nth_error priors l = Some (Fin p) /\
        nth_error (data_priors labels) l = Some (Fin d) /\
        1 / INR (length labels) <= d /\
        w = p / d /\ 0 <= w /\ (w = 0 <-> p = 0).
Proof.
  intros Hp Hl. exists (map (sample_weight priors labels) labels).
  split; [apply get_priors_and_weights_some; assumption|].
  split; [apply length_map|].
  intros i l Hi.
  assert (Hin : In l labels) by (eapply nth_error_In; eassumption).
  assert (Hlt : (l < length priors)%nat) by (rewrite Forall_forall in Hl; auto).
  destruct (fin_nonneg_nth priors l Hp Hlt) as (p & Hnp & Hp0).
  pose proof (data_prior_bounds labels l Hin) as [Hd _].
  pose proof (data_prior_pos labels l Hin) as Hd0.
  set (d := INR (count_occ Nat.eq_dec labels l) / INR (length labels)) in *.
  exists (p / d), p, d. repeat split.
  - rewrite nth_error_map, Hi. cbn. f_equal.
    apply sample_weight_val; assumption.
  - rewrite (nth_error_nth' priors NaN Hlt). congruence.
  - assert (Hb : (l < length (data_priors labels))%nat)
      by (rewrite data_priors_length; apply bincount_length; assumption).
    rewrite (nth_error_nth' _ NaN Hb). f_equal. apply data_priors_nth; assumption.
  - assumption.
  - apply Rle_mult_inv_pos; assumption.
  - intros H0. apply (f_equal (fun x => x * d)) in H0.
    unfold Rdiv in H0. rewrite Rmult_assoc, Rinv_l, Rmult_1_r, Rmult_0_l in H0 by lra.
    assumption.
  - intros ->. unfold Rdiv. apply Rmult_0_l.
Qed.

(** The theorem on three samples, the first of a class of prior 0. *)
Lemma get_priors_and_weights_weights_witness :
  exists ws w,
    _get_priors_and_weights [0; 1; 1]%nat (Some [Fin 0; Fin 1]) = Ok ([Fin 0; Fin 1], Wvec ws) /\
    length ws = 3%nat /\ nth_error ws 0 = Some (Fin w) /\ 0 <= w.
Proof.
  destruct (get_priors_and_weights_weights [0; 1; 1]%nat [Fin 0; Fin 1]) as (ws & H1 & H2 & H3).
  - repeat constructor; cbn; lra.
  - repeat constructor.
  - destruct (H3 0%nat 0%nat eq_refl) as (w & p & d & Hw & _ & _ & _ & _ & Hw0 & _).
    exists ws, w. repeat split; assumption.
Defined.

(** ** Lists updated at an index *)

Lemma set_nth_length {A} (l : list A) i x : length (set_nth l i x) = length l.
Proof. revert i; induction l; intros [|i]; cbn; auto. Qed.

Lemma set_nth_other {A} (l : list A) i j x d : j <> i -> nth j (set_nth l i x) d = nth j l d.
Proof.
  revert i j; induction l as [|a l IH]; intros [|i] [|j] H; cbn; auto; try congruence.
Qed.

Lemma set_nth_same {A} (l : list A) i x d : (i < length l)%nat -> nth i (set_nth l i x) d = x.
Proof.
  revert i; induction l as [|a l IH]; intros [|i] H; cbn in *; try lia; auto.
  apply IH. lia.
Qed.

Lemma combine_seq_In {A} (l : list A) s j x :
  In (j, x) (combine (seq s (length l)) l) -> nth_error l (j - s) = Some x /\ (s <= j < s + length l)%nat.
Proof.
  revert s; induction l as [|a l IH]; intros s H; cbn in *; [contradiction|].
  destruct H as [H|H].
  - inversion H; subst. rewrite Nat.sub_diag. cbn. split; [reflexivity | lia].
  - apply IH in H. destruct H as [H1 H2].
    replace (j - s)%nat with (S (j - S s)) by lia. cbn. split; [assumption | lia].
Qed.

Lemma map_snd_combine_seq {A B} (g : A -> B) (l : list A) s :
  map g l = map (fun p => g (snd p)) (combine (seq s (length l)) l).
Proof. revert s; induction l; intros s; cbn; [reflexivity|]. f_equal. apply IHl. Qed.

Lemma wf_matrix_row m i r : wf_matrix m -> nth_error (rows m) i = Some r -> length r = ncols m.
Proof.
  intros H Hi. unfold wf_matrix in H. rewrite Forall_forall in H.
  apply H. eapply nth_error_In; eassumption.
Qed.

Lemma wf_matrix_nth m i : wf_matrix m -> (i < nrows m)%nat -> length (nth i (rows m) []) = ncols m.
Proof.
  intros H Hi. eapply wf_matrix_row; [eassumption|].
  apply nth_error_nth'. assumption.
Qed.

Lemma index2_entry m i j :
  wf_matrix m -> (i < nrows m)%nat -> (j < ncols m)%nat -> index2 m i j = Ok (entry m i j).
Proof.
  intros Hwf Hi Hj. unfold index2, entry.
  rewrite (index_nth (rows m) i []) by assumption. cbn [bind].
  apply index_nth. rewrite wf_matrix_nth; assumption.
Qed.

(** ** LogLoss: the weighted losses in closed form *)

Lemma true_class_losses_map lp labels :
  wf_matrix lp -> nrows lp = length labels ->
  Forall (fun l => (l < ncols lp)%nat) labels ->
  true_class_losses lp labels =
  Ok (map (fun p => fneg (entry lp (fst p) (snd p))) (combine (seq 0 (length labels)) labels)).
Proof.
  intros Hwf Hn Hl. unfold true_class_losses. apply mapM_map.
  intros [j l] Hin. apply combine_seq_In in Hin. destruct Hin as [Hnth Hj].
  rewrite index2_entry; [reflexivity | assumption | lia |].
  rewrite Forall_forall in Hl. apply Hl. eapply nth_error_In; eassumption.
Qed.

Lemma LogLoss_wlosses_map lp labels (g : nat -> fl) :
  wf_matrix lp -> nrows lp = length labels ->
  Forall (fun l => (l < ncols lp)%nat) labels ->
  LogLoss_wlosses lp labels (Wvec (map g labels)) =
  Ok (map (logloss_term lp g) (combine (seq 0 (length labels)) labels)).
Proof.
  intros Hwf Hn Hl. unfold LogLoss_wlosses.
  rewrite true_class_losses_map by assumption. cbn [bind weigh].
  rewrite (map_snd_combine_seq g labels 0).
  rewrite broadcast1_same by (rewrite !length_map; reflexivity).
  cbn [bind mask_zero_weight]. rewrite zip_with_map.
  rewrite !length_map, Nat.eqb_refl. rewrite zip_with_map. reflexivity.
Qed.

(** ** Brier: the weighted squared errors in closed form *)

Lemma onehot_encode_map labels K :
  Forall (fun l => (l < K)%nat) labels ->
  onehot_encode labels (Some K) = Ok (Mat K (map (onehot_row K) labels)).
Proof.
  intros H. unfold onehot_encode. cbn [bind].
  rewrite (mapM_map _ (onehot_row K)); [reflexivity|].
  intros x Hx. rewrite Forall_forall in H. specialize (H x Hx).
  apply Nat.ltb_lt in H. rewrite H. reflexivity.
Qed.

Lemma brier_rows_zip K (g : nat -> fl) labels rs :
  zip_with (fun w r => map (fmul w) r) (map g labels)
    (zip_with (zip_with sq_err) (map (onehot_row K) labels) (map (map fexp) rs))
  = zip_with (brier_row K g) labels rs.
Proof.
  revert rs; induction labels as [|l ls IH]; intros [|r rs]; cbn; try reflexivity.
  f_equal. apply IH.
Qed.

Lemma zip_with_length {A B C} (f : A -> B -> C) a b :
  length a = length b -> length (zip_with f a b) = length a.
Proof.
  revert b; induction a as [|x a IH]; intros [|y b] H; cbn in *; try lia. f_equal; auto.
Qed.

Lemma Brier_wlosses_zip lp labels (g : nat -> fl) :
  nrows lp = length labels ->
  Forall (fun l => (l < ncols lp)%nat) labels ->
  Brier_wlosses lp labels (Wvec (map g labels)) =
  Ok (Mat (ncols lp) (zip_with (brier_row (ncols lp) g) labels (rows lp))).
Proof.
  intros Hn Hl. unfold Brier_wlosses. cbn [map_matrix ncols].
  rewrite onehot_encode_map by assumption. cbn [bind].
  unfold nrows in Hn.
  unfold broadcast2, nrows, map_matrix. cbn [ncols rows]. rewrite Nat.eqb_refl. cbn [negb].
  rewrite !length_map, Hn, Nat.eqb_refl. cbn [bind].
  unfold weigh_rows, nrows. cbn [rows ncols].
  rewrite zip_with_length by (rewrite !length_map; congruence).
  rewrite !length_map, Nat.eqb_refl.
  rewrite brier_rows_zip. reflexivity.
Qed.

Lemma zip_with_nth_error {A B C} (f : A -> B -> C) a b i x y :
  nth_error a i = Some x -> nth_error b i = Some y ->
  nth_error (zip_with f a b) i = Some (f x y).
Proof.
  revert b i; induction a as [|x0 a IH]; intros [|y0 b] [|i] Ha Hb; cbn in *;
    try discriminate.
  - congruence.
  - auto.
Qed.

Lemma fexp_log_prob x : log_prob x -> exists e, fexp x = Fin e /\ 0 <= e <= 1.
Proof.
  destruct x as [r| | |]; cbn; intros H; try contradiction.
  - exists (exp r). split; [reflexivity|]. split.
    + apply Rlt_le, exp_pos.
    + rewrite <- exp_0. destruct H as [H| ->]; [|lra].
      apply Rlt_le, exp_increasing. assumption.
  - exists 0. split; [reflexivity | lra].
Qed.

Lemma onehot_row_length K l : length (onehot_row K l) = K.
Proof. unfold onehot_row. rewrite length_map, length_seq. reflexivity. Qed.

Lemma onehot_row_fin K l : Forall (fun x => x = Fin 0 \/ x = Fin 1) (onehot_row K l).
Proof.
  unfold onehot_row. apply Forall_map. apply Forall_forall. intros k _.
  destruct (Nat.eqb k l); auto.
Qed.

(** A row of weight 0 is a row of zeros, whatever log-probabilities the
    sample holds. *)
Lemma brier_row_zero K g l r :
  g l = Fin 0 -> Forall log_prob r -> length r = K ->
  brier_row K g l r = map (fun _ => Fin 0) r.
Proof.
  intros Hg Hr HK. unfold brier_row. rewrite Hg.
  pose proof (onehot_row_fin K l) as Hoh.
  assert (Hlen : length (onehot_row K l) = length r)
    by (rewrite onehot_row_length; congruence).
  clear HK. revert Hr Hoh Hlen. generalize (onehot_row K l) as oh.
  induction r as [|x r IH]; intros oh Hr Hoh Hlen; destruct oh as [|o oh];
    cbn in *; try discriminate.
  - reflexivity.
  - pose proof (Forall_inv Hr) as Hx. pose proof (Forall_inv Hoh) as Ho.
    destruct (fexp_log_prob x Hx) as (e & He & _).
    f_equal.
    + unfold sq_err. rewrite He. destruct Ho as [-> | ->]; cbn; f_equal; ring.
    + apply IH; [eapply Forall_inv_tail; eassumption .. | congruence].
Qed.

(** ** A sample of weight 0 *)

Lemma combine_seq_nth_error {A} (l : list A) s i x :
  nth_error l i = Some x -> nth_error (combine (seq s (length l)) l) i = Some ((s + i)%nat, x).
Proof.
  revert s i; induction l as [|a l IH]; intros s [|i] H; cbn in *; try discriminate.
  - inversion H. rewrite Nat.add_0_r. reflexivity.
  - rewrite (IH (S s) i H). do 2 f_equal. lia.
Qed.

Lemma sample_weight_zero priors labels l :
  In l labels -> nth_error priors l = Some (Fin 0) -> sample_weight priors labels l = Fin 0.
Proof.
  intros Hin Hp. rewrite (sample_weight_val priors labels l 0 Hin).
  - f_equal. unfold Rdiv. ring.
  - apply nth_error_nth. assumption.
Qed.

Lemma feq_zero : feq (Fin 0) (Fin 0) = true.
Proof. cbn. apply Reqb_true. reflexivity. Qed.

Lemma set_row_wf m i r : wf_matrix m -> length r = ncols m -> wf_matrix (set_row m i r).
Proof.
  unfold wf_matrix, set_row. cbn [rows ncols]. intros H Hr.
  revert i H. generalize (rows m) as rs.
  induction rs as [|a t IH]; intros [|i] H; cbn; try assumption.
  - constructor; [assumption | apply (Forall_inv_tail H)].
  - constructor; [apply (Forall_inv H) | apply IH, (Forall_inv_tail H)].
Qed.

Lemma entry_set_row_other m i r j k : j <> i -> entry (set_row m i r) j k = entry m j k.
Proof. intros H. unfold entry, set_row. cbn [rows]. rewrite set_nth_other by assumption. reflexivity. Qed.

(** The weighted losses of [LogLoss] do not depend on the row of a sample
    of weight 0. *)
Lemma LogLoss_wlosses_set_row lp labels (g : nat -> fl) i l row :
  wf_matrix lp -> nrows lp = length labels ->
  Forall (fun l => (l < ncols lp)%nat) labels ->
  nth_error labels i = Some l -> g l = Fin 0 -> length row = ncols lp ->
  LogLoss_wlosses (set_row lp i row) labels (Wvec (map g labels)) =
  LogLoss_wlosses lp labels (Wvec (map g labels)).
Proof.
  intros Hwf Hn Hl Hi Hg Hrow.
  rewrite !LogLoss_wlosses_map; try assumption.
  - f_equal. apply map_ext_in. intros [j l'] Hin.
    apply combine_seq_In in Hin. destruct Hin as [Hnth _].
    rewrite Nat.sub_0_r in Hnth. unfold logloss_term. cbn [fst snd].
    destruct (Nat.eq_dec j i) as [-> | Hne].
    + assert (l' = l) by congruence. subst l'. rewrite Hg, feq_zero. reflexivity.
    + rewrite entry_set_row_other by assumption. reflexivity.
  - apply set_row_wf; assumption.
  - unfold nrows, set_row. cbn [rows]. rewrite set_nth_length. assumption.
Qed.

Lemma map_const_length {A B} (c : B) (a b : list A) :
  length a = length b -> map (fun _ => c) a = map (fun _ => c) b.
Proof.
  revert b; induction a as [|x a IH]; intros [|y b] H; cbn in *; try discriminate;
    [reflexivity|]. f_equal. apply IH. lia.
Qed.

Lemma zip_with_set_nth {A B C} (f : A -> B -> C) a b i x y y' :
  nth_error a i = Some x -> nth_error b i = Some y -> f x y' = f x y ->
  zip_with f a (set_nth b i y') = zip_with f a b.
Proof.
  revert b i; induction a as [|x0 a IH]; intros [|y0 b] [|i] Ha Hb Hf; cbn in *;
    try discriminate; try reflexivity.
  - congruence.
  - f_equal. apply IH; assumption.
Qed.

(** The weighted squared errors of [Brier] do not depend on which
    log-probabilities a sample of weight 0 holds. *)
Lemma Brier_wlosses_set_row lp labels (g : nat -> fl) i l r row :
  wf_matrix lp -> nrows lp = length labels ->
  Forall (fun l => (l < ncols lp)%nat) labels ->
  nth_error labels i = Some l -> g l = Fin 0 ->
  nth_error (rows lp) i = Some r -> Forall log_prob r ->
  length row = ncols lp -> Forall log_prob row ->
  Brier_wlosses (set_row lp i row) labels (Wvec (map g labels)) =
  Brier_wlosses lp labels (Wvec (map g labels)).
Proof.
  intros Hwf Hn Hl Hi Hg Hr Hlp Hrow Hlp'.
  rewrite !Brier_wlosses_zip; try assumption.
  - cbn [set_row ncols rows]. f_equal. f_equal.
    apply (zip_with_set_nth _ _ _ i l r); try assumption.
    pose proof (wf_matrix_row lp i r Hwf Hr) as Hlen.
    rewrite !brier_row_zero by assumption.
    apply map_const_length. congruence.
  - unfold nrows, set_row. cbn [rows]. rewrite set_nth_length. assumption.
Qed.

(** C3: a sample whose true class has external prior 0 has weight 0; its
    term in the mean of [LogLoss] is exactly 0 and the score is the same
    whatever its row holds; when its row holds log-probabilities, minus
    infinity included, its terms in the mean of [Brier] are exactly 0 and the
    score is the same for any other such row. *)
Theorem zero_weight_sample_contributes_zero
    (log_probs : matrix) (labels : list nat) (priors : list fl) (norm : pyarg) (i l : nat) :
  wf_matrix log_probs ->
  nrows log_probs = length labels ->
  Forall (fun l => (l < ncols log_probs)%nat) labels ->
  Forall (fun l => (l < length priors)%nat) labels ->
  nth_error labels i = Some l ->
  nth_error priors l = Some (Fin 0) ->
  exists ws,
    _get_priors_and_weights labels (Some priors) = Ok (priors, Wvec ws) /\
    nth_error ws i = Some (Fin 0) /\
    (exists wl, LogLoss_wlosses log_probs labels (Wvec ws) = Ok wl /\
                nth_error wl i = Some (Fin 0)) /\
    (forall row, length row = ncols log_probs ->
       LogLoss (set_row log_probs i row) labels norm (Some priors) =
       LogLoss log_probs labels norm (Some priors)) /\
    (forall r, nth_error (rows log_probs) i = Some r -> Forall log_prob r ->
       (exists wm, Brier_wlosses log_probs labels (Wvec ws) = Ok wm /\
                   nth_error (rows wm) i = Some (map (fun _ => Fin 0) r)) /\
       (forall row, length row = ncols log_probs -> Forall log_prob row ->
          Brier (set_row log_probs i row) labels norm (Some priors) =
          Brier log_probs labels norm (Some priors))).
Proof.
  intros Hwf Hn Hl Hlp Hi Hp.
  assert (Hin : In l labels) by (eapply nth_error_In; eassumption).
  pose proof (sample_weight_zero priors labels l Hin Hp) as Hw.
  pose proof (get_priors_and_weights_some labels priors Hlp) as Hget.
  set (g := sample_weight priors labels) in *.
  assert (Hnr : forall row, nrows (set_row log_probs i row) = nrows log_probs).
  { intros row. unfold nrows, set_row. cbn [rows]. apply set_nth_length. }
  exists (map g labels). split; [assumption|].
  split; [rewrite nth_error_map, Hi; cbn; congruence|].
  split; [|split].
  - eexists. split; [apply LogLoss_wlosses_map; assumption|].
    rewrite nth_error_map, (combine_seq_nth_error labels 0 i l Hi). cbn.
    unfold logloss_term. cbn [fst snd]. rewrite Hw, feq_zero. reflexivity.
  - intros row Hrow. unfold LogLoss. cbn [LogLoss_rec].
    rewrite Hget. cbn [bind]. rewrite Hnr.
    rewrite (LogLoss_wlosses_set_row log_probs labels g i l row); auto.
  - intros r Hr Hlogp. split.
    + eexists. split; [apply Brier_wlosses_zip; assumption|]. cbn [rows].
      rewrite (zip_with_nth_error _ _ _ i l r Hi Hr). f_equal.
      apply brier_row_zero; try assumption.
      eapply wf_matrix_row; eassumption.
    + intros row Hrow Hlogp'. unfold Brier. cbn [Brier_rec].
      rewrite Hget. cbn [bind]. rewrite Hnr.
      rewrite (Brier_wlosses_set_row log_probs labels g i l r row); auto.
Qed.

Lemma zero_weight_sample_contributes_zero_witness :
  exists ws,
    _get_priors_and_weights [0; 0; 1]%nat (Some [Fin 1; Fin 0])
      = Ok ([Fin 1; Fin 0], Wvec ws) /\
    nth_error ws 2 = Some (Fin 0) /\
    exists wl, LogLoss_wlosses lp_zero_weight [0; 0; 1]%nat (Wvec ws) = Ok wl /\
               nth_error wl 2 = Some (Fin 0).
Proof.
  destruct (zero_weight_sample_contributes_zero lp_zero_weight [0; 0; 1]%nat
              [Fin 1; Fin 0] (PyBool false) 2 1)
    as (ws & Hget & Hw & Hwl & _).
  - repeat constructor.
  - reflexivity.
  - repeat constructor.
  - repeat constructor.
  - reflexivity.
  - reflexivity.
  - exists ws. repeat split; assumption.
Defined.

(** The sample of weight 0 and of loss plus infinity leaves the score
    finite. *)
Example LogLoss_zero_weight_infinite_loss :
  LogLoss lp_zero_weight [0; 0; 1]%nat (PyBool false) (Some [Fin 1; Fin 0]) = Ok (Fin 0).
Proof.
  unfold LogLoss, lp_zero_weight. fl_eval. f_equal. f_equal. lra.
Qed.

(** ** The calibration-loss comparators *)

(** C2: [CalLossLogLoss] and [CalLossBrier] pass the external prior as the
    third positional argument, which is [norm]: the prior weighs no sample,
    and the truth test of a prior of two or more classes raises. *)
Theorem CalLoss_external_prior_raises
    (log_probs cal_log_probs : matrix) (targets : list nat) (p1 p2 : fl) (priors : list fl) :
  CalLossLogLoss log_probs cal_log_probs targets (Some (p1 :: p2 :: priors)) = Err RuntimeError /\
  CalLossBrier log_probs cal_log_probs targets (Some (p1 :: p2 :: priors)) = Err RuntimeError.
Proof.
  split; reflexivity.
Qed.

(** Without an external prior the comparators compare the scores that are
    neither weighted nor normalized. *)
Lemma CalLossLogLoss_no_prior log_probs cal_log_probs targets :
  CalLossLogLoss log_probs cal_log_probs targets None =
  (raw <- LogLoss log_probs targets (PyBool false) None ;;
   cal <- LogLoss cal_log_probs targets (PyBool false) None ;;
   Ok (fmul (fdiv (fsub raw cal) raw) (Fin 100))).
Proof. reflexivity. Qed.

(** C8, amended: when the raw log-loss is a nonzero real, comparing a
    matrix of log-probabilities to itself gives exactly 0. *)
Theorem CalLossLogLoss_self (log_probs : matrix) (labels : list nat) (raw : R) :
  LogLoss log_probs labels PyNone None = Ok (Fin raw) ->
  raw <> 0 ->
  CalLossLogLoss log_probs log_probs labels None = Ok (Fin 0).
Proof.
  intros Hraw Hnz. unfold CalLossLogLoss. cbn [as_arg]. rewrite Hraw. cbn [bind].
  unfold fsub, fdiv, fmul, fneg, fadd. rewrite (Reqb_false raw 0 Hnz).
  f_equal. f_equal. unfold Rdiv. ring.
Qed.

Lemma LogLoss_one_sample : LogLoss lp_one_sample [0%nat] PyNone None = Ok (Fin 1).
Proof.
  unfold LogLoss, lp_one_sample. fl_eval. f_equal. f_equal. lra.
Qed.

Lemma CalLossLogLoss_self_witness :
  CalLossLogLoss lp_one_sample lp_one_sample [0%nat] None = Ok (Fin 0).
Proof.
  apply (CalLossLogLoss_self lp_one_sample [0%nat] 1).
  - exact LogLoss_one_sample.
  - lra.
Defined.

(** C8 as stated fails when the raw log-loss is infinite: a sample whose
    true class has probability 0 makes it plus infinity, which is not zero,
    and the comparison is NaN. *)
Lemma CalLossLogLoss_self_infinite :
  LogLoss lp_certain [1%nat] PyNone None = Ok PInf /\
  CalLossLogLoss lp_certain lp_certain [1%nat] None = Ok NaN.
Proof.
  split; unfold CalLossLogLoss, LogLoss, lp_certain; fl_eval; reflexivity.
Qed.

(** ** CostFunction and the caller's cost matrix *)

(** The array passed for [C] holds, after the call, the matrix with the
    minimum of each column subtracted. *)
Lemma CostFunction_run_array log_probs labels C C' norm :
  normalize_cost C = Ok C' ->
  snd (CostFunction_run log_probs labels (Some C) norm) = Some C'.
Proof. intros H. unfold CostFunction_run. rewrite H. reflexivity. Qed.

(** C9: the call changes the cost matrix of the caller: the rows
    [[1, 2]; [3, 4]] are [[0, 0]; [2, 2]] when it returns. *)
Theorem CostFunction_overwrites_cost_matrix :
  rows cost_1234 = [[Fin 1; Fin 2]; [Fin 3; Fin 4]] /\
  exists C',
    snd (CostFunction_run lp_two_certain [0; 1]%nat (Some cost_1234) false) = Some C' /\
    entry C' 0 0 = Fin 0 /\ entry C' 0 1 = Fin 0 /\
    entry C' 1 0 = Fin 2 /\ entry C' 1 1 = Fin 2.
Proof.
  split; [reflexivity|].
  eexists. split.
  - apply CostFunction_run_array. unfold normalize_cost, cost_1234. fl_eval. reflexivity.
  - unfold entry. cbn. repeat split; f_equal; lra.
Qed.

(** ** ECE on an example, bin by bin *)

Lemma count_occ_all_false (ix : list bool) :
  Forall (fun b => b = false) ix -> count_occ bool_dec ix true = 0%nat.
Proof.
  induction 1 as [|b ix Hb _ IH]; [reflexivity|]. subst b. cbn. assumption.
Qed.

(** A bin that holds no confidence leaves the state of the loop as it is. *)
Lemma ece_step_empty confs preds target st low high :
  Forall (fun c => in_bin low high c = false) confs ->
  ece_step confs preds target st (low, high) = Ok st.
Proof.
  intros H. unfold ece_step.
  rewrite count_occ_all_false; [reflexivity|].
  apply Forall_map. assumption.
Qed.

(** Runs one iteration of the loop of [ECE] on constants. *)
Ltac ece_bin :=
  match goal with
  | |- context [ece_step ?c ?p ?t ?st (?lo, ?hi)] =>
      first
        [ rewrite (ece_step_empty c p t st lo hi)
            by (repeat constructor; cbv [in_bin flt fle andb]; real_cmp; reflexivity)
        | let v := fresh "v" in
          let H := fresh "H" in
          evar (v : result ece_state);
          assert (H : ece_step c p t st (lo, hi) = v) by (subst v; fl_eval; reflexivity);
          subst v; rewrite H; clear H ];
      cbn [bind]
  end.

Lemma confs_preds_two_bins :
  confs_preds (Scores2 lp_two_bins) = Ok ([Fin (13/20); Fin (3/4)], [0%nat; 0%nat]).
Proof.
  unfold lp_two_bins. cbv [confs_preds max_rows map_matrix rows ncols map fexp].
  rewrite !exp_ln by lra. fl_eval. reflexivity.
Qed.

(** Decides the sign under every absolute value of a real constant. *)
Ltac abs_const :=
  repeat match goal with
  | |- context [Rabs ?x] =>
      first [rewrite (Rabs_pos_eq x) by lra | rewrite (Rabs_left x) by lra]
  end.

Lemma ECE_two_bins_5 : ECE (Scores2 lp_two_bins) [0; 1]%nat 5 = Ok (Fin 20).
Proof.
  unfold ECE, ECE_values. rewrite confs_preds_two_bins. cbn [bind].
  cbv [bins linspace01 seq map removelast tl combine]. cbn [ece_loop].
  repeat ece_bin. fl_eval. f_equal. f_equal. abs_const. lra.
Qed.

Lemma ECE_two_bins_15 : ECE (Scores2 lp_two_bins) [0; 1]%nat 15 = Ok (Fin 55).
Proof.
  unfold ECE, ECE_values. rewrite confs_preds_two_bins. cbn [bind].
  cbv [bins linspace01 seq map removelast tl combine]. cbn [ece_loop].
  repeat ece_bin. fl_eval. f_equal. f_equal. abs_const. lra.
Qed.

(** [ECE_v2] makes no use of its parameter [M]. *)
Lemma ECE_v2_any_M calibrate log_probs target M M' :
  ECE_v2 calibrate log_probs target M = ECE_v2 calibrate log_probs target M'.
Proof. reflexivity. Qed.

(** C1: on two samples of confidences 0.65 and 0.75, the first correct and
    the second wrong, [ECE] is 20 for 5 bins and 55 for 15 bins, and
    [ECE_v2], whatever the calibrator, returns for 5 bins what it returns
    for 15 bins: it differs from [ECE] by 17.5 or more for one of the two
    bin counts. *)
Theorem ECE_v2_disagrees_with_ECE :
  ECE (Scores2 lp_two_bins) [0; 1]%nat 5 = Ok (Fin 20) /\
  ECE (Scores2 lp_two_bins) [0; 1]%nat 15 = Ok (Fin 55) /\
  forall calibrate v,
    ECE_v2 calibrate lp_two_bins [0; 1]%nat 5 = Ok (Fin v) ->
    ECE_v2 calibrate lp_two_bins [0; 1]%nat 15 = Ok (Fin v) /\
    (35 / 2 <= Rabs (20 - v) \/ 35 / 2 <= Rabs (55 - v)).
Proof.
  split; [exact ECE_two_bins_5|]. split; [exact ECE_two_bins_15|].
  intros calibrate v Hv. split.
  - rewrite <- Hv. apply ECE_v2_any_M.
  - destruct (Rle_dec v (75 / 2)) as [Hle | Hgt].
    + right. rewrite Rabs_pos_eq by lra. lra.
    + left. rewrite Rabs_left by lra. lra.
Qed.

(** ** shift with an all-zero offset *)

Lemma tsum_repeat c n : tsum (repeat (Fin c) n) = Fin (INR n * c).
Proof.
  induction n as [|n IH].
  - cbn. f_equal. ring.
  - cbn [repeat tsum fold_right]. fold (tsum (repeat (Fin c) n)). rewrite IH.
    cbn [fadd]. f_equal. rewrite S_INR. ring.
Qed.

Lemma map_repeat {A B} (f : A -> B) x n : map f (repeat x n) = repeat (f x) n.
Proof. induction n; cbn; congruence. Qed.

(** The scaling vector of the all-zero offset is 1 for every class. *)
Lemma shift_So_zeros K : shift_So (repeat (Fin 0) K) = repeat (Fin 1) K.
Proof.
  unfold shift_So. rewrite repeat_length, !map_repeat. cbn [fexp fmul].
  rewrite tsum_repeat. unfold of_nat, fsqrt.
  destruct K as [|K]; [reflexivity|].
  assert (HK : 0 < INR (S K)) by (apply lt_0_INR; lia).
  rewrite exp_0. rewrite !Rleb_true by nra.
  cbn [fmul fdiv]. replace (INR (S K) * (1 * 1)) with (INR (S K)) by ring.
  assert (Hs : 0 < sqrt (INR (S K))) by (apply sqrt_lt_R0; assumption).
  rewrite Reqb_false by lra. f_equal. f_equal. field. lra.
Qed.

Lemma fadd_0_r x : fadd x (Fin 0) = x.
Proof. destruct x; cbn; try reflexivity. f_equal. ring. Qed.

Lemma fmul_1_r x : fmul x (Fin 1) = x.
Proof.
  destruct x; cbn; try reflexivity.
  - f_equal. ring.
  - unfold scale_inf. rewrite Rltb_true by lra. reflexivity.
  - unfold scale_inf. rewrite Rltb_true by lra. reflexivity.
Qed.

Lemma zip_with_repeat_r {A B} (f : A -> B -> A) (y : B) (l : list A) n :
  (forall x, f x y = x) -> length l = n -> zip_with f l (repeat y n) = l.
Proof.
  intros Hf. revert n; induction l as [|x l IH]; intros [|n] H; cbn in *;
    try discriminate; [reflexivity|].
  rewrite Hf. f_equal. apply IH. lia.
Qed.

(** The product with the column of ones sums the components. *)
Lemma dot_ones v K : length v = K -> dot v (repeat (Fin 1) K) = tsum v.
Proof.
  intros H. unfold dot. rewrite zip_with_repeat_r; auto using fmul_1_r.
Qed.

Lemma add_offset_zeros m K :
  wf_matrix m -> ncols m = K -> add_offset m (repeat (Fin 0) K) = Ok m.
Proof.
  intros Hwf HK. unfold add_offset. rewrite repeat_length, HK, Nat.eqb_refl.
  destruct m as [k rs]. cbn [ncols rows] in *. subst k. f_equal. f_equal.
  unfold wf_matrix in Hwf. cbn [ncols rows] in Hwf.
  induction rs as [|r rs IH]; [reflexivity|].
  cbn [map]. rewrite zip_with_repeat_r; auto using fadd_0_r.
  - f_equal. apply IH. apply (Forall_inv_tail Hwf).
  - apply (Forall_inv Hwf).
Qed.

(** *** The logarithm of the softmax of normalized log-probabilities *)

Lemma max_from_fin best bi i l :
  Forall log_prob l -> log_prob best ->
  (finite best \/ Exists finite l) -> finite (fst (max_from best bi i l)).
Proof.
  revert best bi i; induction l as [|x l IH]; intros best bi i Hl Hb Hf.
  - cbn. destruct Hf as [Hf|Hf]; [assumption | inversion Hf].
  - pose proof (Forall_inv Hl) as Hx. pose proof (Forall_inv_tail Hl) as Hl'.
    cbn [max_from].
    destruct (negb (is_nan best) && (is_nan x || flt best x)) eqn:E.
    + apply IH; try assumption.
      destruct x; cbn in Hx; try contradiction.
      * left. exact I.
      * destruct best; cbn in E; try discriminate; contradiction.
    + apply IH; try assumption.
      destruct Hf as [Hf|Hf]; [left; assumption|].
      inversion Hf as [? ? Hfx|? ? Hfl]; subst; [|right; assumption].
      left. destruct x; cbn in Hfx; try contradiction.
      destruct best; cbn in Hb, E |- *; try contradiction; try discriminate; exact I.
Qed.

Lemma fexp_prob x : log_prob x -> fexp x = Fin (prob x).
Proof. destruct x; cbn; intros H; try contradiction; reflexivity. Qed.

Lemma fexp_shifted x mx : log_prob x -> fexp (fsub x (Fin mx)) = Fin (prob x * exp (- mx)).
Proof.
  destruct x; cbn; intros H; try contradiction; f_equal.
  - apply exp_plus.
  - ring.
Qed.

Lemma tsum_Fin (f : fl -> R) l : tsum (map (fun x => Fin (f x)) l) = Fin (fold_right Rplus 0 (map f l)).
Proof.
  induction l as [|x l IH]; [reflexivity|].
  cbn [map tsum fold_right]. fold (tsum (map (fun x => Fin (f x)) l)). rewrite IH.
  reflexivity.
Qed.

Lemma sum_scaled (f : fl -> R) c l :
  fold_right Rplus 0 (map (fun x => f x * c) l) = fold_right Rplus 0 (map f l) * c.
Proof. induction l as [|x l IH]; cbn; [ring|]. rewrite IH. ring. Qed.

Lemma flog_prob x : log_prob x -> flog (Fin (prob x)) = x.
Proof.
  destruct x; cbn; intros H; try contradiction.
  - rewrite Rltb_true by apply exp_pos. f_equal. apply ln_exp.
  - rewrite Rltb_false by lra. rewrite Reqb_true by reflexivity. reflexivity.
Qed.

Lemma normalized_row_finite r : normalized_row r -> Exists finite r.
Proof.
  intros [Hl Hs]. induction r as [|x r IH].
  - cbn in Hs. lra.
  - destruct x; try (left; exact I); cbn in Hs; right; apply IH;
      try (apply (Forall_inv_tail Hl)); lra.
Qed.

Lemma log_softmax_normalized r : normalized_row r -> map flog (softmax_row r) = r.
Proof.
  intros Hn. pose proof (normalized_row_finite r Hn) as Hfin.
  destruct Hn as [Hl Hs]. unfold softmax_row.
  destruct r as [|x l]; [reflexivity|].
  assert (Hm : finite (fst (max_from x 0 1 l))).
  { apply max_from_fin.
    - apply (Forall_inv_tail Hl).
    - apply (Forall_inv Hl).
    - inversion Hfin; subst; [left | right]; assumption. }
  destruct (fst (max_from x 0 1 l)) as [mx| | |]; cbn in Hm; try contradiction.
  set (r := x :: l) in *.
  assert (He : map (fun x => fexp (fsub x (Fin mx))) r
               = map (fun x => Fin (prob x * exp (- mx))) r).
  { apply map_ext_in. intros y Hy. apply fexp_shifted.
    rewrite Forall_forall in Hl. auto. }
  rewrite He, tsum_Fin, sum_scaled, Hs, !map_map.
  transitivity (map (fun y : fl => y) r); [|apply map_id].
  apply map_ext_in. intros y Hy.
  assert (Hy' : log_prob y) by (rewrite Forall_forall in Hl; auto).
  cbn [fdiv]. pose proof (exp_pos (- mx)) as Hpos.
  rewrite Reqb_false by lra.
  replace (prob y * exp (- mx) / (1 * exp (- mx))) with (prob y) by (field; lra).
  apply flog_prob. assumption.
Qed.

Lemma log_softmax_matrix m :
  normalized m -> map_matrix flog (Mat (ncols m) (map softmax_row (rows m))) = m.
Proof.
  intros [_ Hn]. destruct m as [k rs]. unfold map_matrix. cbn [ncols rows] in *.
  f_equal. rewrite map_map.
  transitivity (map (fun r : list fl => r) rs); [|apply map_id].
  apply map_ext_in. intros r Hr. apply log_softmax_normalized.
  rewrite Forall_forall in Hn. auto.
Qed.

(** C7, amended: for normalized log-probabilities and the all-zero offset
    the scaling vector is 1 for every class, and the shifted loss is the
    wrapped loss, applied to the same log-probabilities and to the labels
    [check_label] returns, multiplied by the column of ones: the sum of the
    per-class components of a loss vector, and an error for a loss that is
    a 0-dimensional tensor. *)
Theorem shift_zero_offset (Label : Type) (check_label : list nat -> nat -> result Label)
    (loss : matrix -> Label -> result tensor) (log_probs : matrix) (labels : list nat) :
  normalized log_probs ->
  shift_So (repeat (Fin 0) (ncols log_probs)) = repeat (Fin 1) (ncols log_probs) /\
  shift Label check_label loss (repeat (Fin 0) (ncols log_probs)) log_probs labels =
    (label <- check_label labels (ncols log_probs) ;;
     l <- loss log_probs label ;;
     matmul_col l (repeat (Fin 1) (ncols log_probs))) /\
  (forall v, length v = ncols log_probs ->
     matmul_col (T1 v) (repeat (Fin 1) (ncols log_probs)) = Ok (T1 [tsum v])) /\
  (forall x, matmul_col (T0 x) (repeat (Fin 1) (ncols log_probs)) = Err RuntimeError).
Proof.
  intros Hn. split; [apply shift_So_zeros|]. split; [|split].
  - unfold shift. rewrite shift_So_zeros.
    destruct (check_label labels (ncols log_probs)) as [label|e]; [|reflexivity].
    cbn [bind]. rewrite add_offset_zeros by (destruct Hn; auto). cbn [bind].
    rewrite log_softmax_matrix by assumption. reflexivity.
  - intros v Hv. cbn [matmul_col]. rewrite repeat_length, Hv, Nat.eqb_refl.
    rewrite dot_ones by assumption. reflexivity.
  - reflexivity.
Qed.

Lemma lp_certain_normalized : normalized lp_certain.
Proof.
  split; [repeat constructor|].
  constructor; [|constructor]. split.
  - constructor; [cbn; lra | constructor; [exact I | constructor]].
  - cbn. rewrite exp_0. lra.
Qed.

Lemma shift_zero_offset_witness :
  shift (list nat) (fun l _ => Ok l) loss_12 [Fin 0; Fin 0] lp_certain [0%nat]
  = Ok (T1 [tsum [Fin 1; Fin 2]]).
Proof.
  destruct (shift_zero_offset (list nat) (fun l _ => Ok l) loss_12 lp_certain [0%nat]
              lp_certain_normalized) as (_ & Hs & Hv & _).
  cbn [lp_certain ncols repeat] in Hs, Hv. rewrite Hs.
  cbn [bind loss_12]. apply Hv. reflexivity.
Defined.

Lemma ln_half_neg : ln (1 / (1 + 1)) < 0.
Proof.
  rewrite <- ln_1. apply ln_increasing; lra.
Qed.

(** The wrapped [LogLoss] on two samples, each certain of its own class. *)
Lemma LogLoss_loss_two_certain :
  LogLoss_loss lp_two_certain [0; 1]%nat = Ok (T0 (Fin 0)).
Proof.
  pose proof ln_half_neg as Hln.
  unfold LogLoss_loss, LogLoss, lp_two_certain. fl_eval.
  f_equal. f_equal. f_equal. unfold Rdiv. ring.
Qed.

(** C7 as stated fails: the shifted [LogLoss] raises, whatever
    [check_label] returns, where [LogLoss] itself returns 0; and the shifted
    loss of per-class vector [[1, 2]] is the one-element tensor [[3]]. *)
Lemma shift_zero_offset_not_identity :
  LogLoss_loss lp_two_certain [0; 1]%nat = Ok (T0 (Fin 0)) /\
  (forall check_label, exists e,
     shift (list nat) check_label LogLoss_loss [Fin 0; Fin 0] lp_two_certain [0; 1]%nat
     = Err e) /\
  loss_12 lp_certain [0%nat] = Ok (T1 [Fin 1; Fin 2]) /\
  shift (list nat) (fun l _ => Ok l) loss_12 [Fin 0; Fin 0] lp_certain [0%nat]
  = Ok (T1 [Fin 3]).
Proof.
  split; [exact LogLoss_loss_two_certain|]. split; [|split; [reflexivity|]].
  - intros check_label. unfold shift.
    destruct (check_label [0; 1]%nat (ncols lp_two_certain)) as [label|e];
      [|exists e; reflexivity].
    cbn [bind]. destruct (add_offset lp_two_certain [Fin 0; Fin 0]) as [m|e];
      [|exists e; reflexivity].
    cbn [bind]. unfold LogLoss_loss.
    match goal with |- context [LogLoss ?a ?b ?c ?d] => destruct (LogLoss a b c d) as [r|e] end;
      [exists RuntimeError | exists e]; reflexivity.
  - unfold shift. change [Fin 0; Fin 0] with (repeat (Fin 0) 2).
    rewrite shift_So_zeros. unfold loss_12, lp_certain. fl_eval.
    f_equal. f_equal. f_equal. f_equal. lra.
Qed.

(** ** ECE: the loop and the sum over the non-empty bins *)

Lemma mapM_length {A B} (f : A -> result B) l ys : mapM f l = Ok ys -> length ys = length l.
Proof.
  revert ys; induction l as [|x l IH]; intros ys H; cbn in H.
  - inversion H. reflexivity.
  - destruct (f x) as [y|e]; cbn in H; [|discriminate].
    destruct (mapM f l) as [ys'|e]; cbn in H; [|discriminate].
    inversion H. cbn. f_equal. apply IH. reflexivity.
Qed.

Lemma mapM_ok {A B} (f : A -> result B) l :
  (forall x, In x l -> exists y, f x = Ok y) -> exists ys, mapM f l = Ok ys.
Proof.
  induction l as [|x l IH]; intros H; [eexists; reflexivity|].
  destruct (H x (or_introl eq_refl)) as [y Hy].
  destruct IH as [ys Hys]; [intros; apply H; right; assumption|].
  exists (y :: ys). cbn. rewrite Hy. cbn. rewrite Hys. reflexivity.
Qed.

(** [torch.max] along the rows of a matrix with at least one column
    returns a confidence and a prediction per sample. *)
Lemma max_rows_ok m :
  wf_matrix m -> (0 < ncols m)%nat ->
  exists confs preds,
    max_rows m = Ok (confs, preds) /\ length confs = nrows m /\ length preds = nrows m.
Proof.
  intros Hwf HK. unfold max_rows.
  destruct (mapM_ok torch_max (rows m)) as [ps Hps].
  - intros r Hr. unfold wf_matrix in Hwf. rewrite Forall_forall in Hwf.
    specialize (Hwf r Hr). destruct r; [cbn in Hwf; lia|]. eexists; reflexivity.
  - rewrite Hps. cbn [bind]. exists (map fst ps), (map snd ps).
    rewrite !length_map. apply mapM_length in Hps. auto.
Qed.

(** The bins of the loop are the [M] equal-width bins. *)
Lemma combine_limits (f : nat -> R) s n :
  combine (removelast (map f (seq s (S n)))) (tl (map f (seq s (S n))))
  = map (fun i => (f i, f (S i))) (seq s n).
Proof.
  revert s; induction n as [|n IH]; intros s; [reflexivity|].
  specialize (IH (S s)).
  change (seq s (S (S n))) with (s :: seq (S s) (S n)).
  cbn [map tl]. cbn [map tl seq] in IH.
  cbn [seq map removelast combine]. cbn [seq map] in IH.
  f_equal. exact IH.
Qed.

Lemma bins_equal_width M : bins M = map (equal_width_bin M) (seq 0 M).
Proof.
  unfold bins, linspace01.
  apply (combine_limits (fun i => INR i / INR M) 0 M).
Qed.

Lemma count_occ_map_filter {A} (p : A -> bool) l :
  count_occ bool_dec (map p l) true = length (filter p l).
Proof.
  induction l as [|x l IH]; [reflexivity|]. cbn.
  destruct (p x); cbn; [f_equal|]; exact IH.
Qed.

Lemma select_map_filter {A B} (p : A -> bool) (h : A -> B) l :
  select (map p l) (map h l) = map h (filter p l).
Proof.
  induction l as [|x l IH]; [reflexivity|]. cbn.
  destruct (p x); cbn; [f_equal|]; exact IH.
Qed.

Lemma masked_map_filter {A B} (p : A -> bool) (h : A -> B) l :
  masked (map p l) (map h l) = Ok (map h (filter p l)).
Proof.
  unfold masked. rewrite !length_map, Nat.eqb_refl, select_map_filter. reflexivity.
Qed.

Lemma tsum_indicator {A} (p : A -> bool) l :
  tsum (map (fun s => if p s then Fin 1 else Fin 0) l) = of_nat (length (filter p l)).
Proof.
  induction l as [|x l IH]; [reflexivity|].
  cbn [map tsum fold_right filter].
  fold (tsum (map (fun s => if p s then Fin 1 else Fin 0) l)). rewrite IH.
  unfold of_nat. destruct (p x); cbn [fadd length]; f_equal.
  - rewrite S_INR. ring.
  - ring.
Qed.



Lemma tsum_cons x l : tsum (x :: l) = fadd x (tsum l).
Proof. reflexivity. Qed.




Lemma combine_map_fst {A B} (a : list A) (b : list B) :
  length a = length b -> map fst (combine a b) = a.
Proof.
  revert b; induction a as [|x a IH]; intros [|y b] H; cbn in *; try discriminate;
    [reflexivity|]. f_equal. apply IH. lia.
Qed.

Lemma combine_map_snd {A B} (a : list A) (b : list B) :
  length a = length b -> map snd (combine a b) = b.
Proof.
  revert b; induction a as [|x a IH]; intros [|y b] H; cbn in *; try discriminate;
    [reflexivity|]. f_equal. apply IH. lia.
Qed.




(** ** CostFunction with the default cost matrix *)

Lemma default_cost_zero_one K : default_cost K = zero_one_cost K.
Proof.
  unfold default_cost, zero_one_cost. f_equal.
  apply map_ext. intros i. apply map_ext. intros j.
  destruct (Nat.eqb i j); cbn; f_equal; ring.
Qed.

Lemma fmin_ind a b : fmin (ind a) (ind b) = ind (a && b).
Proof.
  destruct a, b; cbn; unfold fmin; cbn; real_cmp; reflexivity.
Qed.

(** The running minimum of the columns, over the rows of indices [idx]. *)
Lemma fold_col_min (B : nat -> bool) (idx l : list nat) :
  fold_left (zip_with fmin)
    (map (fun i => map (fun j => ind (negb (Nat.eqb i j))) l) idx)
    (map (fun j => ind (B j)) l)
  = map (fun j => ind (B j && forallb (fun i => negb (Nat.eqb i j)) idx)) l.
Proof.
  revert B; induction idx as [|i idx IH]; intros B.
  - cbn. apply map_ext. intros j. rewrite andb_true_r. reflexivity.
  - cbn [map fold_left forallb]. rewrite zip_with_map.
    rewrite (map_ext _ (fun j => ind (B j && negb (Nat.eqb i j))))
      by (intros j; apply fmin_ind).
    rewrite IH. apply map_ext. intros j. rewrite andb_assoc. reflexivity.
Qed.

Lemma forallb_seq_diag s n j :
  (s <= j < s + n)%nat -> forallb (fun i => negb (Nat.eqb i j)) (seq s n) = false.
Proof.
  revert s; induction n as [|n IH]; intros s H; [lia|].
  cbn. destruct (Nat.eqb s j) eqn:E; [reflexivity|].
  apply Nat.eqb_neq in E. cbn. apply IH. lia.
Qed.

Lemma col_min_rows k l s idx :
  col_min (Mat k (map (fun i => map (fun j => ind (negb (Nat.eqb i j))) l) (s :: idx)))
  = Ok (map (fun j => ind (forallb (fun i => negb (Nat.eqb i j)) (s :: idx))) l).
Proof.
  unfold col_min. cbn [rows map]. f_equal.
  apply (fold_col_min (fun j => negb (Nat.eqb s j))).
Qed.

Lemma col_min_zero_one K :
  (0 < K)%nat -> col_min (zero_one_cost K) = Ok (map (fun _ => Fin 0) (seq 0 K)).
Proof.
  intros HK. destruct K as [|K]; [lia|].
  change (zero_one_cost (S K))
    with (Mat (S K) (map (fun i => map (fun j => ind (negb (Nat.eqb i j))) (seq 0 (S K)))
                         (0%nat :: seq 1 K))).
  rewrite col_min_rows. f_equal. apply map_ext_in. intros j Hj. apply in_seq in Hj.
  change (0%nat :: seq 1 K) with (seq 0 (S K)).
  rewrite forallb_seq_diag by lia. reflexivity.
Qed.

Lemma fsub_0_r x : fsub x (Fin 0) = x.
Proof. destruct x; cbn; try reflexivity. f_equal. ring. Qed.

(** The default cost matrix is its own normalization. *)
Lemma normalize_default_cost K :
  (0 < K)%nat -> normalize_cost (default_cost K) = Ok (zero_one_cost K).
Proof.
  intros HK. rewrite default_cost_zero_one. unfold normalize_cost.
  rewrite col_min_zero_one by assumption. cbn [bind]. unfold zero_one_cost at 2.
  cbn [ncols rows zero_one_cost]. unfold zero_one_cost. f_equal. f_equal.
  rewrite map_map. apply map_ext. intros i.
  rewrite zip_with_map. apply map_ext. intros j. apply fsub_0_r.
Qed.

(** *** The decision of a row of probabilities *)












Lemma fdiv_1_r x : fdiv x (Fin 1) = x.
Proof.
  destruct x; cbn; try reflexivity.
  - rewrite Reqb_false by lra. f_equal. field.
  - rewrite Rltb_false by lra. reflexivity.
  - rewrite Rltb_false by lra. reflexivity.
Qed.

Lemma broadcast_index_same a b :
  length a = length b -> broadcast_index a b = Ok (combine a b).
Proof. intros H. unfold broadcast_index. rewrite H, Nat.eqb_refl. reflexivity. Qed.







Lemma lp_two_certain_log_prob : log_prob_matrix lp_two_certain.
Proof.
  split; [repeat constructor|].
  constructor; [|constructor; [|constructor]].
  - constructor; [cbn; lra | constructor; [exact I | constructor]].
  - constructor; [exact I | constructor; [cbn; lra | constructor]].
Qed.


(** ** Non-negative scores *)

Lemma tsum_nonneg l : Forall nonneg l -> nonneg (tsum l).
Proof.
  induction 1 as [|x l Hx _ IH]; [cbn; lra|].
  rewrite tsum_cons. destruct x, (tsum l); cbn in *; try contradiction; try exact I. lra.
Qed.

Lemma tsum_fin_nonneg l : Forall fin_nonneg l -> fin_nonneg (tsum l).
Proof.
  induction 1 as [|x l Hx _ IH]; [cbn; lra|].
  rewrite tsum_cons. destruct x, (tsum l); cbn in *; try contradiction. lra.
Qed.

Lemma tmean_nonneg l : l <> [] -> Forall nonneg l -> nonneg (tmean l).
Proof.
  intros Hne H. apply tsum_nonneg in H. unfold tmean, of_nat.
  assert (HN : 0 < INR (length l)) by (apply lt_0_INR; destruct l; [congruence | cbn; lia]).
  destruct (tsum l); cbn in *; try contradiction.
  - rewrite Reqb_false by lra. cbn. apply Rle_mult_inv_pos; assumption.
  - rewrite Rltb_false by lra. exact I.
Qed.

Lemma tmean_fin_nonneg l : l <> [] -> Forall fin_nonneg l -> fin_nonneg (tmean l).
Proof.
  intros Hne H. apply tsum_fin_nonneg in H. unfold tmean, of_nat.
  assert (HN : 0 < INR (length l)) by (apply lt_0_INR; destruct l; [congruence | cbn; lia]).
  destruct (tsum l); cbn in *; try contradiction.
  rewrite Reqb_false by lra. cbn. apply Rle_mult_inv_pos; assumption.
Qed.

Lemma fin_nonneg_nonneg x : fin_nonneg x -> nonneg x.
Proof. destruct x; cbn; auto. Qed.

Lemma fin_nonneg_inv x : fin_nonneg x -> exists r, x = Fin r /\ 0 <= r.
Proof. destruct x; cbn; intros H; try contradiction. eauto. Qed.

(** A non-negative score over a positive real is non-negative. *)
Lemma fdiv_nonneg s n : nonneg s -> 0 < n -> nonneg (fdiv s (Fin n)).
Proof.
  intros Hs Hn. destruct s; cbn in *; try contradiction.
  - rewrite Reqb_false by lra. cbn. apply Rle_mult_inv_pos; assumption.
  - rewrite Rltb_false by lra. exact I.
Qed.

(** A nonzero real over itself is 1. *)
Lemma fdiv_self n : n <> 0 -> fdiv (Fin n) (Fin n) = Fin 1.
Proof. intros H. cbn. rewrite Reqb_false by assumption. f_equal. field. assumption. Qed.

(** *** The prior and the weights *)

Lemma get_priors_and_weights_eq labels priors :
  valid_priors priors labels ->
  _get_priors_and_weights labels priors
  = Ok (the_prior priors labels, the_weights priors labels).
Proof.
  destruct priors as [p|]; cbn [valid_priors the_prior the_weights].
  - intros [_ H]. apply get_priors_and_weights_some. assumption.
  - reflexivity.
Qed.

Lemma data_priors_probability labels : Forall probability (data_priors labels).
Proof.
  unfold data_priors. apply Forall_map. apply Forall_forall. intros c Hc.
  destruct labels as [|a t]; [contradiction|].
  unfold bincount in Hc. apply in_map_iff in Hc. destruct Hc as (k & <- & _).
  set (ls := a :: t).
  assert (HN : 0 < INR (length ls)) by (apply lt_0_INR; cbn; lia).
  unfold fdiv, of_nat. rewrite Reqb_false by lra. cbn [probability]. split.
  - apply Rle_mult_inv_pos; [apply pos_INR | assumption].
  - replace 1 with (INR (length ls) / INR (length ls)) by (field; lra).
    unfold Rdiv. apply Rmult_le_compat_r; [apply Rlt_le, Rinv_0_lt_compat; assumption|].
    apply le_INR, count_occ_bound.
Qed.

Lemma the_prior_valid priors labels :
  valid_priors priors labels ->
  Forall probability (the_prior priors labels) /\
  Forall (fun l => (l < length (the_prior priors labels))%nat) labels.
Proof.
  destruct priors as [p|]; cbn [valid_priors the_prior]; [auto|].
  intros _. split; [apply data_priors_probability|].
  apply Forall_forall. intros l Hl. rewrite data_priors_length.
  apply bincount_length. assumption.
Qed.

Lemma probability_nth P l :
  Forall probability P -> (l < length P)%nat -> exists p, nth l P NaN = Fin p /\ 0 <= p <= 1.
Proof.
  intros H Hl. rewrite Forall_forall in H.
  specialize (H (nth l P NaN) (nth_In _ _ Hl)).
  destruct (nth l P NaN); cbn in H; try contradiction. eauto.
Qed.

(** The weight of a label that occurs is a non-negative real, and is 0
    only when the prior of the label is 0. *)
Lemma weight_of_nonneg priors labels l :
  valid_priors priors labels -> In l labels ->
  exists w, weight_of priors labels l = Fin w /\ 0 <= w /\
            (w = 0 -> nth l (the_prior priors labels) NaN = Fin 0).
Proof.
  destruct priors as [P|]; cbn [valid_priors weight_of the_prior].
  - intros [HP Hl] Hin.
    assert (Hlt : (l < length P)%nat) by (rewrite Forall_forall in Hl; auto).
    destruct (probability_nth P l HP Hlt) as (p & Hp & Hp0 & _).
    pose proof (data_prior_pos labels l Hin) as Hd.
    rewrite (sample_weight_val P labels l p Hin Hp).
    eexists. split; [reflexivity|]. split.
    + apply Rle_mult_inv_pos; assumption.
    + intros H0. rewrite Hp. f_equal.
      apply (f_equal (fun x => x * (INR (count_occ Nat.eq_dec labels l) / INR (length labels)))) in H0.
      unfold Rdiv at 1 in H0. rewrite Rmult_assoc, Rinv_l, Rmult_1_r, Rmult_0_l in H0 by lra.
      exact H0.
  - intros _ Hin. exists 1. split; [reflexivity|]. split; [lra|]. intros; lra.
Qed.

(** *** LogLoss *)

Lemma feq_one_zero : feq (Fin 1) (Fin 0) = false.
Proof. cbn. apply Reqb_false. lra. Qed.

Lemma LogLoss_wlosses_weights lp labels priors :
  wf_matrix lp -> nrows lp = length labels ->
  Forall (fun l => (l < ncols lp)%nat) labels ->
  LogLoss_wlosses lp labels (the_weights priors labels)
  = Ok (map (logloss_term lp (weight_of priors labels))
            (combine (seq 0 (length labels)) labels)).
Proof.
  intros Hwf Hn Hl. destruct priors as [P|]; cbn [the_weights weight_of].
  - apply LogLoss_wlosses_map; assumption.
  - unfold LogLoss_wlosses. rewrite true_class_losses_map by assumption.
    cbn [bind weigh mask_zero_weight]. rewrite feq_one_zero, map_map. f_equal.
    apply map_ext. intros p. unfold logloss_term. rewrite feq_one_zero. reflexivity.
Qed.

(** The call with [norm=False] makes no further call: any depth of at
    least 1 gives its result. *)
Lemma LogLoss_rec_false d lp labels priors :
  LogLoss_rec (S d) lp labels (PyBool false) priors
  = LogLoss_rec 1 lp labels (PyBool false) priors.
Proof.
  cbn [LogLoss_rec].
  destruct (_get_priors_and_weights labels priors) as [[pri w]|e]; reflexivity.
Qed.

(** Two levels of calls are all [LogLoss] ever makes: a greater depth gives
    the same result. *)
Lemma LogLoss_rec_depth d lp labels norm priors :
  LogLoss_rec (S (S d)) lp labels norm priors = LogLoss lp labels norm priors.
Proof.
  unfold LogLoss. cbn [LogLoss_rec].
  destruct (_get_priors_and_weights labels priors) as [[pri w]|e]; [|reflexivity].
  cbn [bind]. destruct (truthy norm) as [[|]|e]; reflexivity.
Qed.

Lemma LogLoss_rec_unnorm d lp labels priors :
  wf_matrix lp -> nrows lp = length labels ->
  Forall (fun l => (l < ncols lp)%nat) labels ->
  valid_priors priors labels ->
  LogLoss_rec (S d) lp labels (PyBool false) priors
  = Ok (tmean (logloss_terms lp labels priors)).
Proof.
  intros Hwf Hn Hl Hv. cbn [LogLoss_rec].
  rewrite get_priors_and_weights_eq by assumption. cbn [bind truthy].
  rewrite LogLoss_wlosses_weights by assumption. cbn [bind].
  rewrite fdiv_1_r. reflexivity.
Qed.

Lemma LogLoss_norm lp labels priors :
  wf_matrix lp -> nrows lp = length labels ->
  Forall (fun l => (l < ncols lp)%nat) labels ->
  valid_priors priors labels ->
  LogLoss lp labels (PyBool true) priors
  = (norm_factor <- LogLoss (prior_log_probs (the_prior priors labels) (nrows lp)) labels
                      (PyBool false) (Some (the_prior priors labels)) ;;
     Ok (fdiv (tmean (logloss_terms lp labels priors)) norm_factor)).
Proof.
  intros Hwf Hn Hl Hv. unfold LogLoss at 1. cbn [LogLoss_rec].
  rewrite get_priors_and_weights_eq by assumption. cbn [bind truthy].
  rewrite LogLoss_wlosses_weights by assumption.
  unfold LogLoss. rewrite (LogLoss_rec_false 1). reflexivity.
Qed.

Lemma log_prob_entry lp j l :
  log_prob_matrix lp -> (j < nrows lp)%nat -> (l < ncols lp)%nat -> log_prob (entry lp j l).
Proof.
  intros [Hwf Hlp] Hj Hl. unfold entry.
  rewrite Forall_forall in Hlp.
  pose proof (Hlp _ (nth_In (rows lp) [] Hj)) as Hr. rewrite Forall_forall in Hr.
  apply Hr. apply nth_In. rewrite wf_matrix_nth; assumption.
Qed.

Lemma combine_seq_labels (labels : list nat) j l :
  In (j, l) (combine (seq 0 (length labels)) labels) ->
  (j < length labels)%nat /\ In l labels.
Proof.
  intros H. apply combine_seq_In in H. destruct H as [Hn Hj].
  split; [lia|]. eapply nth_error_In; eassumption.
Qed.

Lemma logloss_term_nonneg lp g j l w :
  log_prob (entry lp j l) -> g l = Fin w -> 0 <= w -> nonneg (logloss_term lp g (j, l)).
Proof.
  intros Hlp Hg Hw. unfold logloss_term. cbn [fst snd]. rewrite Hg. cbn [feq].
  unfold Reqb. destruct (Req_dec_T w 0) as [E|E]; [cbn; lra|].
  destruct (entry lp j l); cbn in Hlp |- *; try contradiction.
  - nra.
  - unfold scale_inf. rewrite Rltb_true by lra. exact I.
Qed.

Lemma logloss_terms_nonneg lp labels priors :
  log_prob_matrix lp -> nrows lp = length labels ->
  Forall (fun l => (l < ncols lp)%nat) labels ->
  valid_priors priors labels ->
  Forall nonneg (logloss_terms lp labels priors).
Proof.
  intros Hlp Hn Hl Hv. unfold logloss_terms. apply Forall_map, Forall_forall.
  intros [j l] Hin. apply combine_seq_labels in Hin. destruct Hin as [Hj Hin].
  destruct (weight_of_nonneg priors labels l Hv Hin) as (w & Hw & Hw0 & _).
  apply (logloss_term_nonneg lp _ j l w); try assumption.
  apply log_prob_entry; [assumption | lia |]. rewrite Forall_forall in Hl. auto.
Qed.

Lemma logloss_terms_length lp labels priors :
  length (logloss_terms lp labels priors) = length labels.
Proof.
  unfold logloss_terms. rewrite length_map, length_combine, length_seq. lia.
Qed.

Lemma nonempty_of_length {A} (l : list A) : (0 < length l)%nat -> l <> [].
Proof. destruct l; cbn; [lia | discriminate]. Qed.

(** *** The classifier that outputs the prior *)

Lemma flog_probability x : probability x -> log_prob (flog x).
Proof.
  destruct x as [p| | |]; cbn; intros H; try contradiction.
  unfold Rltb, Reqb. destruct (Rlt_dec 0 p) as [Hp|Hp].
  - cbn. rewrite <- ln_1. destruct (Req_dec_T p 1) as [->|Hne]; [lra|].
    apply Rlt_le, ln_increasing; lra.
  - destruct (Req_dec_T p 0); [exact I | lra].
Qed.

Lemma prior_log_probs_wf P n : wf_matrix (prior_log_probs P n).
Proof.
  unfold wf_matrix, prior_log_probs, map_matrix, expand. cbn [rows ncols].
  apply Forall_map, Forall_forall. intros r Hr. apply repeat_spec in Hr. subst r.
  apply length_map.
Qed.

Lemma prior_log_probs_nrows P n : nrows (prior_log_probs P n) = n.
Proof.
  unfold nrows, prior_log_probs, map_matrix, expand. cbn [rows].
  rewrite length_map. apply repeat_length.
Qed.

Lemma prior_log_probs_ncols P n : ncols (prior_log_probs P n) = length P.
Proof. reflexivity. Qed.

Lemma prior_log_probs_log_prob P n :
  Forall probability P -> log_prob_matrix (prior_log_probs P n).
Proof.
  intros HP. split; [apply prior_log_probs_wf|].
  unfold prior_log_probs, map_matrix, expand. cbn [rows].
  apply Forall_map, Forall_forall. intros r Hr. apply repeat_spec in Hr. subst r.
  apply Forall_map. eapply Forall_impl; [|exact HP]. apply flog_probability.
Qed.

Lemma prior_log_probs_entry P n j l :
  (j < n)%nat -> entry (prior_log_probs P n) j l = flog (nth l P NaN).
Proof.
  intros Hj. unfold entry, prior_log_probs, map_matrix, expand. cbn [rows].
  rewrite (nth_indep _ [] (map flog P)) by (rewrite length_map, repeat_length; assumption).
  rewrite (map_nth (map flog)), nth_repeat_lt by assumption.
  change NaN with (flog NaN) at 1. apply map_nth.
Qed.

(** The terms of the log-loss of the prior are real numbers: a class of
    prior 0 has weight 0, and its infinite loss is masked. *)
Lemma prior_logloss_term_fin priors labels n j l :
  valid_priors priors labels -> In l labels -> (j < n)%nat ->
  fin_nonneg (logloss_term (prior_log_probs (the_prior priors labels) n)
                (sample_weight (the_prior priors labels) labels) (j, l)).
Proof.
  intros Hv Hin Hj.
  destruct (the_prior_valid priors labels Hv) as [HP HlP].
  set (P := the_prior priors labels) in *.
  assert (Hlt : (l < length P)%nat) by (rewrite Forall_forall in HlP; auto).
  destruct (probability_nth P l HP Hlt) as (p & Hp & Hp0 & Hp1).
  pose proof (data_prior_pos labels l Hin) as Hd.
  unfold logloss_term. cbn [fst snd].
  rewrite (sample_weight_val P labels l p Hin Hp).
  rewrite prior_log_probs_entry by assumption. rewrite Hp. cbn [feq].
  set (d := INR (count_occ Nat.eq_dec labels l) / INR (length labels)) in *.
  unfold Reqb. destruct (Req_dec_T (p / d) 0) as [E|E]; [cbn; lra|].
  assert (Hpos : 0 < p).
  { destruct Hp0 as [Hp0|Hp0]; [assumption|]. exfalso. apply E. subst p.
    unfold Rdiv. ring. }
  cbn [flog]. rewrite Rltb_true by assumption. cbn.
  assert (Hln : ln p <= 0).
  { rewrite <- ln_1. destruct (Req_dec_T p 1) as [->|Hne]; [lra|].
    apply Rlt_le, ln_increasing; lra. }
  assert (Hw : 0 <= p / d) by (apply Rle_mult_inv_pos; lra).
  nra.
Qed.

(** With the empirical prior as the external prior every weight is 1. *)
Lemma sample_weight_data_priors labels l :
  In l labels -> sample_weight (data_priors labels) labels l = Fin 1.
Proof.
  intros Hin. pose proof (data_prior_pos labels l Hin) as Hd.
  rewrite (sample_weight_val _ labels l _ Hin (data_priors_nth labels l Hin)).
  set (d := INR (count_occ Nat.eq_dec labels l) / INR (length labels)) in *.
  f_equal. unfold Rdiv. apply Rinv_r. lra.
Qed.

Lemma weight_of_the_prior priors labels l :
  In l labels ->
  sample_weight (the_prior priors labels) labels l = weight_of priors labels l.
Proof.
  intros Hin. destruct priors as [P|]; cbn [the_prior weight_of]; [reflexivity|].
  apply sample_weight_data_priors. assumption.
Qed.

Lemma logloss_terms_the_prior lp labels priors :
  logloss_terms lp labels (Some (the_prior priors labels)) = logloss_terms lp labels priors.
Proof.
  unfold logloss_terms. apply map_ext_in. intros [j l] Hin.
  apply combine_seq_labels in Hin. destruct Hin as [_ Hin].
  unfold logloss_term. cbn [fst snd weight_of].
  fold (weight_of (Some (the_prior priors labels)) labels).
  cbn [weight_of]. rewrite weight_of_the_prior by assumption. reflexivity.
Qed.

Lemma valid_the_prior priors labels :
  valid_priors priors labels -> valid_priors (Some (the_prior priors labels)) labels.
Proof. intros H. apply the_prior_valid. assumption. Qed.

(** The scores of [LogLoss]: the unnormalized score is non-negative, the
    normalizing factor is a non-negative real, and where that real is not 0
    the normalized score is non-negative, and is 1 for the classifier that
    outputs the prior. *)
Lemma LogLoss_scores lp labels priors :
  log_prob_matrix lp -> (0 < nrows lp)%nat -> nrows lp = length labels ->
  Forall (fun l => (l < ncols lp)%nat) labels ->
  valid_priors priors labels ->
  exists s n,
    LogLoss lp labels (PyBool false) priors = Ok s /\ nonneg s /\
    LogLoss (prior_log_probs (the_prior priors labels) (nrows lp)) labels (PyBool false)
      (Some (the_prior priors labels)) = Ok (Fin n) /\ 0 <= n /\
    LogLoss lp labels (PyBool true) priors = Ok (fdiv s (Fin n)) /\
    (n <> 0 ->
       nonneg (fdiv s (Fin n)) /\
       LogLoss (prior_log_probs (the_prior priors labels) (nrows lp)) labels (PyBool true)
         priors = Ok (Fin 1)).
Proof.
  intros Hlp HN Hn Hl Hv. pose proof Hlp as [Hwf _].
  set (P := the_prior priors labels).
  set (lpP := prior_log_probs P (nrows lp)).
  pose proof (valid_the_prior priors labels Hv) as HvP. fold P in HvP.
  destruct (the_prior_valid priors labels Hv) as [HP HlP]. fold P in HP, HlP.
  assert (HwfP : wf_matrix lpP) by apply prior_log_probs_wf.
  assert (HnP : nrows lpP = length labels)
    by (unfold lpP; rewrite prior_log_probs_nrows; assumption).
  assert (HlpP : Forall (fun l => (l < ncols lpP)%nat) labels) by exact HlP.
  assert (Hne : forall q, logloss_terms q labels priors <> []).
  { intros q. apply nonempty_of_length. rewrite logloss_terms_length. lia. }
  (* the normalizing factor *)
  assert (Hnf : fin_nonneg (tmean (logloss_terms lpP labels priors))).
  { apply tmean_fin_nonneg; [apply Hne|].
    rewrite <- logloss_terms_the_prior. fold P.
    unfold logloss_terms. apply Forall_map, Forall_forall. intros [j l] Hin.
    apply combine_seq_labels in Hin. destruct Hin as [Hj Hin].
    cbn [weight_of]. unfold lpP, P. apply prior_logloss_term_fin; try assumption. lia. }
  destruct (fin_nonneg_inv _ Hnf) as (n & En & Hn0).
  assert (HnfP : LogLoss lpP labels (PyBool false) (Some P) = Ok (Fin n)).
  { unfold LogLoss. rewrite LogLoss_rec_unnorm by assumption.
    unfold P. rewrite logloss_terms_the_prior. fold P. congruence. }
  exists (tmean (logloss_terms lp labels priors)), n.
  split; [unfold LogLoss; apply LogLoss_rec_unnorm; assumption|].
  assert (Hs : nonneg (tmean (logloss_terms lp labels priors))).
  { apply tmean_nonneg; [apply Hne|]. apply logloss_terms_nonneg; assumption. }
  split; [assumption|]. split; [assumption|]. split; [assumption|]. split.
  - rewrite LogLoss_norm by assumption. fold P lpP. rewrite HnfP. reflexivity.
  - intros Hnz. split; [apply fdiv_nonneg; [assumption | lra]|].
    rewrite LogLoss_norm by assumption. fold P.
    unfold lpP at 1. rewrite prior_log_probs_nrows. fold lpP.
    rewrite HnfP. cbn [bind]. rewrite En. f_equal. apply fdiv_self. assumption.
Qed.

(** *** Brier *)

Lemma brier_rows_scalar K labels rs :
  map (map (fmul (Fin 1)))
    (zip_with (zip_with sq_err) (map (onehot_row K) labels) (map (map fexp) rs))
  = zip_with (brier_row K (fun _ => Fin 1)) labels rs.
Proof.
  revert rs; induction labels as [|l ls IH]; intros [|r rs]; cbn; try reflexivity.
  f_equal. apply IH.
Qed.

Lemma Brier_wlosses_weights lp labels priors :
  nrows lp = length labels ->
  Forall (fun l => (l < ncols lp)%nat) labels ->
  Brier_wlosses lp labels (the_weights priors labels)
  = Ok (Mat (ncols lp) (brier_rows lp labels priors)).
Proof.
  intros Hn Hl. destruct priors as [P|]; cbn [the_weights]; unfold brier_rows; cbn [weight_of].
  - apply Brier_wlosses_zip; assumption.
  - unfold Brier_wlosses. cbn [map_matrix ncols].
    rewrite onehot_encode_map by assumption. cbn [bind].
    unfold nrows in Hn.
    unfold broadcast2, nrows, map_matrix. cbn [ncols rows]. rewrite Nat.eqb_refl. cbn [negb].
    rewrite !length_map, Hn, Nat.eqb_refl. cbn [bind weigh_rows].
    unfold map_matrix. cbn [ncols rows]. rewrite brier_rows_scalar. reflexivity.
Qed.

Lemma Brier_rec_false d lp labels priors :
  Brier_rec (S d) lp labels (PyBool false) priors
  = Brier_rec 1 lp labels (PyBool false) priors.
Proof.
  cbn [Brier_rec].
  destruct (_get_priors_and_weights labels priors) as [[pri w]|e]; reflexivity.
Qed.

Lemma Brier_rec_depth d lp labels norm priors :
  Brier_rec (S (S d)) lp labels norm priors = Brier lp labels norm priors.
Proof.
  unfold Brier. cbn [Brier_rec].
  destruct (_get_priors_and_weights labels priors) as [[pri w]|e]; [|reflexivity].
  cbn [bind]. destruct (truthy norm) as [[|]|e]; reflexivity.
Qed.

Lemma Brier_rec_unnorm d lp labels priors :
  nrows lp = length labels ->
  Forall (fun l => (l < ncols lp)%nat) labels ->
  valid_priors priors labels ->
  Brier_rec (S d) lp labels (PyBool false) priors
  = Ok (tmean (concat (brier_rows lp labels priors))).
Proof.
  intros Hn Hl Hv. cbn [Brier_rec].
  rewrite get_priors_and_weights_eq by assumption. cbn [bind truthy].
  rewrite Brier_wlosses_weights by assumption. cbn [bind].
  rewrite fdiv_1_r. reflexivity.
Qed.

Lemma Brier_norm lp labels priors :
  nrows lp = length labels ->
  Forall (fun l => (l < ncols lp)%nat) labels ->
  valid_priors priors labels ->
  Brier lp labels (PyBool true) priors
  = (norm_factor <- Brier (prior_log_probs (the_prior priors labels) (nrows lp)) labels
                      (PyBool false) (Some (the_prior priors labels)) ;;
     Ok (fdiv (tmean (concat (brier_rows lp labels priors))) norm_factor)).
Proof.
  intros Hn Hl Hv. unfold Brier at 1. cbn [Brier_rec].
  rewrite get_priors_and_weights_eq by assumption. cbn [bind truthy].
  rewrite Brier_wlosses_weights by assumption.
  unfold Brier. rewrite (Brier_rec_false 1). reflexivity.
Qed.

Lemma zip_with_Forall {A B C} (P : C -> Prop) (f : A -> B -> C) a b :
  (forall x y, In x a -> In y b -> P (f x y)) -> Forall P (zip_with f a b).
Proof.
  revert b; induction a as [|x a IH]; intros [|y b] H; cbn; try constructor.
  - apply H; left; reflexivity.
  - apply IH. intros x' y' Hx Hy. apply H; right; assumption.
Qed.

Lemma zip_with_ext_in {A B C} (f g : A -> B -> C) a b :
  (forall x y, In x a -> f x y = g x y) -> zip_with f a b = zip_with g a b.
Proof.
  revert b; induction a as [|x a IH]; intros [|y b] H; cbn; try reflexivity.
  f_equal; [apply H; left; reflexivity|].
  apply IH. intros x' y' Hx. apply H. right. assumption.
Qed.

Lemma sq_err_fin_nonneg o x :
  (o = Fin 0 \/ o = Fin 1) -> log_prob x -> fin_nonneg (sq_err o (fexp x)).
Proof.
  intros Ho Hx. rewrite (fexp_prob x Hx). unfold sq_err.
  generalize (prob x). intros e.
  destruct Ho as [-> | ->]; cbn [fsub fneg fadd fmul fin_nonneg]; apply Rle_0_sqr.
Qed.

Lemma fmul_fin_nonneg w x : 0 <= w -> fin_nonneg x -> fin_nonneg (fmul (Fin w) x).
Proof. intros Hw Hx. destruct x; cbn in *; try contradiction. nra. Qed.

Lemma brier_row_fin_nonneg K g l r w :
  g l = Fin w -> 0 <= w -> Forall log_prob r -> Forall fin_nonneg (brier_row K g l r).
Proof.
  intros Hg Hw Hr. unfold brier_row. rewrite Hg. apply Forall_map.
  eapply Forall_impl; [intros x Hx; apply fmul_fin_nonneg; [exact Hw | exact Hx]|].
  apply zip_with_Forall. intros o e Ho He.
  apply in_map_iff in He. destruct He as (x & <- & Hx).
  apply sq_err_fin_nonneg.
  - pose proof (onehot_row_fin K l) as H. rewrite Forall_forall in H. auto.
  - rewrite Forall_forall in Hr. auto.
Qed.

Lemma concat_Forall {A} (P : A -> Prop) ls : Forall (Forall P) ls -> Forall P (concat ls).
Proof.
  induction 1 as [|l ls Hl _ IH]; [constructor|]. cbn. apply Forall_app. auto.
Qed.

Lemma brier_rows_fin_nonneg lp labels priors :
  log_prob_matrix lp -> valid_priors priors labels ->
  Forall fin_nonneg (concat (brier_rows lp labels priors)).
Proof.
  intros [_ Hlp] Hv. apply concat_Forall. unfold brier_rows.
  apply zip_with_Forall. intros l r Hl Hr.
  destruct (weight_of_nonneg priors labels l Hv Hl) as (w & Hw & Hw0 & _).
  apply (brier_row_fin_nonneg _ _ l r w); try assumption.
  rewrite Forall_forall in Hlp. auto.
Qed.

Lemma brier_row_length K g l r : length r = K -> length (brier_row K g l r) = K.
Proof.
  intros H. unfold brier_row. rewrite length_map, zip_with_length.
  - apply onehot_row_length.
  - rewrite onehot_row_length, length_map. congruence.
Qed.

Lemma brier_rows_nonempty lp labels priors :
  wf_matrix lp -> (0 < ncols lp)%nat -> (0 < nrows lp)%nat -> nrows lp = length labels ->
  concat (brier_rows lp labels priors) <> [].
Proof.
  intros Hwf HK HN Hn. unfold brier_rows, nrows, wf_matrix in *.
  destruct labels as [|l ls]; [cbn in Hn; lia|].
  destruct (rows lp) as [|r rs]; [cbn in HN; lia|].
  cbn [zip_with concat]. pose proof (Forall_inv Hwf) as Hr.
  pose proof (brier_row_length (ncols lp) (weight_of priors (l :: ls)) l r Hr) as Hlen.
  destruct (brier_row (ncols lp) (weight_of priors (l :: ls)) l r); [cbn in Hlen; lia|].
  discriminate.
Qed.

Lemma brier_rows_the_prior lp labels priors :
  brier_rows lp labels (Some (the_prior priors labels)) = brier_rows lp labels priors.
Proof.
  unfold brier_rows. apply zip_with_ext_in. intros l r Hl.
  unfold brier_row. cbn [weight_of]. rewrite weight_of_the_prior by assumption. reflexivity.
Qed.

(** The scores of [Brier]: the unnormalized score and the normalizing
    factor are non-negative reals, and where the factor is not 0 the
    normalized score is non-negative, and is 1 for the classifier that
    outputs the prior. *)
Lemma Brier_scores lp labels priors :
  log_prob_matrix lp -> (0 < ncols lp)%nat -> (0 < nrows lp)%nat ->
  nrows lp = length labels ->
  Forall (fun l => (l < ncols lp)%nat) labels ->
  valid_priors priors labels ->
  exists s n,
    Brier lp labels (PyBool false) priors = Ok (Fin s) /\ 0 <= s /\
    Brier (prior_log_probs (the_prior priors labels) (nrows lp)) labels (PyBool false)
      (Some (the_prior priors labels)) = Ok (Fin n) /\ 0 <= n /\
    Brier lp labels (PyBool true) priors = Ok (fdiv (Fin s) (Fin n)) /\
    (n <> 0 ->
       nonneg (fdiv (Fin s) (Fin n)) /\
       Brier (prior_log_probs (the_prior priors labels) (nrows lp)) labels (PyBool true)
         priors = Ok (Fin 1)).
Proof.
  intros Hlp HK HN Hn Hl Hv. pose proof Hlp as [Hwf _].
  set (P := the_prior priors labels).
  set (lpP := prior_log_probs P (nrows lp)).
  pose proof (valid_the_prior priors labels Hv) as HvP. fold P in HvP.
  destruct (the_prior_valid priors labels Hv) as [HP HlP]. fold P in HP, HlP.
  assert (HlpP : log_prob_matrix lpP) by (apply prior_log_probs_log_prob; assumption).
  assert (HnP : nrows lpP = length labels)
    by (unfold lpP; rewrite prior_log_probs_nrows; assumption).
  assert (HKP : (0 < ncols lpP)%nat).
  { unfold lpP. rewrite prior_log_probs_ncols.
    destruct labels as [|l ls]; [cbn in Hn; lia|]. pose proof (Forall_inv HlP) as H0. cbn beta in H0. lia. }
  assert (HlP' : Forall (fun l => (l < ncols lpP)%nat) labels) by exact HlP.
  assert (Hs : fin_nonneg (tmean (concat (brier_rows lp labels priors)))).
  { apply tmean_fin_nonneg; [apply brier_rows_nonempty | apply brier_rows_fin_nonneg];
      assumption. }
  assert (Hnf : fin_nonneg (tmean (concat (brier_rows lpP labels priors)))).
  { apply tmean_fin_nonneg; [apply brier_rows_nonempty | apply brier_rows_fin_nonneg];
      try assumption; try lia. destruct HlpP; assumption. }
  destruct (fin_nonneg_inv _ Hs) as (s & Es & Hs0).
  destruct (fin_nonneg_inv _ Hnf) as (n & En & Hn0).
  assert (HnfP : Brier lpP labels (PyBool false) (Some P) = Ok (Fin n)).
  { unfold Brier. rewrite Brier_rec_unnorm by assumption.
    unfold P. rewrite brier_rows_the_prior. fold P. congruence. }
  exists s, n.
  split; [unfold Brier; rewrite Brier_rec_unnorm by assumption; congruence|].
  split; [assumption|]. split; [assumption|]. split; [assumption|]. split.
  - rewrite Brier_norm by assumption. fold P lpP. rewrite HnfP. cbn [bind]. congruence.
  - intros Hnz. split; [apply fdiv_nonneg; [exact Hs0 | lra]|].
    rewrite Brier_norm by assumption. fold P.
    unfold lpP at 1. rewrite prior_log_probs_nrows. fold lpP.
    rewrite HnfP. cbn [bind]. rewrite En. f_equal. apply fdiv_self. assumption.
Qed.

(** *** CostFunction *)

Lemma fmin_le_fin a b :
  finite a -> finite b -> le_fin (fmin a b) a /\ le_fin (fmin a b) b.
Proof.
  destruct a as [x| | |], b as [y| | |]; cbn; try contradiction. intros _ _.
  unfold fmin. cbn. unfold Rltb. destruct (Rlt_dec y x); cbn; lra.
Qed.

Lemma le_fin_trans x y z : le_fin x y -> le_fin y z -> le_fin x z.
Proof. destruct x, y, z; cbn; try contradiction. lra. Qed.

Lemma le_fin_finite_l x y : le_fin x y -> finite x.
Proof. destruct x, y; cbn; try contradiction; auto. Qed.

Lemma Forall2_le_fin_trans a b c :
  Forall2 le_fin a b -> Forall2 le_fin b c -> Forall2 le_fin a c.
Proof.
  intros H; revert c; induction H as [|x y a b Hxy _ IH]; intros c Hc;
    inversion Hc; subst; constructor.
  - eapply le_fin_trans; eassumption.
  - apply IH. assumption.
Qed.

Lemma Forall2_le_fin_finite a b : Forall2 le_fin a b -> Forall finite a.
Proof.
  induction 1 as [|x y a b Hxy _ IH]; constructor; [|assumption].
  eapply le_fin_finite_l; eassumption.
Qed.

Lemma zip_fmin_le a b :
  Forall finite a -> Forall finite b -> length a = length b ->
  Forall2 le_fin (zip_with fmin a b) a /\ Forall2 le_fin (zip_with fmin a b) b.
Proof.
  revert b; induction a as [|x a IH]; intros [|y b] Ha Hb Hlen; cbn in *;
    try discriminate; [split; constructor|].
  destruct (fmin_le_fin x y (Forall_inv Ha) (Forall_inv Hb)) as [H1 H2].
  destruct (IH b (Forall_inv_tail Ha) (Forall_inv_tail Hb)) as [H3 H4]; [lia|].
  split; constructor; assumption.
Qed.

(** The minimum of each column is a real number below every entry of the
    column. *)
Lemma fold_fmin_le rs : forall a,
  Forall finite a ->
  Forall (fun r => Forall finite r /\ length r = length a) rs ->
  Forall2 le_fin (fold_left (zip_with fmin) rs a) a /\
  Forall (fun r => Forall2 le_fin (fold_left (zip_with fmin) rs a) r) rs.
Proof.
  induction rs as [|r rs IH]; intros a Ha Hrs; cbn [fold_left].
  - split; [|constructor]. clear Hrs.
    induction Ha as [|x a Hx _ IHa]; [constructor|]. constructor; [|assumption].
    destruct x; cbn in *; try contradiction. lra.
  - destruct (Forall_inv Hrs) as [Hr Hlen]. pose proof (Forall_inv_tail Hrs) as Hrs'.
    destruct (zip_fmin_le a r Ha Hr (eq_sym Hlen)) as [H1 H2].
    destruct (IH (zip_with fmin a r)) as [H3 H4].
    + eapply Forall2_le_fin_finite; eassumption.
    + eapply Forall_impl; [|exact Hrs']. cbn. intros r' [Hf Hl]. split; [assumption|].
      rewrite zip_with_length by congruence. assumption.
    + split; [eapply Forall2_le_fin_trans; eassumption|].
      constructor; [eapply Forall2_le_fin_trans; eassumption | assumption].
Qed.

Lemma fsub_le_fin row mins :
  Forall2 le_fin mins row -> Forall fin_nonneg (zip_with fsub row mins).
Proof.
  induction 1 as [|m x mins row Hmx _ IH]; cbn; constructor; [|assumption].
  destruct m, x; cbn in *; try contradiction. lra.
Qed.

(** The normalized cost matrix has the shape of the cost matrix and
    non-negative real entries. *)
Lemma normalize_cost_ok c K :
  cost_ok c K ->
  exists c1, normalize_cost c = Ok c1 /\
    wf_matrix c1 /\ ncols c1 = K /\ nrows c1 = nrows c /\
    Forall (Forall fin_nonneg) (rows c1).
Proof.
  intros (Hwf & HK & HN & Hfin). unfold normalize_cost, col_min, nrows, wf_matrix in *.
  destruct (rows c) as [|r rs] eqn:E; [cbn in HN; lia|]. cbn [bind].
  destruct (fold_fmin_le rs r) as [H1 H2].
  - apply (Forall_inv Hfin).
  - apply Forall_forall. intros r' Hr'. rewrite Forall_forall in Hfin, Hwf. split.
    + apply Hfin. right. assumption.
    + rewrite (Hwf r') by (right; assumption). symmetry. apply Hwf. left. reflexivity.
  - set (mins := fold_left (zip_with fmin) rs r) in *.
    assert (Hall : Forall (fun r' => Forall2 le_fin mins r') (r :: rs))
      by (constructor; assumption).
    eexists. split; [reflexivity|]. cbn [rows ncols].
    split; [|split; [assumption|split; [apply length_map|]]].
    + apply Forall_map, Forall_forall. intros r' Hr'.
      rewrite Forall_forall in Hall, Hwf.
      rewrite zip_with_length; [apply Hwf; assumption|].
      symmetry. eapply Forall2_length. apply Hall. assumption.
    + apply Forall_map. eapply Forall_impl; [|exact Hall].
      intros r' Hr'. apply fsub_le_fin. exact Hr'.
Qed.

Lemma min_from_index best bi i l :
  (bi < i)%nat -> (snd (min_from best bi i l) < i + length l)%nat.
Proof.
  revert best bi i; induction l as [|x l IH]; intros best bi i H; cbn [min_from length].
  - cbn. lia.
  - destruct (negb (is_nan best) && (is_nan x || flt x best)).
    + specialize (IH x i (S i)). lia.
    + specialize (IH best bi (S i)). lia.
Qed.

Lemma argmin_ok l : l <> [] -> exists d, argmin l = Ok d /\ (d < length l)%nat.
Proof.
  destruct l as [|x l]; [congruence|]. intros _. eexists. split; [reflexivity|].
  pose proof (min_from_index x 0 1 l). cbn [length]. lia.
Qed.

Lemma decide_row_ok c p :
  (0 < nrows c)%nat -> exists d, decide_row c p = Ok d /\ (d < nrows c)%nat.
Proof.
  intros HN. unfold decide_row.
  destruct (argmin_ok (map (dot p) (rows c))) as (d & Hd & Hlt).
  - unfold nrows in HN. destruct (rows c); [cbn in HN; lia | discriminate].
  - exists d. split; [assumption|]. rewrite length_map in Hlt. exact Hlt.
Qed.

Lemma mapM_ok_Forall {A B} (f : A -> result B) (P : B -> Prop) l :
  (forall x, In x l -> exists y, f x = Ok y /\ P y) ->
  exists ys, mapM f l = Ok ys /\ Forall P ys /\ length ys = length l.
Proof.
  induction l as [|x l IH]; intros H.
  - exists []. repeat split. constructor.
  - destruct (H x (or_introl eq_refl)) as (y & Hy & HP).
    destruct IH as (ys & Hys & HPs & Hlen); [intros; apply H; right; assumption|].
    exists (y :: ys). cbn. rewrite Hy. cbn. rewrite Hys. cbn.
    split; [reflexivity|]. split; [constructor; assumption | f_equal; assumption].
Qed.

Lemma entry_fin_nonneg c d l :
  wf_matrix c -> Forall (Forall fin_nonneg) (rows c) ->
  (d < nrows c)%nat -> (l < ncols c)%nat ->
  index2 c d l = Ok (entry c d l) /\ fin_nonneg (entry c d l).
Proof.
  intros Hwf Hf Hd Hl. split; [apply index2_entry; assumption|].
  unfold entry. rewrite Forall_forall in Hf.
  pose proof (Hf _ (nth_In (rows c) [] Hd)) as Hr. rewrite Forall_forall in Hr.
  apply Hr. apply nth_In. rewrite wf_matrix_nth; assumption.
Qed.

Lemma bincount_length_eq labels :
  labels <> [] -> length (bincount labels) = S (list_max labels).
Proof.
  destruct labels as [|a t]; [congruence|]. intros _. unfold bincount.
  rewrite length_map, length_seq. reflexivity.
Qed.

(** The body of [CostFunction], for a normalized cost matrix. *)
Lemma CostFunction_score_nonneg lp labels c1 :
  wf_matrix c1 -> ncols c1 = ncols lp -> (0 < nrows c1)%nat ->
  Forall (Forall fin_nonneg) (rows c1) ->
  (0 < nrows lp)%nat -> nrows lp = length labels ->
  Forall (fun l => (l < ncols lp)%nat) labels ->
  exists c,
    CostFunction_score lp labels c1 false = Ok (Fin c) /\ 0 <= c /\
    (S (list_max labels) = ncols lp ->
     exists pc,
       0 <= pc /\
       CostFunction_score lp labels c1 true = Ok (fdiv (Fin c) (Fin pc)) /\
       (pc <> 0 -> nonneg (fdiv (Fin c) (Fin pc)))).
Proof.
  intros Hwf HK HR Hf HN Hn Hl. unfold CostFunction_score, _decisions.
  cbn [map_matrix ncols rows]. rewrite HK, Nat.eqb_refl.
  destruct (mapM_ok_Forall (decide_row c1) (fun d => (d < nrows c1)%nat)
              (map (map fexp) (rows lp))) as (ds & Hds & Hdlt & Hdlen).
  { intros p _. apply decide_row_ok. assumption. }
  rewrite Hds. cbn [bind]. rewrite length_map in Hdlen. fold (nrows lp) in Hdlen.
  unfold lookup_costs. rewrite broadcast_index_same by congruence. cbn [bind].
  destruct (mapM_ok_Forall (fun '(d, l) => index2 c1 d l) fin_nonneg (combine ds labels))
    as (costs & Hcosts & Hcf & Hclen).
  { intros [d l] Hin. exists (entry c1 d l). apply entry_fin_nonneg; try assumption.
    - rewrite Forall_forall in Hdlt. apply Hdlt. eapply in_combine_l; eassumption.
    - rewrite HK. rewrite Forall_forall in Hl. apply Hl. eapply in_combine_r; eassumption. }
  rewrite Hcosts. cbn [bind].
  assert (Hcne : costs <> []).
  { apply nonempty_of_length. rewrite Hclen, length_combine. lia. }
  destruct (fin_nonneg_inv _ (tmean_fin_nonneg costs Hcne Hcf)) as (c & Ec & Hc0).
  exists c. rewrite fdiv_1_r. split; [congruence|]. split; [assumption|].
  intros Hmax.
  assert (Hlne : labels <> []) by (apply nonempty_of_length; lia).
  unfold _decisions1. rewrite data_priors_length, bincount_length_eq by assumption.
  rewrite Hmax, HK, Nat.eqb_refl.
  destruct (decide_row_ok c1 (data_priors labels) HR) as (d0 & Hd0 & Hd0lt).
  rewrite Hd0. cbn [bind].
  destruct (mapM_ok_Forall (index2 c1 d0) fin_nonneg labels)
    as (naive & Hnaive & Hnf & Hnlen).
  { intros l Hin. exists (entry c1 d0 l). apply entry_fin_nonneg; try assumption.
    rewrite HK. rewrite Forall_forall in Hl. auto. }
  rewrite Hnaive. cbn [bind].
  assert (Hnne : naive <> []) by (apply nonempty_of_length; lia).
  destruct (fin_nonneg_inv _ (tmean_fin_nonneg naive Hnne Hnf)) as (pc & Epc & Hpc0).
  exists pc. split; [assumption|]. rewrite Ec, Epc. split; [reflexivity|].
  intros Hnz. apply fdiv_nonneg; [exact Hc0 | lra].
Qed.

Lemma default_cost_ok K : (0 < K)%nat -> cost_ok (default_cost K) K.
Proof.
  intros HK. rewrite default_cost_zero_one. unfold cost_ok, zero_one_cost, wf_matrix, nrows.
  cbn [rows ncols]. rewrite length_map, length_seq.
  split; [|split; [reflexivity | split; [assumption|]]].
  - apply Forall_map, Forall_forall. intros i _. rewrite length_map, length_seq. reflexivity.
  - apply Forall_map, Forall_forall. intros i _.
    apply Forall_map, Forall_forall. intros j _. destruct (negb (Nat.eqb i j)); exact I.
Qed.

(** The scores of [CostFunction]: the unnormalized score is a
    non-negative real; when the last class occurs among the labels the
    normalizing cost is a non-negative real, and where it is not 0 the
    normalized score is non-negative. *)
Lemma CostFunction_scores lp labels C :
  (0 < ncols lp)%nat -> (0 < nrows lp)%nat -> nrows lp = length labels ->
  Forall (fun l => (l < ncols lp)%nat) labels ->
  valid_cost C (ncols lp) ->
  exists c,
    CostFunction lp labels C false = Ok (Fin c) /\ 0 <= c /\
    (S (list_max labels) = ncols lp ->
     exists pc,
       0 <= pc /\
       CostFunction lp labels C true = Ok (fdiv (Fin c) (Fin pc)) /\
       (pc <> 0 -> nonneg (fdiv (Fin c) (Fin pc)))).
Proof.
  intros HK HN Hn Hl HC.
  assert (Hok : cost_ok (match C with None => default_cost (ncols lp) | Some c => c end)
                        (ncols lp)).
  { destruct C as [c|]; [exact HC | apply default_cost_ok; assumption]. }
  destruct (normalize_cost_ok _ _ Hok) as (c1 & Hnorm & Hwf1 & HK1 & HN1 & Hf1).
  destruct Hok as (_ & _ & HR & _). rewrite <- HN1 in HR.
  destruct (CostFunction_score_nonneg lp labels c1 Hwf1 HK1 HR Hf1 HN Hn Hl)
    as (c & Hc & Hc0 & Hnormed).
  exists c. unfold CostFunction, CostFunction_run. rewrite Hnorm. cbn [fst].
  split; [assumption|]. split; assumption.
Qed.

(** *** The normalizing cost of [CostFunction] *)

Lemma fexp_flog_probability p : probability p -> fexp (flog p) = p.
Proof.
  destruct p as [r| | |]; cbn; try contradiction. intros [H0 H1].
  destruct (Rle_lt_or_eq_dec 0 r H0) as [Hlt|Heq].
  - rewrite Rltb_true by lra. cbn. rewrite exp_ln by lra. reflexivity.
  - subst r. rewrite Rltb_false by lra. rewrite Reqb_true by reflexivity. reflexivity.
Qed.

Lemma mapM_repeat {A B} (f : A -> result B) x y n :
  f x = Ok y -> mapM f (repeat x n) = Ok (repeat y n).
Proof.
  intros H. induction n as [|n IH]; [reflexivity|].
  cbn [repeat mapM]. rewrite H. cbn [bind]. rewrite IH. reflexivity.
Qed.

Lemma mapM_combine_repeat {B} (f : nat -> nat -> result B) d labels :
  mapM (fun '(d, l) => f d l) (combine (repeat d (length labels)) labels)
  = mapM (f d) labels.
Proof.
  induction labels as [|l labels IH]; [reflexivity|].
  cbn [length repeat combine mapM]. rewrite IH. reflexivity.
Qed.

(** The probabilities of the classifier that outputs the empirical prior
    are the empirical prior, for each sample. *)
Lemma prior_probs labels n :
  rows (map_matrix fexp (prior_log_probs (data_priors labels) n))
  = repeat (data_priors labels) n.
Proof.
  unfold prior_log_probs, expand, map_matrix. cbn [rows].
  rewrite !map_repeat. f_equal. rewrite map_map.
  transitivity (map (fun p : fl => p) (data_priors labels)); [|apply map_id].
  apply map_ext_in. intros p Hp. apply fexp_flog_probability.
  pose proof (data_priors_probability labels) as H. rewrite Forall_forall in H. auto.
Qed.

(** The normalizing cost of [CostFunction] is the unnormalized cost of the
    classifier that outputs the empirical prior. *)
Lemma CostFunction_score_prior lp labels c1 :
  wf_matrix c1 -> ncols c1 = ncols lp -> (0 < nrows c1)%nat ->
  Forall (Forall fin_nonneg) (rows c1) ->
  (0 < nrows lp)%nat -> nrows lp = length labels ->
  Forall (fun l => (l < ncols lp)%nat) labels ->
  S (list_max labels) = ncols lp ->
  exists pc,
    0 <= pc /\
    CostFunction_score (prior_log_probs (data_priors labels) (nrows lp)) labels c1 false
      = Ok (Fin pc) /\
    (forall c, CostFunction_score lp labels c1 false = Ok (Fin c) ->
               CostFunction_score lp labels c1 true = Ok (fdiv (Fin c) (Fin pc))).
Proof.
  intros Hwf HK HR Hf HN Hn Hl Hmax.
  assert (Hlne : labels <> []) by (apply nonempty_of_length; lia).
  assert (Hdp : length (data_priors labels) = ncols c1).
  { rewrite data_priors_length, bincount_length_eq by assumption. congruence. }
  destruct (decide_row_ok c1 (data_priors labels) HR) as (d0 & Hd0 & Hd0lt).
  destruct (mapM_ok_Forall (index2 c1 d0) fin_nonneg labels)
    as (naive & Hnaive & Hnf & Hnlen).
  { intros l Hin. exists (entry c1 d0 l). apply entry_fin_nonneg; try assumption.
    rewrite HK. rewrite Forall_forall in Hl. auto. }
  assert (Hnne : naive <> []) by (apply nonempty_of_length; lia).
  destruct (fin_nonneg_inv _ (tmean_fin_nonneg naive Hnne Hnf)) as (pc & Epc & Hpc0).
  exists pc. split; [assumption|]. split.
  - unfold CostFunction_score, _decisions. rewrite prior_probs.
    cbn [map_matrix ncols]. rewrite prior_log_probs_ncols, Hdp, Nat.eqb_refl.
    rewrite (mapM_repeat (decide_row c1) _ d0 _ Hd0). cbn [bind].
    unfold lookup_costs. rewrite broadcast_index_same by (rewrite repeat_length; exact Hn).
    cbn [bind]. rewrite Hn, mapM_combine_repeat, Hnaive. cbn [bind].
    rewrite fdiv_1_r, Epc. reflexivity.
  - intros c Hc. unfold CostFunction_score in *.
    destruct (_decisions c1 (map_matrix fexp lp)) as [ds|e]; [|discriminate].
    cbn [bind] in *.
    destruct (lookup_costs c1 ds labels) as [costs|e]; [|discriminate].
    cbn [bind] in *. rewrite fdiv_1_r in Hc. inversion Hc as [Ec].
    unfold _decisions1. rewrite Hdp, Nat.eqb_refl, Hd0. cbn [bind].
    rewrite Hnaive. cbn [bind]. rewrite Epc. reflexivity.
Qed.

Lemma CostFunction_prior_cost lp labels C :
  (0 < ncols lp)%nat -> (0 < nrows lp)%nat -> nrows lp = length labels ->
  Forall (fun l => (l < ncols lp)%nat) labels ->
  valid_cost C (ncols lp) ->
  S (list_max labels) = ncols lp ->
  exists pc,
    0 <= pc /\
    CostFunction (prior_log_probs (data_priors labels) (nrows lp)) labels C false
      = Ok (Fin pc) /\
    (forall c, CostFunction lp labels C false = Ok (Fin c) ->
               CostFunction lp labels C true = Ok (fdiv (Fin c) (Fin pc))).
Proof.
  intros HK HN Hn Hl HC Hmax.
  assert (Hlne : labels <> []) by (apply nonempty_of_length; lia).
  assert (Hcols : ncols (prior_log_probs (data_priors labels) (nrows lp)) = ncols lp).
  { rewrite prior_log_probs_ncols, data_priors_length, bincount_length_eq by assumption.
    exact Hmax. }
  assert (Hok : cost_ok (match C with None => default_cost (ncols lp) | Some c => c end)
                        (ncols lp)).
  { destruct C as [c|]; [exact HC|apply default_cost_ok; assumption]. }
  destruct (normalize_cost_ok _ _ Hok) as (c1 & Hc1 & Hwf1 & HK1 & HR1 & Hf1).
  assert (HR : (0 < nrows c1)%nat) by (rewrite HR1; apply Hok).
  destruct (CostFunction_score_prior lp labels c1 Hwf1 HK1 HR Hf1 HN Hn Hl Hmax)
    as (pc & Hpc & Hprior & Hnorm).
  exists pc. split; [assumption|].
  unfold CostFunction, CostFunction_run. rewrite Hcols, Hc1. cbn [fst].
  split; assumption.
Qed.

(** C5, amended: for log-probabilities of at least one sample and one
    class, labels within the classes and, when they are given, a prior of
    probabilities and a cost matrix of reals: the unnormalized [LogLoss],
    [Brier] and [CostFunction] are non-negative; the normalizing factor of
    [LogLoss] and of [Brier], the score of the classifier that outputs the
    prior, is a non-negative real, and where it is not 0 the normalized
    score is non-negative, and is exactly 1 for the classifier that outputs
    the prior; when the last class occurs among the labels, the normalizing
    cost of [CostFunction] is the unnormalized cost of the classifier that
    outputs the class frequencies of the labels, a non-negative real, the
    normalized cost is the quotient of the two, and where the normalizing
    cost is not 0 the normalized cost is non-negative. *)
Theorem scores_nonneg_and_prior_scores_one
    (log_probs : matrix) (labels : list nat) (priors : option (list fl)) (C : option matrix) :
  log_prob_matrix log_probs ->
  (0 < ncols log_probs)%nat ->
  (0 < nrows log_probs)%nat ->
  nrows log_probs = length labels ->
  Forall (fun l => (l < ncols log_probs)%nat) labels ->
  valid_priors priors labels ->
  valid_cost C (ncols log_probs) ->
  let prior := the_prior priors labels in
  let prior_lp := prior_log_probs prior (nrows log_probs) in
  (exists s n,
     LogLoss log_probs labels (PyBool false) priors = Ok s /\ nonneg s /\
     LogLoss prior_lp labels (PyBool false) (Some prior) = Ok (Fin n) /\ 0 <= n /\
     (n <> 0 ->
        LogLoss log_probs labels (PyBool true) priors = Ok (fdiv s (Fin n)) /\
        nonneg (fdiv s (Fin n)) /\
        LogLoss prior_lp labels (PyBool true) priors = Ok (Fin 1))) /\
  (exists s n,
     Brier log_probs labels (PyBool false) priors = Ok (Fin s) /\ 0 <= s /\
     Brier prior_lp labels (PyBool false) (Some prior) = Ok (Fin n) /\ 0 <= n /\
     (n <> 0 ->
        Brier log_probs labels (PyBool true) priors = Ok (fdiv (Fin s) (Fin n)) /\
        nonneg (fdiv (Fin s) (Fin n)) /\
        Brier prior_lp labels (PyBool true) priors = Ok (Fin 1))) /\
  (exists c,
     CostFunction log_probs labels C false = Ok (Fin c) /\ 0 <= c /\
     (S (list_max labels) = ncols log_probs ->
      exists pc,
        CostFunction (prior_log_probs (data_priors labels) (nrows log_probs)) labels C false
          = Ok (Fin pc) /\
        0 <= pc /\
        CostFunction log_probs labels C true = Ok (fdiv (Fin c) (Fin pc)) /\
        (pc <> 0 -> nonneg (fdiv (Fin c) (Fin pc))))).
Proof.
  intros Hlp HK HN Hn Hl Hv HC. cbv zeta. split; [|split].
  - destruct (LogLoss_scores log_probs labels priors Hlp HN Hn Hl Hv)
      as (s & n & H1 & H2 & H3 & H4 & H5 & H6).
    exists s, n. do 4 (split; [assumption|]).
    intros Hnz. destruct (H6 Hnz). auto.
  - destruct (Brier_scores log_probs labels priors Hlp HK HN Hn Hl Hv)
      as (s & n & H1 & H2 & H3 & H4 & H5 & H6).
    exists s, n. do 4 (split; [assumption|]).
    intros Hnz. destruct (H6 Hnz). auto.
  - destruct (CostFunction_scores log_probs labels C HK HN Hn Hl HC)
      as (c & H1 & H2 & _).
    exists c. do 2 (split; [assumption|]).
    intros Hmax.
    destruct (CostFunction_prior_cost log_probs labels C HK HN Hn Hl HC Hmax)
      as (pc & Hpc & Hprior & Hnorm).
    exists pc. split; [exact Hprior|]. split; [exact Hpc|].
    split; [apply Hnorm; exact H1|].
    intros Hnz. apply fdiv_nonneg; [exact H2|lra].
Qed.

Lemma scores_nonneg_and_prior_scores_one_witness :
  (exists s, LogLoss lp_two_certain [0; 1]%nat (PyBool false) None = Ok s /\ nonneg s) /\
  (exists s, Brier lp_two_certain [0; 1]%nat (PyBool false) None = Ok (Fin s) /\ 0 <= s) /\
  (exists c pc,
     CostFunction lp_two_certain [0; 1]%nat None false = Ok (Fin c) /\ 0 <= c /\
     CostFunction (prior_log_probs (data_priors [0; 1]%nat) 2) [0; 1]%nat None false
       = Ok (Fin pc) /\
     0 <= pc /\
     CostFunction lp_two_certain [0; 1]%nat None true = Ok (fdiv (Fin c) (Fin pc))).
Proof.
  destruct (scores_nonneg_and_prior_scores_one lp_two_certain [0; 1]%nat None None)
    as ((s1 & n1 & H1 & H1' & _) & (s2 & n2 & H2 & H2' & _) & (c & H3 & H3' & H4)).
  - exact lp_two_certain_log_prob.
  - cbn. lia.
  - cbn. lia.
  - reflexivity.
  - repeat constructor.
  - exact I.
  - exact I.
  - destruct (H4 eq_refl) as (pc & H5 & H6 & H7 & _).
    split; [exists s1; split; assumption|].
    split; [exists s2; split; assumption|].
    exists c, pc. repeat (split; [assumption|]). assumption.
Defined.

Lemma ln_one_one : ln (1 / 1) = 0.
Proof. replace (1 / 1) with 1 by lra. apply ln_1. Qed.

(** Evaluates a closed term in which [exp 0] and [ln (1/1)] occur. *)
Ltac fl_eval_exp :=
  fl_step; repeat (progress (rewrite ?ln_one_one, ?exp_0; real_cmp; fl_step)).

(** C5 as stated fails on one class of labels: for the single sample of
    label 1 and probabilities 0 and 1, which are the empirical prior, the
    normalizing factors are 0 and the three normalized scores are 0/0. *)
Lemma normalized_scores_nan_on_one_class :
  prior_log_probs (data_priors [1%nat]) 1 = lp_last_certain /\
  LogLoss lp_last_certain [1%nat] (PyBool true) None = Ok NaN /\
  Brier lp_last_certain [1%nat] (PyBool true) None = Ok NaN /\
  CostFunction lp_last_certain [1%nat] None true = Ok NaN.
Proof.
  split; [|split; [|split]].
  - unfold prior_log_probs, lp_last_certain. fl_eval_exp. reflexivity.
  - unfold LogLoss, lp_last_certain. fl_eval_exp. reflexivity.
  - unfold Brier, lp_last_certain. fl_eval_exp. reflexivity.
  - unfold CostFunction, CostFunction_run, lp_last_certain. fl_eval_exp. reflexivity.
Qed.

(** * Further properties *)

(** ** psrcal.utils: onehot_encode *)

(** The first exception a loop meets is the one it raises. *)
Lemma mapM_err {A B} (f : A -> result B) e l x :
  In x l -> f x = Err e ->
  (forall y, In y l -> f y = Err e \/ exists z, f y = Ok z) ->
  mapM f l = Err e.
Proof.
  induction l as [|a l IH]; intros Hin Hx Hall; [contradiction|].
  cbn [mapM]. destruct (Hall a (or_introl eq_refl)) as [Ha|[z Hz]].
  - rewrite Ha. reflexivity.
  - rewrite Hz. cbn [bind]. destruct Hin as [->|Hin]; [congruence|].
    rewrite IH; auto. intros y Hy. apply Hall. right. assumption.
Qed.

Lemma onehot_row_hot K x : onehot_row K x = map (hot x) (seq 0 K).
Proof. reflexivity. Qed.

Lemma max_from_one bi i l :
  Forall (fun v => v = Fin 0 \/ v = Fin 1) l -> max_from (Fin 1) bi i l = (Fin 1, bi).
Proof.
  revert i; induction l as [|v l IH]; intros i Hl; [reflexivity|].
  cbn [max_from]. pose proof (Forall_inv Hl) as Hv.
  assert (E : negb (is_nan (Fin 1)) && (is_nan v || flt (Fin 1) v) = false).
  { destruct Hv as [-> | ->]; cbn; apply Rltb_false; lra. }
  rewrite E. apply IH. apply (Forall_inv_tail Hl).
Qed.

Lemma hot_values x l : Forall (fun v => v = Fin 0 \/ v = Fin 1) (map (hot x) l).
Proof.
  apply Forall_map, Forall_forall. intros k _. unfold hot.
  destruct (Nat.eqb k x); auto.
Qed.

Lemma max_from_zero x n : forall i bi,
  max_from (Fin 0) bi i (map (hot x) (seq i n))
  = if (i <=? x)%nat && (x <? i + n)%nat then (Fin 1, x) else (Fin 0, bi).
Proof.
  induction n as [|n IH]; intros i bi.
  - cbn [seq map max_from].
    destruct (i <=? x)%nat eqn:E1; [|reflexivity].
    destruct (x <? i + 0)%nat eqn:E2; [|reflexivity].
    apply Nat.leb_le in E1. apply Nat.ltb_lt in E2. lia.
  - cbn [seq map max_from].
    assert (Hh : hot x i = if Nat.eqb i x then Fin 1 else Fin 0) by reflexivity.
    rewrite Hh. clear Hh. destruct (Nat.eqb i x) eqn:E.
    + apply Nat.eqb_eq in E. subst x.
      assert (E : negb (is_nan (Fin 0)) && (is_nan (Fin 1) || flt (Fin 0) (Fin 1)) = true)
        by (cbn; apply Rltb_true; lra).
      rewrite E, max_from_one by apply hot_values.
      rewrite Nat.leb_refl. cbn [andb].
      assert (E2 : (i <? i + S n)%nat = true) by (apply Nat.ltb_lt; lia).
      rewrite E2. reflexivity.
    + assert (E0 : negb (is_nan (Fin 0)) && (is_nan (Fin 0) || flt (Fin 0) (Fin 0)) = false)
        by (cbn; apply Rltb_false; lra).
      rewrite E0, IH. apply Nat.eqb_neq in E.
      assert (E3 : ((S i <=? x)%nat && (x <? S i + n)%nat) = ((i <=? x)%nat && (x <? i + S n)%nat)).
      { destruct (S i <=? x)%nat eqn:A1, (x <? S i + n)%nat eqn:A2,
                 (i <=? x)%nat eqn:B1, (x <? i + S n)%nat eqn:B2; try reflexivity;
          repeat match goal with
                 | H : (_ <=? _)%nat = true |- _ => apply Nat.leb_le in H
                 | H : (_ <=? _)%nat = false |- _ => apply Nat.leb_gt in H
                 | H : (_ <? _)%nat = true |- _ => apply Nat.ltb_lt in H
                 | H : (_ <? _)%nat = false |- _ => apply Nat.ltb_ge in H
                 end; lia. }
      rewrite E3. reflexivity.
Qed.

(** The maximum of a one-hot row is its 1, at the label. *)
Lemma torch_max_onehot K x : (x < K)%nat -> torch_max (onehot_row K x) = Ok (Fin 1, x).
Proof.
  intros Hx. rewrite onehot_row_hot. destruct K as [|K]; [lia|].
  cbn [seq map torch_max].
  assert (Hh : hot x 0 = if Nat.eqb 0 x then Fin 1 else Fin 0) by reflexivity.
  rewrite Hh. clear Hh. destruct (Nat.eqb 0 x) eqn:E.
  - apply Nat.eqb_eq in E. subst x. rewrite max_from_one by apply hot_values. reflexivity.
  - rewrite max_from_zero. apply Nat.eqb_neq in E.
    assert (E1 : (1 <=? x)%nat = true) by (apply Nat.leb_le; lia).
    assert (E2 : (x <? 1 + K)%nat = true) by (apply Nat.ltb_lt; lia).
    rewrite E1, E2. reflexivity.
Qed.

Lemma tsum_hot x n : forall i,
  tsum (map (hot x) (seq i n)) = if (i <=? x)%nat && (x <? i + n)%nat then Fin 1 else Fin 0.
Proof.
  induction n as [|n IH]; intros i.
  - cbn [seq map tsum fold_right].
    destruct (i <=? x)%nat eqn:E1; [|reflexivity].
    destruct (x <? i + 0)%nat eqn:E2; [|reflexivity].
    apply Nat.leb_le in E1. apply Nat.ltb_lt in E2. lia.
  - cbn [seq map]. rewrite tsum_cons, IH.
    assert (Hh : hot x i = if Nat.eqb i x then Fin 1 else Fin 0) by reflexivity.
    rewrite Hh. clear Hh. destruct (Nat.eqb i x) eqn:E.
    + apply Nat.eqb_eq in E. subst x.
      assert (E1 : (S i <=? i)%nat = false) by (apply Nat.leb_gt; lia).
      assert (E2 : (i <? i + S n)%nat = true) by (apply Nat.ltb_lt; lia).
      rewrite E1, Nat.leb_refl, E2. cbn. f_equal. ring.
    + apply Nat.eqb_neq in E.
      destruct (S i <=? x)%nat eqn:A1, (x <? S i + n)%nat eqn:A2,
               (i <=? x)%nat eqn:B1, (x <? i + S n)%nat eqn:B2; cbn; try (f_equal; ring);
        repeat match goal with
               | H : (_ <=? _)%nat = true |- _ => apply Nat.leb_le in H
               | H : (_ <=? _)%nat = false |- _ => apply Nat.leb_gt in H
               | H : (_ <? _)%nat = true |- _ => apply Nat.ltb_lt in H
               | H : (_ <? _)%nat = false |- _ => apply Nat.ltb_ge in H
               end; lia.
Qed.

Lemma tsum_onehot_row K x : (x < K)%nat -> tsum (onehot_row K x) = Fin 1.
Proof.
  intros Hx. rewrite onehot_row_hot, tsum_hot.
  assert (E2 : (x <? 0 + K)%nat = true) by (apply Nat.ltb_lt; lia).
  rewrite E2. reflexivity.
Qed.

Lemma onehot_row_nth K x j : (j < K)%nat -> nth j (onehot_row K x) NaN = hot x j.
Proof.
  intros Hj. rewrite onehot_row_hot.
  rewrite (nth_indep _ NaN (hot x 0)) by (rewrite length_map, length_seq; assumption).
  rewrite map_nth, seq_nth by assumption. reflexivity.
Qed.

(** Decoding the rows of an encoding by their maximum. *)
Lemma max_rows_onehot K X :
  Forall (fun x => (x < K)%nat) X ->
  max_rows (Mat K (map (onehot_row K) X)) = Ok (map (fun _ => Fin 1) X, X).
Proof.
  intros HX. unfold max_rows. cbn [rows].
  assert (H : mapM torch_max (map (onehot_row K) X) = Ok (map (fun x => (Fin 1, x)) X)).
  { induction HX as [|x X Hx _ IH]; [reflexivity|].
    cbn [map mapM]. rewrite torch_max_onehot by assumption. cbn [bind].
    rewrite IH. reflexivity. }
  rewrite H. cbn [bind]. rewrite !map_map. cbn [fst snd]. rewrite map_id. reflexivity.
Qed.

Lemma onehot_rows_spec K X :
  Forall (fun x => (x < K)%nat) X ->
  let m := Mat K (map (onehot_row K) X) in
  ncols m = K /\ nrows m = length X /\ wf_matrix m /\
  Forall (fun r => tsum r = Fin 1) (rows m) /\
  (forall i x j, nth_error X i = Some x -> (j < K)%nat -> entry m i j = hot x j) /\
  max_rows m = Ok (map (fun _ => Fin 1) X, X).
Proof.
  intros HX m. subst m. cbn [ncols rows]. unfold nrows, wf_matrix. cbn [ncols rows].
  split; [reflexivity|]. split; [apply length_map|].
  split; [apply Forall_map, Forall_forall; intros; apply onehot_row_length|].
  split.
  { apply Forall_map. eapply Forall_impl; [|exact HX]. intros x Hx.
    apply tsum_onehot_row. exact Hx. }
  split; [|apply max_rows_onehot; assumption].
  intros i x j Hi Hj. unfold entry. cbn [rows].
  assert (Hr : nth_error (map (onehot_row K) X) i = Some (onehot_row K x))
    by (rewrite nth_error_map, Hi; reflexivity).
  rewrite (nth_error_nth _ _ _ Hr).
  apply onehot_row_nth. assumption.
Qed.

(** X1: with the number of classes given and every label below it,
    [onehot_encode] returns one row per label, each of [n_classes] entries
    that sum to 1, with 1 in the column of the label and 0 elsewhere; the
    maximum of each row, as [torch.max] finds it, is that 1 and its index is
    the label: decoding the encoding gives the labels back. *)
Theorem onehot_encode_decodes (X : list nat) (K : nat) :
  Forall (fun x => (x < K)%nat) X ->
  exists m,
    onehot_encode X (Some K) = Ok m /\
    ncols m = K /\ nrows m = length X /\ wf_matrix m /\
    Forall (fun r => tsum r = Fin 1) (rows m) /\
    (forall i x j, nth_error X i = Some x -> (j < K)%nat -> entry m i j = hot x j) /\
    max_rows m = Ok (map (fun _ => Fin 1) X, X).
Proof.
  intros HX. exists (Mat K (map (onehot_row K) X)).
  split; [apply onehot_encode_map; assumption|].
  apply (onehot_rows_spec K X HX).
Qed.

Lemma onehot_encode_decodes_witness :
  exists m,
    onehot_encode [2; 0; 1]%nat (Some 3%nat) = Ok m /\
    ncols m = 3%nat /\ nrows m = 3%nat /\
    max_rows m = Ok ([Fin 1; Fin 1; Fin 1], [2; 0; 1]%nat).
Proof.
  destruct (onehot_encode_decodes [2; 0; 1]%nat 3) as (m & H1 & H2 & H3 & _ & _ & _ & H4).
  - repeat constructor.
  - exists m. auto.
Defined.

Lemma onehot_encode_raises X K x :
  In x X -> (K <= x)%nat -> onehot_encode X (Some K) = Err IndexError.
Proof.
  intros Hin Hx. unfold onehot_encode. cbn [bind].
  rewrite (mapM_err _ IndexError X x); [reflexivity|assumption| |].
  - assert (E : (x <? K)%nat = false) by (apply Nat.ltb_ge; assumption).
    rewrite E. reflexivity.
  - intros y _. destruct (y <? K)%nat; [right; eexists; reflexivity|left; reflexivity].
Qed.

(** X2: a label that is not below the number of classes makes
    [onehot_encode] raise IndexError, whatever the other labels are. *)
Theorem onehot_encode_label_out_of_range (X : list nat) (K x : nat) :
  In x X -> (K <= x)%nat -> onehot_encode X (Some K) = Err IndexError.
Proof.
  intros Hin Hx. unfold onehot_encode. cbn [bind].
  rewrite (mapM_err _ IndexError X x); [reflexivity|assumption| |].
  - assert (E : (x <? K)%nat = false) by (apply Nat.ltb_ge; assumption).
    rewrite E. reflexivity.
  - intros y _. destruct (y <? K)%nat; [right; eexists; reflexivity|left; reflexivity].
Qed.

Lemma onehot_encode_label_out_of_range_witness :
  onehot_encode [0; 2; 1]%nat (Some 2%nat) = Err IndexError.
Proof.
  apply (onehot_encode_label_out_of_range [0; 2; 1]%nat 2 2).
  - right. left. reflexivity.
  - lia.
Defined.

Lemma list_max_lt (X : list nat) : Forall (fun x => (x < S (list_max X))%nat) X.
Proof.
  apply Forall_forall. intros x Hx. pose proof (list_max_ge X x Hx). lia.
Qed.

(** X3: without the number of classes, a non-empty label vector is encoded
    with one column per value up to its largest label; the call does not
    raise, and decoding gives the labels back. *)
Theorem onehot_encode_infers_classes (X : list nat) :
  X <> [] ->
  exists m,
    onehot_encode X None = Ok m /\
    ncols m = S (list_max X) /\ nrows m = length X /\ wf_matrix m /\
    Forall (fun r => tsum r = Fin 1) (rows m) /\
    max_rows m = Ok (map (fun _ => Fin 1) X, X).
Proof.
  intros HX. exists (Mat (S (list_max X)) (map (onehot_row (S (list_max X))) X)).
  pose proof (list_max_lt X) as Hlt.
  destruct (onehot_rows_spec _ X Hlt) as (H1 & H2 & H3 & H4 & _ & H5).
  split; [|auto].
  destruct X as [|x X']; [contradiction|].
  change (onehot_encode (x :: X') None)
    with (onehot_encode (x :: X') (Some (S (list_max (x :: X'))))).
  apply onehot_encode_map. assumption.
Qed.

Lemma onehot_encode_infers_classes_witness :
  exists m,
    onehot_encode [0; 2]%nat None = Ok m /\ ncols m = 3%nat /\ nrows m = 2%nat /\
    max_rows m = Ok ([Fin 1; Fin 1], [0; 2]%nat).
Proof.
  destruct (onehot_encode_infers_classes [0; 2]%nat) as (m & H1 & H2 & H3 & _ & _ & H4).
  - discriminate.
  - exists m. auto.
Defined.

(** ** psrcal.utils: softmax *)

Lemma max_from_finite best bi i l :
  finite best -> Forall finite l -> finite (fst (max_from best bi i l)).
Proof.
  revert best bi i; induction l as [|x l IH]; intros best bi i Hb Hl; [exact Hb|].
  cbn [max_from]. pose proof (Forall_inv Hl) as Hx. pose proof (Forall_inv_tail Hl) as Hl'.
  destruct (negb (is_nan best) && (is_nan x || flt best x)); apply IH; assumption.
Qed.

Lemma finite_real_of x : finite x -> x = Fin (real_of x).
Proof. destruct x; cbn; intros H; try contradiction; reflexivity. Qed.





Lemma Rltb_shift a b c : Rltb (a + c) (b + c) = Rltb a b.
Proof.
  unfold Rltb. destruct (Rlt_dec (a + c) (b + c)), (Rlt_dec a b); try reflexivity; lra.
Qed.

Lemma max_from_shift c l : forall best bi i,
  finite best -> Forall finite l ->
  max_from (fadd best (Fin c)) bi i (map (fun v => fadd v (Fin c)) l)
  = (fadd (fst (max_from best bi i l)) (Fin c), snd (max_from best bi i l)).
Proof.
  induction l as [|x l IH]; intros best bi i Hb Hl; [reflexivity|].
  pose proof (Forall_inv Hl) as Hx. pose proof (Forall_inv_tail Hl) as Hl'.
  cbn [map max_from].
  assert (E : negb (is_nan (fadd best (Fin c)))
              && (is_nan (fadd x (Fin c)) || flt (fadd best (Fin c)) (fadd x (Fin c)))
              = negb (is_nan best) && (is_nan x || flt best x)).
  { destruct best, x; cbn in Hb, Hx |- *; try contradiction. apply Rltb_shift. }
  rewrite E. destruct (negb (is_nan best) && (is_nan x || flt best x)); apply IH; assumption.
Qed.

Lemma np_max_shift c x :
  Forall finite x ->
  np_max (map (fun v => fadd v (Fin c)) x) = (m <- np_max x ;; Ok (fadd m (Fin c))).
Proof.
  intros Hfin. destruct x as [|v l]; [reflexivity|].
  cbn [map np_max bind]. rewrite max_from_shift;
    [reflexivity|apply (Forall_inv Hfin)|apply (Forall_inv_tail Hfin)].
Qed.

Lemma np_max_finite x m : Forall finite x -> np_max x = Ok m -> finite m.
Proof.
  intros Hfin H. destruct x as [|v l]; [discriminate|]. cbn in H. inversion H.
  apply max_from_finite; [apply (Forall_inv Hfin)|apply (Forall_inv_tail Hfin)].
Qed.


(** X5: adding the same real number to every entry of a vector of real
    numbers does not change its softmax. *)
Theorem softmax_shift_invariant (x : list fl) (c : R) :
  Forall finite x ->
  softmax (map (fun v => fadd v (Fin c)) x) = softmax x.
Proof.
  intros Hfin. unfold softmax. rewrite np_max_shift by assumption.
  destruct (np_max x) as [m|e] eqn:Em; [|reflexivity]. cbn [bind].
  pose proof (np_max_finite x m Hfin Em) as Hm.
  destruct m as [mx| | |]; cbn in Hm; try contradiction.
  assert (He : map (fun v => fexp (fsub v (fadd (Fin mx) (Fin c))))
                   (map (fun v => fadd v (Fin c)) x)
               = map (fun v => fexp (fsub v (Fin mx))) x).
  { rewrite map_map. apply map_ext_in. intros y Hy. rewrite Forall_forall in Hfin.
    rewrite (finite_real_of y (Hfin y Hy)). cbn. f_equal. f_equal. ring. }
  rewrite He. reflexivity.
Qed.

Lemma softmax_shift_invariant_witness :
  softmax (map (fun v => fadd v (Fin 5)) [Fin 0; Fin 1]) = softmax [Fin 0; Fin 1].
Proof.
  apply (softmax_shift_invariant [Fin 0; Fin 1] 5). repeat constructor.
Defined.

(** The softmax of a row of normalized log-probabilities. *)
Lemma softmax_row_normalized r : normalized_row r -> softmax_row r = map fexp r.
Proof.
  intros Hn. pose proof (normalized_row_finite r Hn) as Hfin.
  destruct Hn as [Hl Hs]. unfold softmax_row.
  destruct r as [|x l]; [reflexivity|].
  assert (Hm : finite (fst (max_from x 0 1 l))).
  { apply max_from_fin.
    - apply (Forall_inv_tail Hl).
    - apply (Forall_inv Hl).
    - inversion Hfin; subst; [left | right]; assumption. }
  destruct (fst (max_from x 0 1 l)) as [mx| | |]; cbn in Hm; try contradiction.
  set (r := x :: l) in *.
  assert (He : map (fun x => fexp (fsub x (Fin mx))) r
               = map (fun x => Fin (prob x * exp (- mx))) r).
  { apply map_ext_in. intros y Hy. apply fexp_shifted.
    rewrite Forall_forall in Hl. auto. }
  rewrite He, tsum_Fin, sum_scaled, Hs, !map_map.
  apply map_ext_in. intros y Hy.
  assert (Hy' : log_prob y) by (rewrite Forall_forall in Hl; auto).
  cbn [fdiv]. pose proof (exp_pos (- mx)) as Hpos.
  rewrite Reqb_false by lra. rewrite (fexp_prob y Hy'). f_equal. field. lra.
Qed.

(** X6: on log-probabilities that are normalized (each at most 0 or minus
    infinity, their probabilities summing to 1) the softmax returns the
    probabilities themselves, 0 for an entry of minus infinity. *)
Theorem softmax_of_log_probabilities (r : list fl) :
  normalized_row r -> softmax r = Ok (map fexp r).
Proof.
  intros Hn. rewrite <- (softmax_row_normalized r Hn).
  pose proof (normalized_row_finite r Hn) as Hfin.
  destruct r as [|x l]; [inversion Hfin|]. reflexivity.
Qed.

Lemma softmax_of_log_probabilities_witness :
  softmax [Fin 0; NInf] = Ok (map fexp [Fin 0; NInf]).
Proof.
  apply (softmax_of_log_probabilities [Fin 0; NInf]).
  split.
  - repeat constructor; cbn; lra.
  - cbn. rewrite exp_0. lra.
Defined.

(** ** The empirical prior *)

Lemma sum_map_add {A} (f g : A -> nat) l :
  fold_right Nat.add 0%nat (map (fun k => (f k + g k)%nat) l)
  = (fold_right Nat.add 0%nat (map f l) + fold_right Nat.add 0%nat (map g l))%nat.
Proof. induction l as [|a l IH]; cbn; [reflexivity|]. rewrite IH. lia. Qed.

Lemma sum_eq_indicator a n : forall i,
  fold_right Nat.add 0%nat (map (fun k => if Nat.eq_dec a k then 1%nat else 0%nat) (seq i n))
  = if (i <=? a)%nat && (a <? i + n)%nat then 1%nat else 0%nat.
Proof.
  induction n as [|n IH]; intros i.
  - cbn [seq map fold_right].
    destruct (i <=? a)%nat eqn:E1; [|reflexivity].
    destruct (a <? i + 0)%nat eqn:E2; [|reflexivity].
    apply Nat.leb_le in E1. apply Nat.ltb_lt in E2. lia.
  - cbn [seq map fold_right]. rewrite IH.
    destruct (Nat.eq_dec a i) as [E|E];
      destruct (S i <=? a)%nat eqn:A1, (a <? S i + n)%nat eqn:A2,
               (i <=? a)%nat eqn:B1, (a <? i + S n)%nat eqn:B2; cbn; try reflexivity;
        repeat match goal with
               | H : (_ <=? _)%nat = true |- _ => apply Nat.leb_le in H
               | H : (_ <=? _)%nat = false |- _ => apply Nat.leb_gt in H
               | H : (_ <? _)%nat = true |- _ => apply Nat.ltb_lt in H
               | H : (_ <? _)%nat = false |- _ => apply Nat.ltb_ge in H
               end; lia.
Qed.

(** The counts of the values below [n] add up to the number of labels. *)
Lemma count_occ_sum labels n :
  Forall (fun l => (l < n)%nat) labels ->
  fold_right Nat.add 0%nat (map (count_occ Nat.eq_dec labels) (seq 0 n)) = length labels.
Proof.
  induction 1 as [|a labels Ha _ IH].
  - cbn [count_occ length]. induction (seq 0 n) as [|k l IHl]; cbn; [reflexivity|assumption].
  - rewrite (map_ext _ (fun k => ((if Nat.eq_dec a k then 1 else 0)
                                   + count_occ Nat.eq_dec labels k)%nat)).
    + rewrite sum_map_add, IH, sum_eq_indicator.
      assert (E : (a <? 0 + n)%nat = true) by (apply Nat.ltb_lt; lia).
      rewrite E. reflexivity.
    + intros k. cbn [count_occ]. destruct (Nat.eq_dec a k); reflexivity.
Qed.

Lemma bincount_sum labels : fold_right Nat.add 0%nat (bincount labels) = length labels.
Proof.
  destruct labels as [|a l] eqn:E; [reflexivity|]. rewrite <- E.
  assert (Hb : bincount labels = map (count_occ Nat.eq_dec labels) (seq 0 (S (list_max labels))))
    by (rewrite E; reflexivity).
  rewrite Hb. apply count_occ_sum, list_max_lt.
Qed.

Lemma tsum_fractions (cs : list nat) (N : R) :
  N <> 0 ->
  tsum (map (fun c => fdiv (of_nat c) (Fin N)) cs)
  = Fin (INR (fold_right Nat.add 0%nat cs) / N).
Proof.
  intros HN. induction cs as [|c cs IH].
  - cbn. f_equal. field. assumption.
  - cbn [map fold_right]. rewrite tsum_cons, IH. unfold of_nat. cbn [fdiv].
    rewrite Reqb_false by assumption. cbn [fadd]. f_equal. rewrite plus_INR. field.
    assumption.
Qed.

Lemma data_priors_sum labels : labels <> [] -> tsum (data_priors labels) = Fin 1.
Proof.
  intros Hne. unfold data_priors.
  assert (HN : INR (length labels) <> 0).
  { apply not_0_INR. destruct labels; [contradiction|cbn; lia]. }
  unfold of_nat at 2. rewrite (tsum_fractions _ _ HN), bincount_sum. f_equal.
  field. assumption.
Qed.

(** X7: without an external prior, [_get_priors_and_weights] on a non-empty
    label vector returns the constant weight 1 and the empirical prior: one
    probability per class up to the largest label, positive for each class
    that occurs, and the probabilities sum to 1. *)
Theorem empirical_prior_distribution (labels : list nat) :
  labels <> [] ->
  exists p,
    _get_priors_and_weights labels None = Ok (p, Wscalar (Fin 1)) /\
    length p = S (list_max labels) /\
    Forall probability p /\
    tsum p = Fin 1 /\
    (forall l, In l labels -> exists q, nth_error p l = Some (Fin q) /\ 0 < q).
Proof.
  intros Hne. exists (data_priors labels).
  split; [reflexivity|].
  split; [rewrite data_priors_length; apply bincount_length_eq; assumption|].
  split; [apply data_priors_probability|].
  split; [apply data_priors_sum; assumption|].
  intros l Hl. eexists. split.
  - rewrite <- (data_priors_nth labels l Hl). apply nth_error_nth'.
    rewrite data_priors_length. apply bincount_length. assumption.
  - apply data_prior_pos. assumption.
Qed.

Lemma empirical_prior_distribution_witness :
  exists p,
    _get_priors_and_weights [0; 2; 2]%nat None = Ok (p, Wscalar (Fin 1)) /\
    length p = 3%nat /\ tsum p = Fin 1.
Proof.
  destruct (empirical_prior_distribution [0; 2; 2]%nat) as (p & H1 & H2 & _ & H3 & _).
  - discriminate.
  - exists p. auto.
Defined.

(** ** LogLoss and Brier: the empirical prior as external prior *)

Lemma valid_data_priors labels : valid_priors (Some (data_priors labels)) labels.
Proof. apply (valid_the_prior None labels). exact I. Qed.

Lemma LogLoss_data_priors lp labels b :
  wf_matrix lp -> nrows lp = length labels ->
  Forall (fun l => (l < ncols lp)%nat) labels ->
  LogLoss lp labels (PyBool b) (Some (data_priors labels)) = LogLoss lp labels (PyBool b) None.
Proof.
  intros Hwf Hn Hl. pose proof (valid_data_priors labels) as Hv.
  pose proof (logloss_terms_the_prior lp labels None) as Ht. cbn [the_prior] in Ht.
  destruct b.
  - rewrite (LogLoss_norm lp labels (Some (data_priors labels))) by assumption.
    rewrite (LogLoss_norm lp labels None) by (try assumption; exact I).
    cbn [the_prior]. rewrite Ht. reflexivity.
  - unfold LogLoss.
    rewrite (LogLoss_rec_unnorm 1 lp labels (Some (data_priors labels))) by assumption.
    rewrite (LogLoss_rec_unnorm 1 lp labels None) by (try assumption; exact I).
    rewrite Ht. reflexivity.
Qed.

Lemma Brier_data_priors lp labels b :
  nrows lp = length labels ->
  Forall (fun l => (l < ncols lp)%nat) labels ->
  Brier lp labels (PyBool b) (Some (data_priors labels)) = Brier lp labels (PyBool b) None.
Proof.
  intros Hn Hl. pose proof (valid_data_priors labels) as Hv.
  pose proof (brier_rows_the_prior lp labels None) as Ht. cbn [the_prior] in Ht.
  destruct b.
  - rewrite (Brier_norm lp labels (Some (data_priors labels))) by assumption.
    rewrite (Brier_norm lp labels None) by (try assumption; exact I).
    cbn [the_prior]. rewrite Ht. reflexivity.
  - unfold Brier.
    rewrite (Brier_rec_unnorm 1 lp labels (Some (data_priors labels))) by assumption.
    rewrite (Brier_rec_unnorm 1 lp labels None) by (try assumption; exact I).
    rewrite Ht. reflexivity.
Qed.

(** X8: passing the class frequencies of the test labels as the external
    prior changes nothing: [LogLoss] and [Brier], normalized or not, return
    what they return without an external prior. *)
Theorem empirical_prior_as_external_prior (log_probs : matrix) (labels : list nat) (b : bool) :
  wf_matrix log_probs -> nrows log_probs = length labels ->
  Forall (fun l => (l < ncols log_probs)%nat) labels ->
  LogLoss log_probs labels (PyBool b) (Some (data_priors labels))
    = LogLoss log_probs labels (PyBool b) None /\
  Brier log_probs labels (PyBool b) (Some (data_priors labels))
    = Brier log_probs labels (PyBool b) None.
Proof.
  intros Hwf Hn Hl. split; [apply LogLoss_data_priors|apply Brier_data_priors]; assumption.
Qed.

Lemma empirical_prior_as_external_prior_witness :
  LogLoss lp_two_certain [0; 1]%nat (PyBool true) (Some (data_priors [0; 1]%nat))
    = LogLoss lp_two_certain [0; 1]%nat (PyBool true) None /\
  Brier lp_two_certain [0; 1]%nat (PyBool true) (Some (data_priors [0; 1]%nat))
    = Brier lp_two_certain [0; 1]%nat (PyBool true) None.
Proof.
  apply (empirical_prior_as_external_prior lp_two_certain [0; 1]%nat true).
  - repeat constructor.
  - reflexivity.
  - repeat constructor.
Defined.

(** ** LogLoss and Brier: a label beyond the columns *)

Lemma index_errors {A} (v : list A) i : index v i = Err IndexError \/ exists x, index v i = Ok x.
Proof. unfold index. destruct (nth_error v i); [right; eexists|left]; reflexivity. Qed.

Lemma true_class_losses_raises lp labels l :
  wf_matrix lp -> nrows lp = length labels -> In l labels -> (ncols lp <= l)%nat ->
  true_class_losses lp labels = Err IndexError.
Proof.
  intros Hwf Hn Hin Hl. unfold true_class_losses.
  destruct (In_nth_error _ _ Hin) as [i Hi].
  apply (mapM_err _ IndexError _ (i, l)).
  - eapply nth_error_In. rewrite (combine_seq_nth_error labels 0 i l Hi). reflexivity.
  - unfold index2.
    assert (Hlt : (i < nrows lp)%nat)
      by (rewrite Hn; apply nth_error_Some; rewrite Hi; discriminate).
    unfold nrows in Hlt. rewrite (index_nth _ _ [] Hlt). cbn [bind].
    pose proof (wf_matrix_nth lp i Hwf Hlt) as Hlen.
    unfold index. replace (nth_error (nth i (rows lp) []) l) with (@None fl); [reflexivity|].
    symmetry. apply nth_error_None. lia.
  - intros [j k] _. unfold index2.
    destruct (index_errors (rows lp) j) as [E|[r E]]; rewrite E; cbn [bind];
      [left; reflexivity|].
    destruct (index_errors r k) as [E'|[x E']]; rewrite E'; cbn [bind];
      [left; reflexivity|right; eexists; reflexivity].
Qed.

Lemma prior_norm_factor_LogLoss labels n :
  n = length labels ->
  exists s, LogLoss_rec 1 (prior_log_probs (data_priors labels) n) labels (PyBool false)
              (Some (data_priors labels)) = Ok s.
Proof.
  intros Hn. eexists. apply LogLoss_rec_unnorm.
  - apply prior_log_probs_wf.
  - rewrite prior_log_probs_nrows. assumption.
  - rewrite prior_log_probs_ncols. apply (the_prior_valid None labels I).
  - apply valid_data_priors.
Qed.

Lemma prior_norm_factor_Brier labels n :
  n = length labels ->
  exists s, Brier_rec 1 (prior_log_probs (data_priors labels) n) labels (PyBool false)
              (Some (data_priors labels)) = Ok s.
Proof.
  intros Hn. eexists. apply Brier_rec_unnorm.
  - rewrite prior_log_probs_nrows. assumption.
  - rewrite prior_log_probs_ncols. apply (the_prior_valid None labels I).
  - apply valid_data_priors.
Qed.

Lemma LogLoss_no_prior_eq lp labels b :
  LogLoss lp labels (PyBool b) None
  = (norm_factor <-
       (if b
        then LogLoss_rec 1 (prior_log_probs (data_priors labels) (nrows lp)) labels
               (PyBool false) (Some (data_priors labels))
        else Ok (Fin 1)) ;;
     wlosses <- LogLoss_wlosses lp labels (Wscalar (Fin 1)) ;;
     Ok (fdiv (tmean wlosses) norm_factor)).
Proof. reflexivity. Qed.

Lemma Brier_no_prior_eq lp labels b :
  Brier lp labels (PyBool b) None
  = (norm_factor <-
       (if b
        then Brier_rec 1 (prior_log_probs (data_priors labels) (nrows lp)) labels
               (PyBool false) (Some (data_priors labels))
        else Ok (Fin 1)) ;;
     wl <- Brier_wlosses lp labels (Wscalar (Fin 1)) ;;
     Ok (fdiv (tmean2 wl) norm_factor)).
Proof. reflexivity. Qed.

(** X9: when some label is not below the number of columns of the
    log-probabilities, [LogLoss] and [Brier], normalized or not, raise
    IndexError. *)
Theorem label_beyond_columns_raises (log_probs : matrix) (labels : list nat) (l : nat)
    (b : bool) :
  wf_matrix log_probs -> nrows log_probs = length labels ->
  In l labels -> (ncols log_probs <= l)%nat ->
  LogLoss log_probs labels (PyBool b) None = Err IndexError /\
  Brier log_probs labels (PyBool b) None = Err IndexError.
Proof.
  intros Hwf Hn Hin Hl. split.
  - rewrite LogLoss_no_prior_eq.
    assert (Hw : LogLoss_wlosses log_probs labels (Wscalar (Fin 1)) = Err IndexError).
    { unfold LogLoss_wlosses.
      rewrite (true_class_losses_raises log_probs labels l); auto. }
    destruct b.
    + destruct (prior_norm_factor_LogLoss labels (nrows log_probs) Hn) as [s Hs].
      rewrite Hs. cbn [bind]. rewrite Hw. reflexivity.
    + cbn [bind]. rewrite Hw. reflexivity.
  - rewrite Brier_no_prior_eq.
    assert (Hw : Brier_wlosses log_probs labels (Wscalar (Fin 1)) = Err IndexError).
    { unfold Brier_wlosses. rewrite (onehot_encode_raises labels _ l); auto. }
    destruct b.
    + destruct (prior_norm_factor_Brier labels (nrows log_probs) Hn) as [s Hs].
      rewrite Hs. cbn [bind]. rewrite Hw. reflexivity.
    + cbn [bind]. rewrite Hw. reflexivity.
Qed.

Lemma label_beyond_columns_raises_witness :
  LogLoss lp_two_certain [0; 2]%nat (PyBool true) None = Err IndexError /\
  Brier lp_two_certain [0; 2]%nat (PyBool true) None = Err IndexError.
Proof.
  apply (label_beyond_columns_raises lp_two_certain [0; 2]%nat 2 true).
  - repeat constructor.
  - reflexivity.
  - right. left. reflexivity.
  - cbn. lia.
Defined.

(** ** The scores of an empty test set *)

Lemma tmean_nil : tmean [] = NaN.
Proof. fl_eval. reflexivity. Qed.

Lemma fdiv_NaN_l x : fdiv NaN x = NaN.
Proof. reflexivity. Qed.

Lemma LogLoss_empty K b : LogLoss (Mat K []) [] (PyBool b) None = Ok NaN.
Proof. destruct b; fl_eval; reflexivity. Qed.

Lemma Brier_wlosses_empty K w :
  w = Wscalar (Fin 1) \/ w = Wvec [] -> Brier_wlosses (Mat K []) [] w = Ok (Mat K []).
Proof.
  intros Hw. unfold Brier_wlosses, onehot_encode, broadcast2, map_matrix, nrows.
  cbn [ncols rows map mapM bind length]. rewrite Nat.eqb_refl. cbn [negb Nat.eqb zip_with bind].
  destruct Hw as [-> | ->]; reflexivity.
Qed.

Lemma Brier_empty K b : Brier (Mat K []) [] (PyBool b) None = Ok NaN.
Proof.
  rewrite Brier_no_prior_eq, Brier_wlosses_empty by (left; reflexivity).
  unfold tmean2. cbn [rows concat bind]. rewrite tmean_nil.
  destruct b; [|reflexivity].
  unfold Brier_rec. cbn [_get_priors_and_weights data_priors bincount map gather mapM bind
                          broadcast1 length Nat.eqb zip_with truthy].
  unfold prior_log_probs, expand, map_matrix. cbn [length repeat nrows rows map ncols].
  rewrite Brier_wlosses_empty by (right; reflexivity). reflexivity.
Qed.

Lemma CostFunction_empty K :
  (0 < K)%nat ->
  CostFunction (Mat K []) [] None false = Ok NaN /\
  CostFunction (Mat K []) [] None true = Err RuntimeError.
Proof.
  intros HK. unfold CostFunction, CostFunction_run. cbn [ncols].
  rewrite (normalize_default_cost K HK). cbn [fst].
  unfold CostFunction_score, _decisions, map_matrix, lookup_costs, broadcast_index.
  cbn [ncols rows map zero_one_cost]. rewrite Nat.eqb_refl.
  cbn [mapM bind length Nat.eqb combine]. rewrite tmean_nil. split; [reflexivity|].
  unfold _decisions1. cbn [data_priors bincount map length ncols].
  destruct K as [|K]; [lia|]. reflexivity.
Qed.

Lemma ece_loop_no_samples target bs st : ece_loop [] [] target st bs = Ok st.
Proof.
  induction bs as [|[low high] bs IH]; [reflexivity|].
  cbn [ece_loop]. rewrite ece_step_empty by constructor. cbn [bind]. exact IH.
Qed.

Lemma ECE_empty K target M : ECE (Scores2 (Mat K [])) target M = Err ZeroDivisionError.
Proof.
  unfold ECE, ECE_values. cbn [confs_preds map_matrix rows ncols map max_rows mapM bind
                                n_samples nrows length].
  rewrite ece_loop_no_samples. reflexivity.
Qed.

(** X10: on a test set without samples, for any positive number of
    classes, [LogLoss] and [Brier] return NaN whether normalized or not,
    [CostFunction] with the default costs returns NaN unnormalized and
    raises RuntimeError normalized, and [ECE] raises ZeroDivisionError for
    every number of bins. *)
Theorem scores_of_empty_test_set (K : nat) (b : bool) :
  (0 < K)%nat ->
  LogLoss (Mat K []) [] (PyBool b) None = Ok NaN /\
  Brier (Mat K []) [] (PyBool b) None = Ok NaN /\
  CostFunction (Mat K []) [] None false = Ok NaN /\
  CostFunction (Mat K []) [] None true = Err RuntimeError /\
  (forall M, ECE (Scores2 (Mat K [])) [] M = Err ZeroDivisionError).
Proof.
  intros HK. split; [apply LogLoss_empty|]. split; [apply Brier_empty|].
  destruct (CostFunction_empty K HK) as [H1 H2]. split; [exact H1|]. split; [exact H2|].
  intros M. apply ECE_empty.
Qed.

Lemma scores_of_empty_test_set_witness :
  LogLoss (Mat 3 []) [] (PyBool true) None = Ok NaN /\
  Brier (Mat 3 []) [] (PyBool true) None = Ok NaN /\
  CostFunction (Mat 3 []) [] None false = Ok NaN /\
  CostFunction (Mat 3 []) [] None true = Err RuntimeError /\
  (forall M, ECE (Scores2 (Mat 3 [])) [] M = Err ZeroDivisionError).
Proof. apply (scores_of_empty_test_set 3 true). lia. Defined.

(** ** CostFunction: the normalized score and the classes of the labels *)

Lemma normalize_cost_valid C K :
  (0 < K)%nat -> valid_cost C K ->
  exists c1,
    normalize_cost (match C with None => default_cost K | Some c => c end) = Ok c1 /\
    wf_matrix c1 /\ ncols c1 = K /\ (0 < nrows c1)%nat /\
    Forall (Forall fin_nonneg) (rows c1).
Proof.
  intros HK HC.
  assert (Hok : cost_ok (match C with None => default_cost K | Some c => c end) K).
  { destruct C as [c|]; [exact HC|apply default_cost_ok; assumption]. }
  destruct (normalize_cost_ok _ K Hok) as (c1 & H1 & H2 & H3 & H4 & H5).
  exists c1. repeat (split; [assumption|]). split; [|assumption].
  rewrite H4. apply Hok.
Qed.

Lemma CostFunction_score_norm_raises lp labels c1 c :
  CostFunction_score lp labels c1 false = Ok c ->
  length (data_priors labels) <> ncols c1 ->
  CostFunction_score lp labels c1 true = Err RuntimeError.
Proof.
  unfold CostFunction_score. intros Hf Hlen.
  destruct (_decisions c1 (map_matrix fexp lp)) as [ds|e]; [|discriminate]. cbn [bind] in *.
  destruct (lookup_costs c1 ds labels) as [costs|e]; [|discriminate]. cbn [bind] in *.
  unfold _decisions1. apply Nat.eqb_neq in Hlen. rewrite Hlen. reflexivity.
Qed.

(** X11: on valid inputs whose labels do not reach the last class (the
    largest label plus one is not the number of columns), the normalized
    [CostFunction] raises RuntimeError, with the default costs and with any
    cost matrix, although the unnormalized score exists. *)
Theorem CostFunction_norm_needs_last_class (log_probs : matrix) (labels : list nat)
    (C : option matrix) :
  (0 < ncols log_probs)%nat -> (0 < nrows log_probs)%nat ->
  nrows log_probs = length labels ->
  Forall (fun l => (l < ncols log_probs)%nat) labels ->
  valid_cost C (ncols log_probs) ->
  S (list_max labels) <> ncols log_probs ->
  (exists c, CostFunction log_probs labels C false = Ok (Fin c)) /\
  CostFunction log_probs labels C true = Err RuntimeError.
Proof.
  intros HK HN Hn Hl HC Hmax.
  destruct (normalize_cost_valid C _ HK HC) as (c1 & H1 & H2 & H3 & H4 & H5).
  destruct (CostFunction_score_nonneg log_probs labels c1 H2 H3 H4 H5 HN Hn Hl)
    as (c & Hc & _ & _).
  unfold CostFunction, CostFunction_run. rewrite H1. cbn [fst].
  split; [exists c; exact Hc|].
  apply (CostFunction_score_norm_raises _ _ _ _ Hc).
  rewrite data_priors_length, bincount_length_eq, H3; [exact Hmax|].
  destruct labels; [cbn in Hn; lia|discriminate].
Qed.

Lemma CostFunction_norm_needs_last_class_witness :
  (exists c, CostFunction (Mat 3 [[Fin 0; Fin 0; Fin 0]]) [1%nat] None false = Ok (Fin c)) /\
  CostFunction (Mat 3 [[Fin 0; Fin 0; Fin 0]]) [1%nat] None true = Err RuntimeError.
Proof.
  apply (CostFunction_norm_needs_last_class (Mat 3 [[Fin 0; Fin 0; Fin 0]]) [1%nat] None).
  - cbn. lia.
  - cbn. lia.
  - reflexivity.
  - repeat constructor.
  - exact I.
  - cbn. lia.
Defined.

(** ** CostFunction: normalizing a normalized cost matrix *)

Lemma fmin_fsub a b m :
  finite a -> finite b -> finite m -> fmin (fsub a m) (fsub b m) = fsub (fmin a b) m.
Proof.
  destruct a, b, m; cbn; intros Ha Hb Hm; try contradiction.
  unfold fmin. cbn [is_nan orb flt]. rewrite Rltb_shift.
  destruct (Rltb r0 r); reflexivity.
Qed.

Lemma fmin_finite a b : finite a -> finite b -> finite (fmin a b).
Proof.
  destruct a, b; cbn; intros Ha Hb; try contradiction.
  unfold fmin. cbn [is_nan orb flt]. destruct (Rltb r0 r); exact I.
Qed.

Lemma zip_fmin_fsub m : forall a b,
  Forall finite m -> Forall finite a -> Forall finite b ->
  zip_with fmin (zip_with fsub a m) (zip_with fsub b m) = zip_with fsub (zip_with fmin a b) m.
Proof.
  induction m as [|z m IH]; intros a b Hm Ha Hb.
  - destruct a, b; reflexivity.
  - destruct a as [|x a]; [reflexivity|]. destruct b as [|y b]; [reflexivity|].
    cbn [zip_with]. rewrite fmin_fsub;
      [|apply (Forall_inv Ha)|apply (Forall_inv Hb)|apply (Forall_inv Hm)].
    f_equal. apply IH; eapply Forall_inv_tail; eassumption.
Qed.

Lemma zip_fmin_finite a b :
  Forall finite a -> Forall finite b -> Forall finite (zip_with fmin a b).
Proof.
  intros Ha Hb. apply zip_with_Forall. intros x y Hx Hy.
  rewrite Forall_forall in Ha, Hb. apply fmin_finite; auto.
Qed.

Lemma fold_fmin_fsub m rs : forall a,
  Forall finite m -> Forall finite a -> Forall (Forall finite) rs ->
  fold_left (zip_with fmin) (map (fun r => zip_with fsub r m) rs) (zip_with fsub a m)
  = zip_with fsub (fold_left (zip_with fmin) rs a) m.
Proof.
  induction rs as [|r rs IH]; intros a Hm Ha Hrs; [reflexivity|].
  cbn [map fold_left]. rewrite zip_fmin_fsub; [|assumption|assumption|apply (Forall_inv Hrs)].
  apply IH; [assumption| |apply (Forall_inv_tail Hrs)].
  apply zip_fmin_finite; [assumption|apply (Forall_inv Hrs)].
Qed.

Lemma fold_fmin_finite rs : forall a,
  Forall finite a -> Forall (Forall finite) rs -> Forall finite (fold_left (zip_with fmin) rs a).
Proof.
  induction rs as [|r rs IH]; intros a Ha Hrs; [exact Ha|].
  cbn [fold_left]. apply IH; [|apply (Forall_inv_tail Hrs)].
  apply zip_fmin_finite; [assumption|apply (Forall_inv Hrs)].
Qed.

Lemma fold_fmin_length rs : forall a,
  Forall (fun r : list fl => length r = length a) rs ->
  length (fold_left (zip_with fmin) rs a) = length a.
Proof.
  induction rs as [|r rs IH]; intros a Hrs; [reflexivity|].
  cbn [fold_left]. pose proof (Forall_inv Hrs) as Hr. cbn beta in Hr.
  assert (Hz : length (zip_with fmin a r) = length a) by (apply zip_with_length; congruence).
  rewrite IH; [exact Hz|]. rewrite Hz. apply (Forall_inv_tail Hrs).
Qed.

Lemma zip_fsub_self m : Forall finite m -> zip_with fsub m m = repeat (Fin 0) (length m).
Proof.
  induction 1 as [|x m Hx _ IH]; [reflexivity|].
  cbn [zip_with length repeat]. rewrite IH. f_equal.
  destruct x; cbn in Hx; try contradiction. cbn. f_equal. ring.
Qed.

(** The minima of the columns of a normalized cost matrix are 0. *)
Lemma col_min_normalized c K c1 :
  cost_ok c K -> normalize_cost c = Ok c1 -> col_min c1 = Ok (repeat (Fin 0) K).
Proof.
  intros (Hwf & HK & HN & Hfin) Hn. unfold normalize_cost, col_min in Hn.
  unfold wf_matrix in Hwf. unfold nrows in HN.
  destruct (rows c) as [|r rs] eqn:Er; [cbn in HN; lia|]. cbn [bind] in Hn.
  inversion Hn as [Hc1]. unfold col_min. cbn [rows map].
  set (m := fold_left (zip_with fmin) rs r).
  pose proof (Forall_inv Hfin) as Hr. pose proof (Forall_inv_tail Hfin) as Hrs.
  assert (Hm : Forall finite m) by (apply fold_fmin_finite; assumption).
  assert (Hlen : length m = K).
  { unfold m. rewrite fold_fmin_length.
    - rewrite <- HK. apply (Forall_inv Hwf).
    - pose proof (Forall_inv Hwf) as H0. cbn beta in H0. rewrite H0.
      apply (Forall_inv_tail Hwf). }
  rewrite fold_fmin_fsub by assumption. fold m.
  rewrite zip_fsub_self by assumption. rewrite Hlen. reflexivity.
Qed.

Lemma normalize_cost_idem c K c1 :
  cost_ok c K -> normalize_cost c = Ok c1 -> normalize_cost c1 = Ok c1.
Proof.
  intros Hok Hn. pose proof (col_min_normalized c K c1 Hok Hn) as Hmin.
  destruct (normalize_cost_ok c K Hok) as (c1' & H1 & Hwf & HK & _ & _).
  rewrite Hn in H1. inversion H1; subst c1'.
  unfold normalize_cost. rewrite Hmin. cbn [bind]. destruct c1 as [k rs].
  cbn [ncols rows] in *. f_equal. f_equal. unfold wf_matrix in Hwf. cbn [ncols rows] in Hwf.
  clear Hn Hmin H1 Hok. induction rs as [|r rs IH]; [reflexivity|].
  cbn [map]. rewrite zip_with_repeat_r; auto using fsub_0_r.
  - f_equal. apply IH. apply (Forall_inv_tail Hwf).
  - pose proof (Forall_inv Hwf) as H0. cbn beta in H0. congruence.
Qed.

(** X12: the array that [CostFunction] has normalized in place has 0 as
    the minimum of every column, and normalizing it again changes nothing:
    a later call with the same array leaves it as it is and returns the
    score of the first call. *)
Theorem CostFunction_renormalization (c : matrix) (K : nat) (c1 : matrix) :
  cost_ok c K ->
  normalize_cost c = Ok c1 ->
  col_min c1 = Ok (repeat (Fin 0) K) /\
  normalize_cost c1 = Ok c1 /\
  (forall log_probs labels norm,
     snd (CostFunction_run log_probs labels (Some c) norm) = Some c1 /\
     CostFunction_run log_probs labels (Some c1) norm
       = (CostFunction log_probs labels (Some c) norm, Some c1)).
Proof.
  intros Hok Hn. split; [eapply col_min_normalized; eassumption|].
  pose proof (normalize_cost_idem c K c1 Hok Hn) as Hidem.
  split; [exact Hidem|].
  intros lp labels norm. unfold CostFunction, CostFunction_run. rewrite Hn, Hidem.
  split; reflexivity.
Qed.

Lemma cost_1234_ok : cost_ok cost_1234 2.
Proof.
  unfold cost_ok, cost_1234, wf_matrix, nrows. cbn [rows ncols length].
  split; [repeat constructor|]. split; [reflexivity|]. split; [lia|]. repeat constructor.
Qed.

Lemma normalize_cost_1234 :
  normalize_cost cost_1234 = Ok (Mat 2 [[Fin 0; Fin 0]; [Fin 2; Fin 2]]).
Proof.
  unfold cost_1234. fl_eval.
  repeat match goal with |- context [Fin ?x] =>
    lazymatch x with
    | 0 => fail | 2 => fail
    | _ => first [replace x with 0 by lra | replace x with 2 by lra]
    end end.
  reflexivity.
Qed.

Lemma CostFunction_renormalization_witness :
  col_min (Mat 2 [[Fin 0; Fin 0]; [Fin 2; Fin 2]]) = Ok (repeat (Fin 0) 2) /\
  normalize_cost (Mat 2 [[Fin 0; Fin 0]; [Fin 2; Fin 2]])
    = Ok (Mat 2 [[Fin 0; Fin 0]; [Fin 2; Fin 2]]).
Proof.
  destruct (CostFunction_renormalization cost_1234 2 (Mat 2 [[Fin 0; Fin 0]; [Fin 2; Fin 2]])
              cost_1234_ok normalize_cost_1234) as (H1 & H2 & _).
  split; assumption.
Defined.

(** ** ECE: the bins and what the loop records *)

Lemma nat_sum_app (l l' : list nat) :
  fold_right Nat.add 0%nat (l ++ l')
  = (fold_right Nat.add 0%nat l + fold_right Nat.add 0%nat l')%nat.
Proof. induction l as [|a l IH]; cbn; [reflexivity|]. rewrite IH. lia. Qed.

Lemma bin_limits_order M k :
  (0 < M)%nat -> 0 <= INR k / INR M <= INR (S k) / INR M.
Proof.
  intros HM. assert (H : 0 < INR M) by (apply lt_0_INR; assumption).
  pose proof (pos_INR k) as Hk. rewrite S_INR. unfold Rdiv.
  pose proof (Rinv_0_lt_compat _ H) as Hi. split.
  - apply Rmult_le_pos; lra.
  - apply Rmult_le_compat_r; lra.
Qed.

Lemma in_bin_split lo hi c :
  0 <= lo <= hi ->
  (b2n (in_bin 0 lo c) + b2n (in_bin lo hi c))%nat = b2n (in_bin 0 hi c).
Proof.
  intros H. destruct c as [r| | |]; try reflexivity.
  unfold in_bin, flt, fle, Rltb, Rleb.
  destruct (Rlt_dec 0 r), (Rle_dec r lo), (Rlt_dec lo r), (Rle_dec r hi); cbn;
    try reflexivity; lra.
Qed.

(** The bins are disjoint and cover the confidences above 0 and up to 1:
    among the first [k] of the [M] bins, a confidence lies in one bin when
    it is above 0 and at most [k/M], and in none otherwise. *)
Lemma in_bin_partition M c k :
  (0 < M)%nat ->
  fold_right Nat.add 0%nat
    (map (fun i => b2n (in_interval (equal_width_bin M i) (c, (0%nat, 0%nat)))) (seq 0 k))
  = b2n (in_bin 0 (INR k / INR M) c).
Proof.
  intros HM. induction k as [|k IH].
  - cbn [seq map fold_right]. replace (INR 0 / INR M) with 0 by (cbn; unfold Rdiv; ring).
    destruct c as [r| | |]; try reflexivity.
    unfold in_bin, flt, fle, Rltb, Rleb. destruct (Rlt_dec 0 r), (Rle_dec r 0); cbn;
      try reflexivity; lra.
  - rewrite seq_S, map_app, nat_sum_app, IH. cbn [map fold_right Nat.add].
    rewrite Nat.add_0_r. apply in_bin_split. apply bin_limits_order. assumption.
Qed.

Lemma filter_length_b2n {A} (p : A -> bool) l :
  length (filter p l) = fold_right Nat.add 0%nat (map (fun x => b2n (p x)) l).
Proof.
  induction l as [|x l IH]; [reflexivity|]. cbn [filter map fold_right].
  destruct (p x); cbn [length b2n]; lia.
Qed.

(** Summing over the bins the number of members is summing over the
    samples the number of bins that hold them. *)
Lemma members_count_swap (S : list sample) (bs : list (R * R)) :
  fold_right Nat.add 0%nat (map (fun b => length (filter (in_interval b) S)) bs)
  = fold_right Nat.add 0%nat
      (map (fun s => fold_right Nat.add 0%nat (map (fun b => b2n (in_interval b s)) bs)) S).
Proof.
  induction S as [|s S IH].
  - cbn. induction bs as [|b bs IHb]; cbn; [reflexivity|assumption].
  - cbn [map fold_right]. rewrite <- IH. clear IH.
    induction bs as [|b bs IHb]; [reflexivity|].
    cbn [map fold_right]. rewrite IHb. cbn [filter].
    destruct (in_interval b s); cbn [length b2n]; lia.
Qed.

Lemma INR_div_self M : (0 < M)%nat -> INR M / INR M = 1.
Proof. intros HM. apply Rinv_r. apply not_0_INR. lia. Qed.

(** The members of the [M] bins, counted: the samples whose confidence is
    above 0 and at most 1. *)
Lemma members_total (S : list sample) M :
  (0 < M)%nat ->
  fold_right Nat.add 0%nat
    (map (fun b => length (filter (in_interval b) S)) (map (equal_width_bin M) (seq 0 M)))
  = length (filter binned (map fst S)).
Proof.
  intros HM. rewrite members_count_swap, filter_length_b2n, map_map.
  f_equal. apply map_ext. intros s. rewrite map_map.
  unfold binned. rewrite <- (INR_div_self M HM).
  rewrite <- (in_bin_partition M (fst s) M HM). reflexivity.
Qed.

Lemma members_le (S : list sample) M :
  (fold_right Nat.add 0%nat
     (map (fun b => length (filter (in_interval b) S)) (map (equal_width_bin M) (seq 0 M)))
   <= length S)%nat.
Proof.
  destruct M as [|M]; [cbn; lia|].
  rewrite members_total by lia. rewrite <- (length_map fst S). apply filter_length_le.
Qed.

(** One iteration of the loop, in closed form. *)
Lemma ece_step_state (S : list sample) st b :
  ece_step (map fst S) (map (fun s => fst (snd s)) S) (map (fun s => snd (snd s)) S) st b
  = Ok (add_bin S st b).
Proof.
  destruct b as [low high]. unfold ece_step, add_bin.
  change (map (in_bin low high) (map fst S))
    with (map (fun c => in_interval (low, high) (c, (0%nat, 0%nat))) (map fst S)).
  rewrite map_map.
  rewrite (map_ext (fun x => in_interval (low, high) (fst x, (0%nat, 0%nat)))
                   (in_interval (low, high))) by reflexivity.
  rewrite count_occ_map_filter.
  set (ss := filter (in_interval (low, high)) S).
  destruct (Nat.eqb (length ss) 0) eqn:E; [reflexivity|].
  rewrite !masked_map_filter. fold ss. cbn [bind]. f_equal.
  unfold bin_gap, bin_acc, bin_conf, tmean. rewrite zip_with_map, !length_map.
  rewrite (map_ext (fun s => if Nat.eqb (fst (snd s)) (snd (snd s)) then Fin 1 else Fin 0)
                   (fun s => if correct s then Fin 1 else Fin 0)) by reflexivity.
  unfold ind. rewrite (tsum_indicator correct ss). reflexivity.
Qed.

Lemma ece_loop_state (S : list sample) bs : forall st,
  ece_loop (map fst S) (map (fun s => fst (snd s)) S) (map (fun s => snd (snd s)) S) st bs
  = Ok (fold_left (add_bin S) bs st).
Proof.
  induction bs as [|b bs IH]; intros st; [reflexivity|].
  cbn [ece_loop fold_left]. rewrite ece_step_state. cbn [bind]. apply IH.
Qed.

Lemma samples_fst confs preds target :
  length confs = length preds -> length preds = length target ->
  map fst (samples confs preds target) = confs.
Proof.
  intros H1 H2. apply combine_map_fst. rewrite length_combine. lia.
Qed.

Lemma samples_preds confs preds target :
  length confs = length preds -> length preds = length target ->
  map (fun s => fst (snd s)) (samples confs preds target) = preds.
Proof.
  intros H1 H2. rewrite <- (map_map snd fst). unfold samples.
  rewrite combine_map_snd by (rewrite length_combine; lia).
  apply combine_map_fst. assumption.
Qed.

Lemma samples_target confs preds target :
  length confs = length preds -> length preds = length target ->
  map (fun s => snd (snd s)) (samples confs preds target) = target.
Proof.
  intros H1 H2. rewrite <- (map_map snd snd). unfold samples.
  rewrite combine_map_snd by (rewrite length_combine; lia).
  apply combine_map_snd. assumption.
Qed.

(** The values [ECE] returns with [return_values=True], in closed form. *)
Lemma ECE_values_state (s : scores) (target : list nat) (M : nat) confs preds :
  confs_preds s = Ok (confs, preds) ->
  length confs = n_samples s -> length preds = n_samples s ->
  length target = n_samples s -> (0 < n_samples s)%nat ->
  let st := fold_left (add_bin (samples confs preds target))
                      (map (equal_width_bin M) (seq 0 M)) (EceState (Fin 0) [] [] [] []) in
  ECE_values s target M
  = Ok (fdiv (fmul (ece st) (Fin 100)) (of_nat (n_samples s)), st).
Proof.
  intros Hcp Hc Hp Ht HN st. unfold ECE_values. rewrite Hcp. cbn [bind].
  assert (H1 : length confs = length preds) by congruence.
  assert (H2 : length preds = length target) by congruence.
  rewrite bins_equal_width.
  pose proof (ece_loop_state (samples confs preds target)
                (map (equal_width_bin M) (seq 0 M)) (EceState (Fin 0) [] [] [] [])) as Hloop.
  rewrite (samples_fst confs preds target H1 H2) in Hloop.
  rewrite (samples_preds confs preds target H1 H2) in Hloop.
  rewrite (samples_target confs preds target H1 H2) in Hloop.
  rewrite Hloop. fold st. cbn [bind].
  unfold ece_percent. destruct (n_samples s) as [|n]; [lia|].
  destruct (counts st); reflexivity.
Qed.

Lemma confs_preds_ok s :
  valid_scores s ->
  exists confs preds,
    confs_preds s = Ok (confs, preds) /\
    length confs = n_samples s /\ length preds = n_samples s.
Proof.
  destruct s as [m|v]; cbn [valid_scores confs_preds n_samples].
  - intros [Hwf HK].
    destruct (max_rows_ok (map_matrix fexp m)) as (confs & preds & Hmax & Hc & Hp).
    + unfold wf_matrix, map_matrix in *. cbn [rows ncols]. apply Forall_map.
      eapply Forall_impl; [|exact Hwf]. cbn. intros r Hr. rewrite length_map. exact Hr.
    + exact HK.
    + exists confs, preds. split; [exact Hmax|].
      assert (Hn : nrows (map_matrix fexp m) = nrows m)
        by (unfold nrows, map_matrix; cbn [rows]; apply length_map).
      rewrite Hn in Hc, Hp. auto.
  - intros _. eexists. eexists. split; [reflexivity|]. rewrite !length_map. auto.
Qed.

Lemma in_interval_bounds lo hi (s : sample) :
  in_interval (lo, hi) s = true -> exists r, fst s = Fin r /\ lo < r <= hi.
Proof.
  unfold in_interval. cbn [fst snd]. destruct (fst s) as [r| | |]; cbn; try discriminate.
  unfold Rltb, Rleb. destruct (Rlt_dec lo r), (Rle_dec r hi); cbn; try discriminate.
  intros _. exists r. auto.
Qed.

Lemma tsum_in_interval lo hi (ss : list sample) :
  Forall (fun s => in_interval (lo, hi) s = true) ss ->
  exists c,
    tsum (map fst ss) = Fin c /\
    INR (length ss) * lo <= c <= INR (length ss) * hi /\
    (ss <> [] -> INR (length ss) * lo < c).
Proof.
  induction 1 as [|s ss Hs _ IH].
  - exists 0. cbn. split; [reflexivity|]. split; [lra|]. intros H; contradiction.
  - destruct IH as (c & Hc & Hb & _).
    destruct (in_interval_bounds lo hi s Hs) as (r & Hr & Hlo).
    exists (r + c). cbn [map]. rewrite tsum_cons, Hr, Hc. split; [reflexivity|].
    cbn [length]. rewrite S_INR. rewrite !Rmult_plus_distr_r, !Rmult_1_l.
    split; [lra|]. intros _. lra.
Qed.

Lemma div_bounds n lo hi c : 0 < n -> n * lo < c <= n * hi -> lo < c / n <= hi.
Proof.
  intros Hn [H1 H2]. pose proof (Rinv_0_lt_compat _ Hn) as Hi. unfold Rdiv. split.
  - replace lo with (n * lo * / n) by (field; lra). apply Rmult_lt_compat_r; assumption.
  - replace hi with (n * hi * / n) by (field; lra). apply Rmult_le_compat_r; lra.
Qed.

Lemma filter_correct_le (ss : list sample) :
  0 <= INR (length (filter correct ss)) <= INR (length ss).
Proof.
  split; [apply pos_INR|]. apply le_INR. apply filter_length_le.
Qed.

(** The record of a bin that holds a sample. *)
Lemma bin_values b (S : list sample) :
  let ss := filter (in_interval b) S in
  length ss <> 0%nat ->
  exists c,
    fst b < c <= snd b /\
    bin_conf ss = Fin c /\
    bin_acc ss = Fin (INR (length (filter correct ss)) / INR (length ss)) /\
    bin_gap ss
      = Fin (INR (length ss) * Rabs (c - INR (length (filter correct ss)) / INR (length ss))).
Proof.
  intros ss Hne. destruct b as [lo hi]. cbn [fst snd].
  assert (Hn : 0 < INR (length ss)) by (apply lt_0_INR; lia).
  destruct (tsum_in_interval lo hi ss) as (t & Ht & Hb & Hlt).
  { apply Forall_forall. intros s Hs. apply filter_In in Hs. apply Hs. }
  assert (Hss : ss <> []) by (intros E; rewrite E in Hne; apply Hne; reflexivity).
  specialize (Hlt Hss).
  exists (t / INR (length ss)). split; [apply div_bounds; [assumption|lra]|].
  unfold bin_conf, bin_acc, bin_gap, tmean. rewrite !length_map, Ht. unfold ind.
  rewrite (tsum_indicator correct ss). unfold of_nat. cbn [fdiv].
  rewrite !Reqb_false by lra. cbn [fsub fneg fadd fabs fmul]. auto.
Qed.







(** ** ECE: between 0 and 100 *)

Lemma bin_gap_bound b (S : list sample) :
  0 <= fst b -> snd b <= 1 ->
  let ss := filter (in_interval b) S in
  length ss <> 0%nat ->
  exists g, bin_gap ss = Fin g /\ 0 <= g <= INR (length ss).
Proof.
  intros Hlo Hhi ss Hne. destruct (bin_values b S Hne) as (c & Hc & _ & _ & Hg).
  fold ss in Hg. eexists. split; [exact Hg|].
  assert (Hn : 0 < INR (length ss)) by (apply lt_0_INR; lia).
  pose proof (filter_correct_le ss) as Hk.
  set (k := INR (length (filter correct ss))) in *. set (n := INR (length ss)) in *.
  assert (Hq : 0 <= k / n <= 1).
  { pose proof (Rinv_0_lt_compat _ Hn) as Hi. unfold Rdiv. split.
    - apply Rmult_le_pos; lra.
    - replace 1 with (n * / n) by (field; lra). apply Rmult_le_compat_r; lra. }
  assert (Ha : 0 <= Rabs (c - k / n) <= 1).
  { split; [apply Rabs_pos|]. apply Rabs_le. lra. }
  split.
  - apply Rmult_le_pos; lra.
  - apply (Rle_trans _ (n * 1)); [apply Rmult_le_compat_l; lra|lra].
Qed.

Lemma fold_add_bin_ece S bs : forall st e,
  Forall (fun b => 0 <= fst b /\ snd b <= 1) bs ->
  ece st = Fin e ->
  exists g,
    ece (fold_left (add_bin S) bs st) = Fin (e + g) /\
    0 <= g <= INR (fold_right Nat.add 0%nat
                     (map (fun b => length (filter (in_interval b) S)) bs)).
Proof.
  induction bs as [|b bs IH]; intros st e Hbs He.
  - exists 0. cbn. rewrite He. split; [f_equal; ring|lra].
  - pose proof (Forall_inv Hbs) as [Hlo Hhi]. pose proof (Forall_inv_tail Hbs) as Hbs'.
    cbn [fold_left map fold_right]. rewrite plus_INR.
    unfold add_bin at 2.
    destruct (Nat.eqb (length (filter (in_interval b) S)) 0) eqn:E.
    + apply Nat.eqb_eq in E. rewrite E. cbn [INR].
      destruct (IH st e Hbs' He) as (g & Hg & Hb). exists g. split; [exact Hg|lra].
    + apply Nat.eqb_neq in E.
      destruct (bin_gap_bound b S Hlo Hhi E) as (g0 & Hg0 & Hb0).
      destruct (IH (EceState (fadd (ece st) (bin_gap (filter (in_interval b) S)))
                             (ave_accs st ++ [bin_acc (filter (in_interval b) S)])
                             (ave_confs st ++ [bin_conf (filter (in_interval b) S)])
                             (counts st ++ [length (filter (in_interval b) S)])
                             (limits_used st ++ [b])) (e + g0) Hbs')
        as (g & Hg & Hb).
      { cbn [ece]. rewrite He, Hg0. reflexivity. }
      exists (g0 + g). split; [rewrite Hg; f_equal; ring|lra].
Qed.

Lemma equal_width_bins_unit M :
  Forall (fun b => 0 <= fst b /\ snd b <= 1) (map (equal_width_bin M) (seq 0 M)).
Proof.
  apply Forall_map, Forall_forall. intros i Hi. apply in_seq in Hi.
  assert (HM : (0 < M)%nat) by lia.
  unfold equal_width_bin. cbn [fst snd]. split; [apply (bin_limits_order M i HM)|].
  assert (H : 0 < INR M) by (apply lt_0_INR; assumption).
  rewrite <- (INR_div_self M HM). unfold Rdiv.
  apply Rmult_le_compat_r; [left; apply Rinv_0_lt_compat; assumption|].
  apply le_INR. lia.
Qed.

(** X14: on scores it accepts and a non-empty test set, [ECE] returns a
    real number between 0 and 100, whatever the entries of the scores, the
    labels and the number of bins are. *)
Theorem ECE_between_0_and_100 (s : scores) (target : list nat) (M : nat) :
  valid_scores s -> (0 < n_samples s)%nat -> length target = n_samples s ->
  exists e, ECE s target M = Ok (Fin e) /\ 0 <= e <= 100.
Proof.
  intros Hs HN Ht. destruct (confs_preds_ok s Hs) as (confs & preds & Hcp & Hc & Hp).
  pose proof (ECE_values_state s target M confs preds Hcp Hc Hp Ht HN) as Hv.
  cbn zeta in Hv. unfold ECE. rewrite Hv. cbn [bind fst].
  set (S := samples confs preds target) in *.
  destruct (fold_add_bin_ece S (map (equal_width_bin M) (seq 0 M))
              (EceState (Fin 0) [] [] [] []) 0 (equal_width_bins_unit M) eq_refl)
    as (g & Hg & Hb).
  rewrite Hg. pose proof (members_le S M) as Hle. apply le_INR in Hle.
  assert (HS : length S = n_samples s).
  { unfold S, samples. rewrite !length_combine. lia. }
  rewrite HS in Hle.
  assert (Hn : 0 < INR (n_samples s)) by (apply lt_0_INR; assumption).
  unfold of_nat. cbn [fmul fdiv]. rewrite Reqb_false by lra.
  eexists. split; [reflexivity|].
  pose proof (Rinv_0_lt_compat _ Hn) as Hi. unfold Rdiv. split.
  - apply Rmult_le_pos; [|lra]. apply Rmult_le_pos; lra.
  - replace 100 with (INR (n_samples s) * 100 * / INR (n_samples s)) at 2 by (field; lra).
    apply Rmult_le_compat_r; [lra|]. apply Rmult_le_compat_r; lra.
Qed.

Lemma ECE_between_0_and_100_witness :
  exists e, ECE (Scores2 lp_two_bins) [0; 1]%nat 15 = Ok (Fin e) /\ 0 <= e <= 100.
Proof.
  apply (ECE_between_0_and_100 (Scores2 lp_two_bins) [0; 1]%nat 15).
  - split; [repeat constructor|cbn; lia].
  - cbn. lia.
  - reflexivity.
Defined.

(** ** LogLossSE *)

Lemma align_same {A} (a b : list A) : length a = length b -> align a b = combine a b.
Proof. intros H. unfold align. rewrite H, Nat.eqb_refl. reflexivity. Qed.

Lemma compatible_refl n : compatible n n = true.
Proof. unfold compatible. rewrite Nat.eqb_refl. reflexivity. Qed.

Lemma broadcast_dim_same n : broadcast_dim n n = n.
Proof. unfold broadcast_dim. destruct (Nat.eqb n 1); reflexivity. Qed.

(** The elementwise operation on two matrices of the same shape. *)
Lemma broadcast2d_same f a b :
  wf_matrix a -> wf_matrix b -> ncols a = ncols b -> nrows a = nrows b ->
  broadcast2d f a b
  = Ok (Mat (ncols b) (map (fun rr => map (fun xy => f (fst xy) (snd xy))
                                        (combine (fst rr) (snd rr)))
                           (combine (rows a) (rows b)))).
Proof.
  intros Ha Hb HK HN. unfold broadcast2d. rewrite HK, HN, !compatible_refl, broadcast_dim_same.
  cbn [andb]. unfold nrows in HN. rewrite (align_same _ _ HN). f_equal. f_equal.
  apply map_ext_in. intros [r1 r2] Hin. cbn [fst snd].
  rewrite align_same; [reflexivity|].
  unfold wf_matrix in Ha, Hb. rewrite Forall_forall in Ha, Hb.
  rewrite (Ha r1 (in_combine_l _ _ _ _ Hin)), (Hb r2 (in_combine_r _ _ _ _ Hin)).
  exact HK.
Qed.

Lemma ref_weight_one : fneg (fexp (flog (Fin 1))) = Fin (- 1).
Proof.
  cbn [flog]. rewrite Rltb_true by lra. cbn [fexp fneg]. rewrite exp_ln by lra. reflexivity.
Qed.

Lemma ref_weight_zero : fneg (fexp (flog (Fin 0))) = Fin 0.
Proof.
  cbn [flog]. rewrite Rltb_false by lra. rewrite Reqb_true by reflexivity.
  cbn [fexp fneg]. rewrite Ropp_0. reflexivity.
Qed.

(** The sum of a row of the products of [LogLossSE], for the reference of
    a hard label: minus the log-probability of the label. *)
Lemma hard_row_sum l r : forall i,
  Forall finite r ->
  tsum (map (fun xy => fmul (fst xy) (snd xy))
            (combine (map (fun v => fneg (fexp (flog v))) (map (hot l) (seq i (length r)))) r))
  = if (i <=? l)%nat && (l <? i + length r)%nat
    then Fin (- real_of (nth (l - i) r NaN)) else Fin 0.
Proof.
  induction r as [|x r IH]; intros i Hr.
  - cbn [length seq map combine tsum fold_right].
    destruct (i <=? l)%nat eqn:E1; [|reflexivity].
    destruct (l <? i + 0)%nat eqn:E2; [|reflexivity].
    apply Nat.leb_le in E1. apply Nat.ltb_lt in E2. lia.
  - pose proof (Forall_inv Hr) as Hx. pose proof (Forall_inv_tail Hr) as Hr'.
    cbn [length seq map combine fst snd]. rewrite tsum_cons, (IH (S i) Hr').
    rewrite (finite_real_of x Hx).
    assert (Hh : hot l i = if Nat.eqb i l then Fin 1 else Fin 0) by reflexivity.
    rewrite Hh. clear Hh. destruct (Nat.eqb i l) eqn:E.
    + apply Nat.eqb_eq in E. subst l. rewrite ref_weight_one.
      assert (E1 : (S i <=? i)%nat = false) by (apply Nat.leb_gt; lia).
      assert (E2 : (i <? i + S (length r))%nat = true) by (apply Nat.ltb_lt; lia).
      rewrite E1, Nat.leb_refl, E2, Nat.sub_diag. cbn. f_equal. ring.
    + apply Nat.eqb_neq in E. rewrite ref_weight_zero.
      destruct (S i <=? l)%nat eqn:A1, (l <? S i + length r)%nat eqn:A2,
               (i <=? l)%nat eqn:B1, (l <? i + S (length r))%nat eqn:B2;
        cbn [andb fmul fadd];
        repeat match goal with
               | H : (_ <=? _)%nat = true |- _ => apply Nat.leb_le in H
               | H : (_ <=? _)%nat = false |- _ => apply Nat.leb_gt in H
               | H : (_ <? _)%nat = true |- _ => apply Nat.ltb_lt in H
               | H : (_ <? _)%nat = false |- _ => apply Nat.ltb_ge in H
               end; try lia; try (f_equal; ring).
      replace (l - i)%nat with (S (l - S i)) by lia. cbn [nth]. f_equal. ring.
Qed.

Lemma hard_row_loss K l r :
  Forall finite r -> length r = K -> (l < K)%nat ->
  tsum (map (fun xy => fmul (fst xy) (snd xy))
            (combine (map (fun v => fneg (fexp (flog v))) (onehot_row K l)) r))
  = fmul (Fin 1) (fneg (nth l r NaN)).
Proof.
  intros Hr HK Hl. subst K. rewrite onehot_row_hot, (hard_row_sum l r 0 Hr).
  assert (E2 : (l <? 0 + length r)%nat = true) by (apply Nat.ltb_lt; lia).
  rewrite E2, Nat.sub_0_r. cbn [Nat.leb andb].
  assert (Hf : finite (nth l r NaN)).
  { rewrite Forall_forall in Hr. apply Hr. apply nth_In. assumption. }
  rewrite (finite_real_of _ Hf) at 2. cbn. f_equal. ring.
Qed.

Lemma terms_zip (h : list fl -> nat -> fl) labels : forall pre rs,
  length rs = length labels ->
  map (fun p => h (nth (fst p) (pre ++ rs) []) (snd p))
      (combine (seq (length pre) (length labels)) labels)
  = zip_with h rs labels.
Proof.
  induction labels as [|l labels IH]; intros pre rs Hlen.
  - destruct rs; reflexivity.
  - destruct rs as [|r rs]; [discriminate|]. cbn [length seq combine map zip_with fst snd].
    f_equal.
    + rewrite app_nth2 by lia. rewrite Nat.sub_diag. reflexivity.
    + specialize (IH (pre ++ [r]) rs). rewrite length_app, <- app_assoc in IH.
      cbn [length app] in IH. rewrite Nat.add_1_r in IH. apply IH. cbn in Hlen. lia.
Qed.

Lemma map_combine_zip {A B C D} (a : A -> B) (h : B -> C -> D) (ls : list A) : forall rs,
  map (fun rr => h (fst rr) (snd rr)) (combine (map a ls) rs)
  = zip_with (fun r l => h (a l) r) rs ls.
Proof.
  induction ls as [|l ls IH]; intros rs; [destruct rs; reflexivity|].
  destruct rs as [|r rs]; [reflexivity|]. cbn [map combine zip_with fst snd]. f_equal. apply IH.
Qed.

Lemma zip_with_ext_in2 {A B C} (f g : A -> B -> C) a b :
  (forall x y, In x a -> In y b -> f x y = g x y) -> zip_with f a b = zip_with g a b.
Proof.
  revert b; induction a as [|x a IH]; intros b H; [reflexivity|].
  destruct b as [|y b]; [reflexivity|]. cbn [zip_with]. f_equal.
  - apply H; left; reflexivity.
  - apply IH. intros x' y' Hx Hy. apply H; right; assumption.
Qed.

(** X15: the cross-entropy against hard references is the log-loss:
    for real log-probabilities and labels below the number of classes,
    [LogLossSE] without normalization, given the logarithm of the one-hot
    encoding of the labels as reference, returns what the unnormalized
    [LogLoss] returns for the labels. *)
Theorem LogLossSE_hard_references (log_probs : matrix) (labels : list nat) :
  wf_matrix log_probs -> nrows log_probs = length labels ->
  Forall (fun l => (l < ncols log_probs)%nat) labels ->
  Forall (Forall finite) (rows log_probs) ->
  exists ref,
    onehot_encode labels (Some (ncols log_probs)) = Ok ref /\
    LogLossSE log_probs (map_matrix flog ref) false
      = LogLoss log_probs labels (PyBool false) None.
Proof.
  intros Hwf HN Hl Hfin. set (K := ncols log_probs) in *.
  exists (Mat K (map (onehot_row K) labels)).
  split; [apply onehot_encode_map; assumption|].
  unfold LogLoss. rewrite (LogLoss_rec_unnorm 1 log_probs labels None Hwf HN Hl I).
  unfold LogLossSE. rewrite broadcast2d_same.
  - cbn [bind rows map_matrix]. rewrite fdiv_1_r. f_equal. f_equal.
    rewrite !map_map.
    rewrite (map_combine_zip
               (fun l => map (fun v => fneg (fexp v)) (map flog (onehot_row K l)))
               (fun r1 r2 => tsum (map (fun xy => fmul (fst xy) (snd xy)) (combine r1 r2)))
               labels (rows log_probs)).
    unfold logloss_terms, weight_of, logloss_term, entry.
    rewrite feq_one_zero.
    rewrite <- (terms_zip (fun r l => tsum (map (fun xy => fmul (fst xy) (snd xy))
                    (combine (map (fun v => fneg (fexp v)) (map flog (onehot_row K l))) r)))
                  labels [] (rows log_probs) HN).
    cbn [app length]. apply map_ext_in. intros [j l] Hin. cbn [fst snd].
    destruct (combine_seq_In labels 0 j l Hin) as [Hnth Hj].
    rewrite Nat.sub_0_r in Hnth.
    assert (Hlt : (j < nrows log_probs)%nat) by lia.
    rewrite map_map. apply hard_row_loss.
    + rewrite Forall_forall in Hfin. apply Hfin. apply nth_In. exact Hlt.
    + apply wf_matrix_nth; assumption.
    + rewrite Forall_forall in Hl. apply Hl. eapply nth_error_In. exact Hnth.
  - unfold wf_matrix, map_matrix. cbn [rows ncols]. rewrite !map_map.
    apply Forall_map, Forall_forall. intros l _. rewrite !length_map. apply onehot_row_length.
  - exact Hwf.
  - reflexivity.
  - unfold nrows, map_matrix. cbn [rows]. rewrite !length_map. symmetry. exact HN.
Qed.

Lemma LogLossSE_hard_references_witness :
  exists ref,
    onehot_encode [0; 1]%nat (Some 2%nat) = Ok ref /\
    LogLossSE (Mat 2 [[Fin (-1); Fin (-2)]; [Fin (-3); Fin (-1)]]) (map_matrix flog ref) false
      = LogLoss (Mat 2 [[Fin (-1); Fin (-2)]; [Fin (-3); Fin (-1)]]) [0; 1]%nat
          (PyBool false) None.
Proof.
  apply (LogLossSE_hard_references (Mat 2 [[Fin (-1); Fin (-2)]; [Fin (-3); Fin (-1)]])
           [0; 1]%nat).
  - repeat constructor.
  - reflexivity.
  - repeat constructor.
  - repeat constructor.
Defined.

Lemma tsum_NaN l : In NaN l -> tsum l = NaN.
Proof.
  induction l as [|x l IH]; intros Hin; [contradiction|].
  rewrite tsum_cons. destruct Hin as [->|Hin]; [reflexivity|].
  rewrite (IH Hin). destruct x; reflexivity.
Qed.

Lemma fdiv_NaN_r x : fdiv x NaN = NaN.
Proof. destruct x; reflexivity. Qed.

Lemma tmean_zeros {A} (l : list A) :
  tmean (map (fun _ => Fin 0) l) = Fin 0 \/ tmean (map (fun _ => Fin 0) l) = NaN.
Proof.
  unfold tmean. rewrite length_map.
  assert (Hs : tsum (map (fun _ : A => Fin 0) l) = Fin 0).
  { induction l as [|x l IH]; [reflexivity|]. cbn [map]. rewrite tsum_cons, IH. cbn.
    f_equal. ring. }
  rewrite Hs. unfold of_nat. cbn [fdiv].
  destruct (Reqb (INR (length l)) 0) eqn:E.
  - right. unfold scale_inf. rewrite !Rltb_false by lra. reflexivity.
  - left. f_equal. unfold Rdiv. ring.
Qed.

Lemma plogp_zero p : p = Fin 0 \/ p = NaN -> fmul p (flog p) = NaN.
Proof.
  intros [-> | ->]; [|reflexivity]. cbn [flog]. rewrite Rltb_false by lra.
  rewrite Reqb_true by reflexivity. cbn [fmul]. unfold scale_inf.
  rewrite !Rltb_false by lra. reflexivity.
Qed.

(** The entropy of the mean reference is NaN when a class has no
    reference mass. *)
Lemma entropy_absent_class ref k :
  (k < ncols ref)%nat ->
  Forall (fun r => nth k r NaN = NInf) (rows ref) ->
  entropy (col_means (map_matrix fexp ref)) = NaN.
Proof.
  intros Hk Hcol. unfold entropy.
  rewrite (tsum_NaN _); [reflexivity|].
  set (p := tmean (map (fun r => nth k r NaN) (rows (map_matrix fexp ref)))).
  assert (Hp : p = Fin 0 \/ p = NaN).
  { unfold p, map_matrix. cbn [rows]. rewrite map_map.
    rewrite (map_ext_in _ (fun _ => Fin 0)); [apply tmean_zeros|].
    intros r Hr. rewrite Forall_forall in Hcol.
    change NaN with (fexp NaN) at 1. rewrite map_nth, (Hcol r Hr). reflexivity. }
  rewrite <- (plogp_zero p Hp).
  apply (in_map (fun q => fmul q (flog q)) _ p). unfold col_means.
  apply (in_map (fun j => tmean (map (fun r => nth j r NaN) (rows (map_matrix fexp ref))))
                _ k).
  apply in_seq. cbn [map_matrix ncols]. lia.
Qed.

(** X16: the normalized [LogLossSE] is NaN whenever some class has the
    reference log-probability minus infinity on every sample (as for hard
    references of labels among which a class does not occur): the entropy
    of the mean reference holds the term [0 * log 0]. *)
Theorem LogLossSE_norm_nan_on_absent_class (log_probs ref_log_probs : matrix) (k : nat) :
  wf_matrix log_probs -> wf_matrix ref_log_probs ->
  ncols ref_log_probs = ncols log_probs -> nrows ref_log_probs = nrows log_probs ->
  (k < ncols ref_log_probs)%nat ->
  Forall (fun r => nth k r NaN = NInf) (rows ref_log_probs) ->
  LogLossSE log_probs ref_log_probs true = Ok NaN.
Proof.
  intros Hwf Hwr HK HN Hk Hcol. unfold LogLossSE.
  rewrite (entropy_absent_class ref_log_probs k Hk Hcol).
  rewrite broadcast2d_same.
  - cbn [bind]. rewrite fdiv_NaN_r. reflexivity.
  - unfold wf_matrix, map_matrix in *. cbn [rows ncols]. apply Forall_map.
    eapply Forall_impl; [|exact Hwr]. cbn. intros r Hr. rewrite length_map. exact Hr.
  - exact Hwf.
  - exact HK.
  - unfold nrows, map_matrix in *. cbn [rows]. rewrite length_map. exact HN.
Qed.

Lemma LogLossSE_norm_nan_on_absent_class_witness :
  LogLossSE (Mat 2 [[Fin (-1); Fin (-2)]]) (Mat 2 [[Fin 0; NInf]]) true = Ok NaN.
Proof.
  apply (LogLossSE_norm_nan_on_absent_class
           (Mat 2 [[Fin (-1); Fin (-2)]]) (Mat 2 [[Fin 0; NInf]]) 1).
  - repeat constructor.
  - repeat constructor.
  - reflexivity.
  - reflexivity.
  - cbn. lia.
  - repeat constructor.
Defined.

Lemma prob_nonneg_le x : log_prob x -> 0 <= prob x <= 1.
Proof.
  destruct x as [r| | |]; cbn; intros H; try contradiction; [|lra].
  pose proof (exp_pos r). split; [lra|]. rewrite <- exp_0.
  destruct (Rle_lt_or_eq_dec _ _ H) as [Hlt| ->]; [left; apply exp_increasing; assumption|lra].
Qed.

Lemma soft_row_nonneg r1 r2 :
  Forall log_prob r1 -> Forall (fun x => finite x /\ log_prob x) r2 ->
  fin_nonneg (tsum (map (fun xy => fmul (fst xy) (snd xy))
                        (combine (map (fun x => fneg (fexp x)) r1) r2))).
Proof.
  intros H1 H2. apply tsum_fin_nonneg. apply Forall_map. apply Forall_forall.
  intros [a b] Hin. cbn [fst snd].
  pose proof (in_combine_l _ _ _ _ Hin) as Ha. pose proof (in_combine_r _ _ _ _ Hin) as Hb.
  apply in_map_iff in Ha. destruct Ha as (x & <- & Hx).
  rewrite Forall_forall in H1, H2. specialize (H1 x Hx). destruct (H2 b Hb) as [Hf Hl].
  rewrite (fexp_prob x H1). pose proof (prob_nonneg_le x H1) as Hp.
  destruct b as [y| | |]; cbn in Hf, Hl |- *; try contradiction.
  replace (- prob x * y) with (prob x * - y) by ring.
  apply Rmult_le_pos; lra.
Qed.

(** X23: the cross-entropy is not negative: for real log-probabilities of
    the system and reference log-probabilities of the same shape, on a
    non-empty test set, the unnormalized [LogLossSE] returns a non-negative
    real number. *)
Theorem LogLossSE_nonneg (log_probs ref_log_probs : matrix) :
  wf_matrix log_probs -> wf_matrix ref_log_probs ->
  ncols ref_log_probs = ncols log_probs -> nrows ref_log_probs = nrows log_probs ->
  (0 < nrows log_probs)%nat ->
  Forall (Forall (fun x => finite x /\ log_prob x)) (rows log_probs) ->
  Forall (Forall log_prob) (rows ref_log_probs) ->
  exists s, LogLossSE log_probs ref_log_probs false = Ok (Fin s) /\ 0 <= s.
Proof.
  intros Hwf Hwr HK HN Hpos Hlp Href. unfold LogLossSE. rewrite broadcast2d_same.
  - cbn [bind rows]. rewrite fdiv_1_r.
    match goal with |- exists s, Ok (tmean ?l) = _ /\ _ => set (sums := l) end.
    assert (Hne : sums <> []).
    { apply nonempty_of_length. unfold sums, map_matrix. cbn [rows].
      rewrite !length_map, length_combine, length_map. unfold nrows in *. lia. }
    assert (Hall : Forall fin_nonneg sums).
    { unfold sums, map_matrix. cbn [rows]. rewrite map_map. apply Forall_map, Forall_forall.
      intros [r1 r2] Hin. cbn [fst snd].
      pose proof (in_combine_l _ _ _ _ Hin) as Ha. pose proof (in_combine_r _ _ _ _ Hin) as Hb.
      apply in_map_iff in Ha. destruct Ha as (r & <- & Hr).
      rewrite Forall_forall in Hlp, Href. apply soft_row_nonneg; auto. }
    pose proof (tmean_fin_nonneg sums Hne Hall) as Hm.
    destruct (tmean sums) as [s| | |]; cbn in Hm; try contradiction.
    exists s. auto.
  - unfold wf_matrix, map_matrix in *. cbn [rows ncols]. apply Forall_map.
    eapply Forall_impl; [|exact Hwr]. cbn. intros r Hr. rewrite length_map. exact Hr.
  - exact Hwf.
  - exact HK.
  - unfold nrows, map_matrix in *. cbn [rows]. rewrite length_map. exact HN.
Qed.

Lemma LogLossSE_nonneg_witness :
  exists s,
    LogLossSE (Mat 2 [[Fin (-1); Fin (-2)]]) (Mat 2 [[Fin 0; NInf]]) false = Ok (Fin s) /\
    0 <= s.
Proof.
  apply (LogLossSE_nonneg (Mat 2 [[Fin (-1); Fin (-2)]]) (Mat 2 [[Fin 0; NInf]])).
  - repeat constructor.
  - repeat constructor.
  - reflexivity.
  - reflexivity.
  - cbn. lia.
  - repeat constructor; cbn; lra.
  - repeat constructor; cbn; lra.
Defined.

(** ** ECEbin *)

(** A bin that holds no posterior leaves the state of the loop as it is. *)
Lemma ecebin_step_empty post2 target l2norm st low high :
  Forall (fun c => in_bin low high c = false) post2 ->
  ecebin_step post2 target l2norm st (low, high) = Ok st.
Proof.
  intros H. unfold ecebin_step.
  rewrite count_occ_all_false; [reflexivity|].
  apply Forall_map. assumption.
Qed.

Lemma in_bin_zero lo hi : 0 <= lo -> in_bin lo hi (Fin 0) = false.
Proof. intros H. unfold in_bin, flt. rewrite Rltb_false by lra. reflexivity. Qed.

Lemma ecebin_loop_zero_posteriors post2 target l2norm bs : forall st,
  Forall (fun c => c = Fin 0) post2 ->
  Forall (fun b => 0 <= fst b /\ snd b <= 1) bs ->
  ecebin_loop post2 target l2norm st bs = Ok st.
Proof.
  induction bs as [|[lo hi] bs IH]; intros st Hp Hbs; [reflexivity|].
  cbn [ecebin_loop]. rewrite ecebin_step_empty.
  - cbn [bind]. apply IH; [assumption|apply (Forall_inv_tail Hbs)].
  - eapply Forall_impl; [|exact Hp]. cbn beta. intros c ->.
    apply in_bin_zero. apply (Forall_inv Hbs).
Qed.

(** X17: when every sample gives the second class the log-probability
    minus infinity, no bin holds a sample (the first bin starts above 0)
    and [ECEbin] returns 0, with either norm, for every number of bins and
    whatever the labels are. *)
Theorem ECEbin_zero_posteriors (log_probs : matrix) (target : list nat) (M : nat)
    (l2norm : bool) :
  wf_matrix log_probs -> ncols log_probs = 2%nat -> (0 < nrows log_probs)%nat ->
  Forall (fun r => nth 1 r NaN = NInf) (rows log_probs) ->
  ECEbin log_probs target M l2norm = Passed (Ok (Fin 0)) /\
  exists e,
    ECEbin_values log_probs target M l2norm
      = Passed (Ok (e, EceState (Fin 0) [] [] [] [])).
Proof.
  intros _ HK HN Hcol.
  assert (Hv : ECEbin_values log_probs target M l2norm
               = Passed (Ok (Fin 0, EceState (Fin 0) [] [] [] []))).
  { unfold ECEbin_values. cbn [map_matrix ncols]. rewrite HK. cbn [Nat.eqb negb].
    rewrite bins_equal_width, ecebin_loop_zero_posteriors.
    - cbn [bind].
      assert (Hrows : nrows (map_matrix fexp log_probs) = nrows log_probs)
        by (unfold nrows, map_matrix; cbn [rows]; apply length_map).
      fold (map_matrix fexp log_probs). rewrite Hrows.
      unfold ece_percent. cbn [counts ece].
      destruct (nrows log_probs) as [|n] eqn:En; [lia|].
      cbn [bind]. unfold of_nat. cbn [fmul fdiv].
      assert (Hn : INR (S n) <> 0) by (apply not_0_INR; lia).
      rewrite (Reqb_false _ _ Hn).
      replace (0 * 100 / INR (S n)) with 0 by (unfold Rdiv; ring). reflexivity.
    - unfold column1, map_matrix. cbn [rows]. rewrite map_map. apply Forall_map.
      eapply Forall_impl; [|exact Hcol]. cbn beta. intros r Hr.
      change NaN with (fexp NaN). rewrite map_nth, Hr. reflexivity.
    - apply equal_width_bins_unit. }
  split.
  - unfold ECEbin. rewrite Hv. reflexivity.
  - eexists. exact Hv.
Qed.

Lemma ECEbin_zero_posteriors_witness :
  ECEbin (Mat 2 [[Fin 0; NInf]; [Fin 0; NInf]]) [1; 1]%nat 15 false = Passed (Ok (Fin 0)).
Proof.
  apply (ECEbin_zero_posteriors (Mat 2 [[Fin 0; NInf]; [Fin 0; NInf]]) [1; 1]%nat 15 false).
  - repeat constructor.
  - reflexivity.
  - cbn. lia.
  - repeat constructor.
Defined.







(** ** shift: the scaling vector and the offsets *)














(** ** CalLossLogLoss and CalLossBrier: at most 100 *)

Lemma CalLossBrier_no_prior log_probs cal_log_probs targets :
  CalLossBrier log_probs cal_log_probs targets None =
  (raw <- Brier log_probs targets (PyBool false) None ;;
   cal <- Brier cal_log_probs targets (PyBool false) None ;;
   Ok (fmul (fdiv (fsub raw cal) raw) (Fin 100))).
Proof. reflexivity. Qed.

(** The relative difference of a non-negative score to a positive raw
    score. *)
Lemma relative_loss_at_most raw cal :
  0 < raw -> nonneg cal ->
  at_most (fmul (fdiv (fsub (Fin raw) cal) (Fin raw)) (Fin 100)) 100 /\
  (cal = Fin raw -> fmul (fdiv (fsub (Fin raw) cal) (Fin raw)) (Fin 100) = Fin 0).
Proof.
  intros Hraw Hcal. destruct cal as [c| | |]; cbn in Hcal; try contradiction.
  - cbn [fsub fneg fadd fdiv]. rewrite Reqb_false by lra. cbn [fmul at_most]. split.
    + assert (H : (raw + - c) / raw <= 1).
      { apply (Rmult_le_reg_r raw); [assumption|]. unfold Rdiv.
        rewrite Rmult_assoc, Rinv_l by lra. lra. }
      lra.
    + intros E. inversion E. subst c. f_equal. unfold Rdiv. rewrite Rplus_opp_r. ring.
  - cbn [fsub fneg fadd fdiv]. rewrite Rltb_false by lra. cbn [fmul]. unfold scale_inf.
    rewrite Rltb_true by lra. split; [exact I|discriminate].
Qed.

Lemma relative_loss_infinite cal :
  nonneg cal -> fmul (fdiv (fsub PInf cal) PInf) (Fin 100) = NaN.
Proof. destruct cal; cbn; intros H; try contradiction; reflexivity. Qed.

(** X21: for log-probabilities of the raw and of the calibrated system on
    a non-empty test set, without an external prior.  The two Brier scores
    are non-negative reals; when the raw one is not 0, [CalLossBrier]
    returns the real number [(raw - cal) / raw * 100], which is at most 100,
    and is 0 when the two scores are equal.  The two log-losses are
    non-negative reals or plus infinity; when the raw one is a real number
    other than 0, [CalLossLogLoss] returns a value that is at most 100 (a
    real number, or minus infinity when the calibrated log-loss is
    infinite), and 0 when the two scores are equal; when the raw one is plus
    infinity, [CalLossLogLoss] returns NaN. *)
Theorem CalLoss_at_most_100 (log_probs cal_log_probs : matrix) (labels : list nat) :
  log_prob_matrix log_probs -> log_prob_matrix cal_log_probs ->
  (0 < ncols log_probs)%nat -> ncols cal_log_probs = ncols log_probs ->
  (0 < nrows log_probs)%nat ->
  nrows log_probs = length labels -> nrows cal_log_probs = length labels ->
  Forall (fun l => (l < ncols log_probs)%nat) labels ->
  (exists raw cal,
     Brier log_probs labels (PyBool false) None = Ok (Fin raw) /\
     Brier cal_log_probs labels (PyBool false) None = Ok (Fin cal) /\
     0 <= raw /\ 0 <= cal /\
     (raw <> 0 ->
      CalLossBrier log_probs cal_log_probs labels None
        = Ok (Fin ((raw - cal) / raw * 100)) /\
      (raw - cal) / raw * 100 <= 100 /\
      (cal = raw -> CalLossBrier log_probs cal_log_probs labels None = Ok (Fin 0)))) /\
  (exists raw cal,
     LogLoss log_probs labels (PyBool false) None = Ok raw /\
     LogLoss cal_log_probs labels (PyBool false) None = Ok cal /\
     nonneg raw /\ nonneg cal /\
     (forall r, raw = Fin r -> r <> 0 ->
      exists x,
        CalLossLogLoss log_probs cal_log_probs labels None = Ok x /\
        at_most x 100 /\
        (cal = raw -> x = Fin 0)) /\
     (raw = PInf -> CalLossLogLoss log_probs cal_log_probs labels None = Ok NaN)).
Proof.
  intros Hlp Hcal HK HKc HN Hn Hnc Hl.
  assert (HNc : (0 < nrows cal_log_probs)%nat) by lia.
  assert (Hlc : Forall (fun l => (l < ncols cal_log_probs)%nat) labels)
    by (rewrite HKc; exact Hl).
  assert (HKc' : (0 < ncols cal_log_probs)%nat) by lia.
  split.
  - destruct (Brier_scores log_probs labels None Hlp HK HN Hn Hl I)
      as (raw & _ & Hraw & Hr0 & _).
    destruct (Brier_scores cal_log_probs labels None Hcal HKc' HNc Hnc Hlc I)
      as (cal & _ & Hc & Hc0 & _).
    exists raw, cal. repeat (split; [assumption|]). intros Hne.
    assert (Hpos : 0 < raw) by lra.
    destruct (relative_loss_at_most raw (Fin cal) Hpos Hc0) as [H1 H2].
    rewrite CalLossBrier_no_prior, Hraw, Hc. cbn [bind].
    cbn [fsub fneg fadd fdiv] in *. rewrite Reqb_false in * by lra. cbn [fmul at_most] in *.
    split; [reflexivity|]. split; [exact H1|].
    intros E. rewrite E in *. rewrite H2 by reflexivity. reflexivity.
  - destruct (LogLoss_scores log_probs labels None Hlp HN Hn Hl I)
      as (raw & _ & Hraw & Hr0 & _).
    destruct (LogLoss_scores cal_log_probs labels None Hcal HNc Hnc Hlc I)
      as (cal & _ & Hc & Hc0 & _).
    exists raw, cal. repeat (split; [assumption|]). split.
    + intros r Er Hne. subst raw.
      assert (Hpos : 0 < r) by (cbn in Hr0; lra).
      destruct (relative_loss_at_most r cal Hpos Hc0) as [H1 H2].
      eexists. rewrite CalLossLogLoss_no_prior, Hraw, Hc. cbn [bind].
      split; [reflexivity|]. split; assumption.
    + intros Er. subst raw. rewrite CalLossLogLoss_no_prior, Hraw, Hc. cbn [bind].
      rewrite (relative_loss_infinite cal Hc0). reflexivity.
Qed.

Lemma lp_certain_log_prob : log_prob_matrix lp_certain.
Proof.
  split; [repeat constructor|]. unfold lp_certain. cbn [rows].
  repeat constructor; cbn; lra.
Qed.

Lemma lp_one_sample_log_prob : log_prob_matrix lp_one_sample.
Proof.
  split; [repeat constructor|]. unfold lp_one_sample. cbn [rows].
  assert (He : exp (-1) < 1) by (rewrite <- exp_0; apply exp_increasing; lra).
  pose proof (exp_pos (-1)) as Hp.
  assert (Hl : ln (1 - exp (-1)) < 0).
  { rewrite <- ln_1. apply ln_increasing; lra. }
  repeat constructor; cbn; lra.
Qed.

Lemma Brier_certain_wrong : Brier lp_certain [1%nat] (PyBool false) None = Ok (Fin 1).
Proof.
  unfold Brier, lp_certain. fl_eval_exp. f_equal. f_equal. lra.
Qed.

Lemma LogLoss_certain_wrong : LogLoss lp_certain [1%nat] (PyBool false) None = Ok PInf.
Proof. unfold LogLoss, lp_certain. fl_eval. reflexivity. Qed.

Lemma LogLoss_one_sample_unnorm :
  LogLoss lp_one_sample [0%nat] (PyBool false) None = Ok (Fin 1).
Proof.
  unfold LogLoss, lp_one_sample. fl_eval. f_equal. f_equal. lra.
Qed.

Lemma Ok_Fin_inj a b : Ok (Fin a) = Ok (Fin b) -> a = b.
Proof. intros H. injection H. auto. Qed.

Lemma CalLoss_at_most_100_witness :
  CalLossBrier lp_certain lp_certain [1%nat] None = Ok (Fin 0) /\
  CalLossLogLoss lp_certain lp_certain [1%nat] None = Ok NaN /\
  (exists x, CalLossLogLoss lp_one_sample lp_one_sample [0%nat] None = Ok x /\
             at_most x 100 /\ x = Fin 0).
Proof.
  destruct (CalLoss_at_most_100 lp_certain lp_certain [1%nat])
    as [(raw & cal & H1 & H2 & _ & _ & H3) (lraw & lcal & H4 & _ & _ & _ & _ & H5)];
    try (exact lp_certain_log_prob); try reflexivity; try (cbn; lia);
    [repeat constructor|].
  destruct (CalLoss_at_most_100 lp_one_sample lp_one_sample [0%nat])
    as [_ (r1 & c1 & H6 & H7 & _ & _ & H8 & _)];
    try (exact lp_one_sample_log_prob); try reflexivity; try (cbn; lia);
    [repeat constructor|].
  rewrite Brier_certain_wrong in H1, H2.
  apply Ok_Fin_inj in H1. apply Ok_Fin_inj in H2. subst raw cal.
  assert (Hne : 1 <> 0) by lra.
  destruct (H3 Hne) as (_ & _ & HB).
  split; [apply HB; reflexivity|].
  rewrite LogLoss_certain_wrong in H4. injection H4 as <-.
  split; [apply H5; reflexivity|].
  rewrite LogLoss_one_sample_unnorm in H6, H7.
  injection H6 as <-. injection H7 as <-.
  destruct (H8 1 eq_refl Hne) as (x & Hx & Hle & Hz).
  exists x. split; [exact Hx|]. split; [exact Hle|]. apply Hz. reflexivity.
Defined.

(** ** ECE: every sample of a proper classifier is counted *)







